(** * The token store of antigravity2api-nodejs (src/auth/token_store.js)

    A shallow embedding of [TokenStore]: the JSON values it handles, the file
    system calls it makes, its fields and its methods, followed by
    the properties of the store's specification and by further properties of
    its methods.  Three small modules of the same program are embedded
    beside the store: the model groups, the Vercel adapter and the
    serverless entry.

    JavaScript values are restricted to what JSON can carry (numbers to
    integers).  Promises are modelled by the outcome they settle to; the
    operations chained on [_writeQueue] run one after another, in the order in
    which they were submitted, which is what the chain enforces. *)

From Stdlib Require Import ZArith String Ascii Lia.
From stdpp Require Import base option list strings pretty.

Open Scope string_scope.
Open Scope Z_scope.
Set Warnings "-register-all".

(** ** JavaScript values *)

Inductive value :=
| VNull
| VBool (b : bool)
| VNum (n : Z)
| VStr (s : string)
| VArr (l : list value)
| VObj (o : list (string * value)).

(** An object is the list of its own properties, in insertion order. *)
Abbreviation object := (list (string * value)).

Inductive errcode := EEXIST | EPERM | ENOENT | EACCES | EIO | ENOSPC.

Inductive error :=
| SystemError (code : errcode)
| SyntaxError
| TypeError.

Inductive outcome (A : Type) :=
| Fulfilled (a : A)
| Rejected (e : error).
Arguments Fulfilled {A} a.
Arguments Rejected {A} e.

Definition errcode_eqb (a b : errcode) : bool :=
  match a, b with
  | EEXIST, EEXIST | EPERM, EPERM | ENOENT, ENOENT
  | EACCES, EACCES | EIO, EIO | ENOSPC, ENOSPC => true
  | _, _ => false
  end.

(** [error.code]: only system errors carry one. *)
Definition error_code (e : error) : option errcode :=
  match e with SystemError c => Some c | _ => None end.

Definition has_code (e : error) (c : errcode) : bool :=
  match error_code e with Some c' => errcode_eqb c' c | None => false end.

Definition errcode_name (c : errcode) : string :=
  match c with
  | EEXIST => "EEXIST" | EPERM => "EPERM" | ENOENT => "ENOENT"
  | EACCES => "EACCES" | EIO => "EIO" | ENOSPC => "ENOSPC"
  end.

(** [error.message] *)
Definition message (e : error) : string :=
  match e with
  | SystemError c => errcode_name c
  | SyntaxError => "Unexpected token in JSON"
  | TypeError => "Cannot read properties of null"
  end.

(** Truthiness, as [if (x)], [!x] and [x || y] test it. *)
Definition truthy (v : value) : bool :=
  match v with
  | VNull => false
  | VBool b => b
  | VNum n => negb (n =? 0)
  | VStr s => negb (String.eqb s "")
  | VArr _ | VObj _ => true
  end.

Fixpoint lookup_prop (k : string) (o : object) : option value :=
  match o with
  | [] => None
  | (k', v) :: o' => if String.eqb k k' then Some v else lookup_prop k o'
  end.

Definition has_prop (k : string) (o : object) : bool :=
  match lookup_prop k o with Some _ => true | None => false end.

(** [o.k = v] on an object: an existing property keeps its place. *)
Fixpoint assign_prop (k : string) (v : value) (o : object) : object :=
  match o with
  | [] => [(k, v)]
  | (k', v') :: o' =>
      if String.eqb k k' then (k', v) :: o' else (k', v') :: assign_prop k v o'
  end.

Fixpoint chars (s : string) : list string :=
  match s with
  | EmptyString => []
  | String c s' => String c EmptyString :: chars s'
  end.

(** The own enumerable properties that a spread [{...v}] or a rest pattern
    [{k, ...rest} = v] copies: those of an object, the indices of an array or
    of a string, and none for the other values. *)
Definition own_props (v : value) : object :=
  match v with
  | VObj o => o
  | VArr l => imap (fun i x => (pretty i, x)) l
  | VStr s => imap (fun i c => (pretty i, VStr c)) (chars s)
  | _ => []
  end.

(** [v.k] for the property names this file reads ([salt], [tokens],
    [refresh_token]): a [TypeError] on [null], [undefined] ([None]) when the
    property is missing and on the values that are no objects. *)
Definition get_prop (v : value) (k : string) : outcome (option value) :=
  match v with
  | VNull => Rejected TypeError
  | VObj o => Fulfilled (lookup_prop k o)
  | _ => Fulfilled None
  end.

(** [v.k = x] in strict mode (an ES module): a [TypeError] on [null] and on
    primitives.  Arrays do not reach the assignments of this file. *)
Definition set_prop (v : value) (k : string) (x : value) : outcome value :=
  match v with
  | VObj o => Fulfilled (VObj (assign_prop k x o))
  | VArr l => Fulfilled (VArr l)
  | _ => Rejected TypeError
  end.

(** The [...plain] of [{ k, ...plain } = v]. *)
Definition omit (k : string) (o : object) : object :=
  List.filter (fun kv => negb (String.eqb kv.1 k)) o.

(** [{ ...a, ...b }]: the properties of [a] in their order, with the values
    [b] gives them, then the properties that only [b] has. *)
Definition spread (a b : object) : object :=
  map (fun kv => (kv.1, default kv.2 (lookup_prop kv.1 b))) a
  ++ List.filter (fun kv => negb (has_prop kv.1 a)) b.

(** [x === y] on two values.  Arrays and objects are equal only to
    themselves; two occurrences in the model stand for two objects. *)
Definition strict_eq (x y : value) : bool :=
  match x, y with
  | VNull, VNull => true
  | VBool a, VBool b => Bool.eqb a b
  | VNum a, VNum b => a =? b
  | VStr a, VStr b => String.eqb a b
  | _, _ => false
  end.

(** [x === y] where either side may be [undefined]. *)
Definition strict_eq_opt (x y : option value) : bool :=
  match x, y with
  | None, None => true
  | Some a, Some b => strict_eq a b
  | _, _ => false
  end.

(** [data || '{}'] *)
Definition text_of (data : string) : string :=
  if String.eqb data "" then "{}" else data.

(** ** The platform

    What the store imports and does not define: the JSON codec, the salt
    generator of utils/idGenerator.js, the constant [FILE_CACHE_TTL], and the
    behaviour of the file system, given as the error (if any) with which a
    call fails after the calls made so far. *)

Inductive fs_op :=
| Mkdir
| Access
| WriteFile (content : string)
| ReadFile
| OpenTemp
| HandleWrite (content : string)
| HandleSync
| HandleClose
| Rename
| Unlink
| UnlinkTemp.

Record fs_event := FsEvent { ev_op : fs_op; ev_error : option error }.

Record Platform := {
  JSON_stringify : value -> string;
  JSON_parse : string -> option value;
  generateSalt : nat -> string;
  FILE_CACHE_TTL : Z;
  fs_fault : list fs_event -> fs_op -> option errcode
}.

Inductive level := Info | Warn | Error.

(** ** The world outside the store object *)

Record Env := {
  file : option string;        (* the contents of [filePath], if it exists *)
  temp : option string;        (* the contents of the temporary sibling *)
  now : Z;                     (* [Date.now()] *)
  salts_drawn : nat;           (* calls made to [generateSalt] *)
  trace : list fs_event;       (* the file system calls, oldest first *)
  log : list (level * string)  (* the lines logged, oldest first *)
}.

(** ** The fields of a [TokenStore] *)

Record Store := {
  _cache : option (list value);
  _cacheTime : Z;
  _salt : value;
  _lastReadOk : bool;
  _writeQueue : outcome unit
}.

(** The constructor. *)
Definition new_store : Store :=
  {| _cache := None; _cacheTime := 0; _salt := VNull;
     _lastReadOk := true; _writeQueue := Fulfilled tt |}.

Definition set_file (f : option string) (e : Env) : Env :=
  {| file := f; temp := temp e; now := now e; salts_drawn := salts_drawn e;
     trace := trace e; log := log e |}.

Definition set_temp (t : option string) (e : Env) : Env :=
  {| file := file e; temp := t; now := now e; salts_drawn := salts_drawn e;
     trace := trace e; log := log e |}.

Definition set_salts_drawn (n : nat) (e : Env) : Env :=
  {| file := file e; temp := temp e; now := now e; salts_drawn := n;
     trace := trace e; log := log e |}.

Definition add_event (ev : fs_event) (e : Env) : Env :=
  {| file := file e; temp := temp e; now := now e; salts_drawn := salts_drawn e;
     trace := (trace e ++ [ev])%list; log := log e |}.

Definition add_log (l : level) (text : string) (e : Env) : Env :=
  {| file := file e; temp := temp e; now := now e; salts_drawn := salts_drawn e;
     trace := trace e; log := (log e ++ [(l, text)])%list |}.

Definition set_cache (c : option (list value)) (s : Store) : Store :=
  {| _cache := c; _cacheTime := _cacheTime s; _salt := _salt s;
     _lastReadOk := _lastReadOk s; _writeQueue := _writeQueue s |}.

Definition set_cacheTime (t : Z) (s : Store) : Store :=
  {| _cache := _cache s; _cacheTime := t; _salt := _salt s;
     _lastReadOk := _lastReadOk s; _writeQueue := _writeQueue s |}.

Definition set_salt (v : value) (s : Store) : Store :=
  {| _cache := _cache s; _cacheTime := _cacheTime s; _salt := v;
     _lastReadOk := _lastReadOk s; _writeQueue := _writeQueue s |}.

Definition set_lastReadOk (b : bool) (s : Store) : Store :=
  {| _cache := _cache s; _cacheTime := _cacheTime s; _salt := _salt s;
     _lastReadOk := b; _writeQueue := _writeQueue s |}.

Definition set_writeQueue (q : outcome unit) (s : Store) : Store :=
  {| _cache := _cache s; _cacheTime := _cacheTime s; _salt := _salt s;
     _lastReadOk := _lastReadOk s; _writeQueue := q |}.

(** ** Asynchronous code: state passing with exceptions

    An [async] function is a function of the store's fields and of the world
    to the outcome its promise settles to, with the fields and the world it
    leaves behind. *)

Definition M (A : Type) : Type := Store -> Env -> outcome A * Store * Env.

Definition ret {A} (a : A) : M A := fun s e => (Fulfilled a, s, e).

Definition throw {A} (err : error) : M A := fun s e => (Rejected err, s, e).

Definition bind {A B} (m : M A) (k : A -> M B) : M B :=
  fun s e =>
    match m s e with
    | (Fulfilled a, s1, e1) => k a s1 e1
    | (Rejected err, s1, e1) => (Rejected err, s1, e1)
    end.

(** [try { m } catch (error) { h error }] *)
Definition try_catch {A} (m : M A) (h : error -> M A) : M A :=
  fun s e =>
    match m s e with
    | (Fulfilled a, s1, e1) => (Fulfilled a, s1, e1)
    | (Rejected err, s1, e1) => h err s1 e1
    end.

(** [m], with its outcome as a value: the code that follows decides. *)
Definition settle {A} (m : M A) : M (outcome A) :=
  fun s e => let '(r, s1, e1) := m s e in (Fulfilled r, s1, e1).

Definition of_outcome {A} (r : outcome A) : M A := fun s e => (r, s, e).

#[global] Instance M_ret : MRet M := @ret.
#[global] Instance M_bind : MBind M := fun A B k m => bind m k.

Definition get_store : M Store := fun s e => (Fulfilled s, s, e).
Definition modify_store (f : Store -> Store) : M unit :=
  fun s e => (Fulfilled tt, f s, e).
Definition get_env : M Env := fun s e => (Fulfilled e, s, e).
Definition modify_env (f : Env -> Env) : M unit :=
  fun s e => (Fulfilled tt, s, f e).

Definition Date_now : M Z := e ← get_env; mret (now e).

Definition log_info (text : string) : M unit := modify_env (add_log Info text).
Definition log_warn (text : string) : M unit := modify_env (add_log Warn text).
Definition log_error (text detail : string) : M unit :=
  modify_env (add_log Error (text ++ " " ++ detail)).

(** ** The file system calls

    A call first asks the platform whether it fails; a failed call changes
    nothing.  Every call is recorded with its result. *)

Section Model.
Context (P : Platform).

Definition fs_call {A} (op : fs_op) (run : Env -> outcome A * Env) : M A :=
  fun s e =>
    match fs_fault P (trace e) op with
    | Some c =>
        (Rejected (SystemError c), s,
         add_event (FsEvent op (Some (SystemError c))) e)
    | None =>
        match run e with
        | (Fulfilled a, e1) => (Fulfilled a, s, add_event (FsEvent op None) e1)
        | (Rejected err, e1) =>
            (Rejected err, s, add_event (FsEvent op (Some err)) e1)
        end
    end.

(** [fs.mkdir(dir, { recursive: true })] *)
Definition fs_mkdir : M unit := fs_call Mkdir (fun e => (Fulfilled tt, e)).

(** [fs.access(this.filePath)] *)
Definition fs_access : M unit :=
  fs_call Access (fun e =>
    match file e with
    | Some _ => (Fulfilled tt, e)
    | None => (Rejected (SystemError ENOENT), e)
    end).

(** [fs.writeFile(this.filePath, content, 'utf8')] *)
Definition fs_writeFile (content : string) : M unit :=
  fs_call (WriteFile content) (fun e => (Fulfilled tt, set_file (Some content) e)).

(** [fs.readFile(this.filePath, 'utf8')] *)
Definition fs_readFile : M string :=
  fs_call ReadFile (fun e =>
    match file e with
    | Some data => (Fulfilled data, e)
    | None => (Rejected (SystemError ENOENT), e)
    end).

(** [fs.open(tempPath, 'w')]: the temporary file exists and is empty. *)
Definition fs_open_temp : M unit :=
  fs_call OpenTemp (fun e => (Fulfilled tt, set_temp (Some "") e)).

(** [handle.writeFile(content, 'utf8')] *)
Definition handle_writeFile (content : string) : M unit :=
  fs_call (HandleWrite content) (fun e => (Fulfilled tt, set_temp (Some content) e)).

(** [handle.sync()] *)
Definition handle_sync : M unit := fs_call HandleSync (fun e => (Fulfilled tt, e)).

(** [handle.close()] *)
Definition handle_close : M unit := fs_call HandleClose (fun e => (Fulfilled tt, e)).

(** [fs.rename(tempPath, this.filePath)] *)
Definition fs_rename : M unit :=
  fs_call Rename (fun e =>
    match temp e with
    | Some content => (Fulfilled tt, set_temp None (set_file (Some content) e))
    | None => (Rejected (SystemError ENOENT), e)
    end).

(** [fs.unlink(this.filePath)] *)
Definition fs_unlink : M unit :=
  fs_call Unlink (fun e =>
    match file e with
    | Some _ => (Fulfilled tt, set_file None e)
    | None => (Rejected (SystemError ENOENT), e)
    end).

(** [fs.unlink(tempPath)] *)
Definition fs_unlink_temp : M unit :=
  fs_call UnlinkTemp (fun e =>
    match temp e with
    | Some _ => (Fulfilled tt, set_temp None e)
    | None => (Rejected (SystemError ENOENT), e)
    end).

(** [generateSalt()] *)
Definition generate_salt : M string :=
  e ← get_env;
  modify_env (set_salts_drawn (S (salts_drawn e)));;
  mret (generateSalt P (salts_drawn e)).

(** [JSON.parse(data || '{}')] *)
Definition parse_text (data : string) : M value :=
  match JSON_parse P (text_of data) with
  | Some v => mret v
  | None => throw SyntaxError
  end.

(** [{ salt: salt, tokens: tokens }] *)
Definition fileData (salt tokens : value) : value :=
  VObj [("salt", salt); ("tokens", tokens)].

(** ** The methods *)

Definition _ensureFileExists : M unit :=
  try_catch fs_mkdir (fun _ => mret tt);;
  try_catch fs_access (fun _ =>
    salt ← generate_salt;
    fs_writeFile (JSON_stringify P (fileData (VStr salt) (VArr [])));;
    log_info "✓ 已创建账号配置文件（含安全盐值）").

(** The [catch] block of [_atomicWrite]; [handle] tells whether [fs.open]
    had returned. *)
Definition atomicWrite_cleanup (handle : bool) (err : error) : M unit :=
  (if handle then try_catch handle_close (fun _ => mret tt) else mret tt);;
  try_catch fs_unlink_temp (fun _ => mret tt);;
  throw err.

Definition rename_onto_target : M unit :=
  try_catch fs_rename (fun renameError =>
    if has_code renameError EEXIST || has_code renameError EPERM then
      try_catch fs_unlink (fun unlinkError =>
        if negb (has_code unlinkError ENOENT) then throw unlinkError
        else mret tt);;
      fs_rename
    else throw renameError).

Definition _atomicWrite (content : string) : M unit :=
  opened ← settle fs_open_temp;
  match opened with
  | Rejected err => atomicWrite_cleanup false err
  | Fulfilled _ =>
      try_catch
        (handle_writeFile content;;
         handle_sync;;
         handle_close;;
         rename_onto_target)
        (atomicWrite_cleanup true)
  end.

Definition truthy_opt (v : option value) : bool :=
  match v with Some x => truthy x | None => false end.

Definition getSalt : M value :=
  s ← get_store;
  if truthy (_salt s) then mret (_salt s)
  else
    _ensureFileExists;;
    try_catch
      (data ← fs_readFile;
       parsed ← parse_text data;
       match parsed with
       | VArr _ =>
           (* the old format: an array, moved into the new one *)
           salt ← generate_salt;
           let newData := fileData (VStr salt) parsed in
           fs_writeFile (JSON_stringify P newData);;
           log_info "✓ 已迁移账号配置文件到新格式（添加安全盐值）";;
           modify_store (set_salt (VStr salt));;
           mret (VStr salt)
       | _ =>
           found ← of_outcome (get_prop parsed "salt");
           parsed ← (if negb (truthy_opt found) then
                       salt ← generate_salt;
                       parsed ← of_outcome (set_prop parsed "salt" (VStr salt));
                       tokens ← of_outcome (get_prop parsed "tokens");
                       parsed ← of_outcome
                         (set_prop parsed "tokens"
                            (if truthy_opt tokens then default VNull tokens
                             else VArr []));
                       fs_writeFile (JSON_stringify P parsed);;
                       log_info "✓ 已为账号配置文件添加安全盐值";;
                       mret parsed
                     else mret parsed);
           salt ← of_outcome (get_prop parsed "salt");
           modify_store (set_salt (default VNull salt));;
           mret (default VNull salt)
       end)
      (fun error =>
         log_error "读取盐值失败:" (message error);;
         (* a salt for this process only *)
         salt ← generate_salt;
         modify_store (set_salt (VStr salt));;
         mret (VStr salt)).

Definition _isCacheValid : M bool :=
  s ← get_store;
  match _cache s with
  | None => mret false
  | Some _ =>
      now ← Date_now;
      mret (now - _cacheTime s <? FILE_CACHE_TTL P)
  end.

(** [return this._cache], where the cache holds an array. *)
Definition return_cache : M (list value) :=
  s ← get_store; mret (default [] (_cache s)).

(** The end of both failure paths of [readAll]: the stale cache with a new
    timestamp if there is one, an empty array otherwise. *)
Definition stale_or_empty : M (list value) :=
  s ← get_store;
  match _cache s with
  | Some _ =>
      now ← Date_now;
      modify_store (set_cacheTime now);;
      return_cache
  | None => mret []
  end.

(** The [try] statement of [readAll] gives [Some] result where the source
    returns from inside it, and [None] where control leaves it. *)
Definition readAll : M (list value) :=
  valid ← _isCacheValid;
  if valid : bool then return_cache
  else
    _ensureFileExists;;
    returned ← try_catch
      (data ← fs_readFile;
       parsed ← parse_text data;
       match parsed with
       | VArr l =>
           modify_store (set_cache (Some l));;
           modify_store (set_lastReadOk true);;
           mret None
       | _ =>
           tokens ← of_outcome (get_prop parsed "tokens");
           match tokens with
           | Some (VArr l) =>
               modify_store (set_cache (Some l));;
               modify_store (set_lastReadOk true);;
               mret None
           | _ =>
               log_warn "账号配置文件格式异常，保留缓存并跳过本次读取";;
               modify_store (set_lastReadOk false);;
               result ← stale_or_empty;
               mret (Some result)
           end
       end)
      (fun error =>
         log_error "读取账号配置文件失败:" (message error);;
         modify_store (set_lastReadOk false);;
         result ← stale_or_empty;
         mret (Some result));
    match returned with
    | Some result => mret result
    | None =>
        now ← Date_now;
        modify_store (set_cacheTime now);;
        return_cache
    end.

(** [promise.then(f)] and [promise.catch(h)] on a promise that has settled:
    every operation of the queue runs when the one before it has. *)
Definition then_ {A B} (p : outcome A) (f : A -> M B) : M B :=
  match p with
  | Fulfilled a => f a
  | Rejected err => throw err
  end.

Definition catch_ {A} (m : M A) (h : error -> M A) : M A := try_catch m h.

(** [Array.isArray(tokens) ? tokens : []] *)
Definition normalize (tokens : value) : list value :=
  match tokens with VArr l => l | _ => [] end.

Definition writeOperation (normalized : list value) : M unit :=
  _ensureFileExists;;
  salt ← getSalt;
  try_catch
    (_atomicWrite (JSON_stringify P (fileData salt (VArr normalized)));;
     modify_store (set_cache (Some normalized));;
     now ← Date_now;
     modify_store (set_cacheTime now);;
     modify_store (set_lastReadOk true))
    (fun error =>
       log_error "保存账号配置文件失败:" (message error);;
       throw error).

(** The outcome is that of the promise [writeAll] returns, which is the new
    [_writeQueue]. *)
Definition writeAll (tokens : value) : M unit :=
  let normalized := normalize tokens in
  s ← get_store;
  queue ← settle
    (catch_ (then_ (_writeQueue s) (fun _ => writeOperation normalized))
       (fun error => log_error "写入队列操作失败:" (message error)));
  modify_store (set_writeQueue queue);;
  of_outcome queue.

(** [Array.prototype.findIndex] with a callback that may throw. *)
Fixpoint findIndex (p : value -> outcome bool) (l : list value)
  : outcome (option nat) :=
  match l with
  | [] => Fulfilled None
  | t :: l' =>
      match p t with
      | Rejected err => Rejected err
      | Fulfilled true => Fulfilled (Some 0%nat)
      | Fulfilled false =>
          match findIndex p l' with
          | Fulfilled (Some i) => Fulfilled (Some (S i))
          | r => r
          end
      end
  end.

(** [t => t.refresh_token === targetToken.refresh_token] *)
Definition same_refresh_token (targetToken t : value) : outcome bool :=
  match get_prop t "refresh_token" with
  | Rejected err => Rejected err
  | Fulfilled mine =>
      match get_prop targetToken "refresh_token" with
      | Rejected err => Rejected err
      | Fulfilled theirs => Fulfilled (strict_eq_opt mine theirs)
      end
  end.

(** [const { sessionId, ...plain } = targetToken] *)
Definition plain_of (targetToken : value) : object :=
  omit "sessionId" (own_props targetToken).

(** [applyUpdate] of [mergeActiveTokens], on the array it closes over. *)
Definition applyUpdate (allTokens : list value) (targetToken : value)
  : outcome (list value) :=
  if negb (truthy targetToken) then Fulfilled allTokens
  else
    match findIndex (same_refresh_token targetToken) allTokens with
    | Rejected err => Rejected err
    | Fulfilled None => Fulfilled allTokens
    | Fulfilled (Some index) =>
        Fulfilled
          (<[index := VObj (spread (own_props (default VNull (allTokens !! index)))
                              (plain_of targetToken))]> allTokens)
    end.

(** [for (const memToken of activeTokens) applyUpdate(memToken)] *)
Fixpoint applyUpdates (allTokens : list value) (activeTokens : list value)
  : outcome (list value) :=
  match activeTokens with
  | [] => Fulfilled allTokens
  | memToken :: rest =>
      match applyUpdate allTokens memToken with
      | Rejected err => Rejected err
      | Fulfilled allTokens' => applyUpdates allTokens' rest
      end
  end.

(** [({ sessionId, ...plain }) => ({ ...plain })]: the pattern throws on
    [null]. *)
Definition strip_session (t : value) : outcome value :=
  match t with
  | VNull => Rejected TypeError
  | _ => Fulfilled (VObj (plain_of t))
  end.

Fixpoint map_strip (l : list value) : outcome (list value) :=
  match l with
  | [] => Fulfilled []
  | t :: l' =>
      match strip_session t with
      | Rejected err => Rejected err
      | Fulfilled t' =>
          match map_strip l' with
          | Rejected err => Rejected err
          | Fulfilled r => Fulfilled (t' :: r)
          end
      end
  end.

Definition is_empty (l : list value) : bool :=
  match l with [] => true | _ => false end.

(** What [mergeOperation] does with the array it has read; [None] is its
    [return null]. *)
Definition merge (lastReadOk : bool) (allTokens : list value)
    (activeTokens tokenToUpdate : value) : outcome (option (list value)) :=
  let hasActiveTokens := negb (is_empty (normalize activeTokens)) in
  if negb lastReadOk && is_empty allTokens then Fulfilled None
  else if is_empty allTokens && hasActiveTokens then
    match map_strip (normalize activeTokens) with
    | Rejected err => Rejected err
    | Fulfilled r => Fulfilled (Some r)
    end
  else if truthy tokenToUpdate then
    match applyUpdate allTokens tokenToUpdate with
    | Rejected err => Rejected err
    | Fulfilled r => Fulfilled (Some r)
    end
  else if hasActiveTokens then
    match applyUpdates allTokens (normalize activeTokens) with
    | Rejected err => Rejected err
    | Fulfilled r => Fulfilled (Some r)
    end
  else Fulfilled (Some allTokens).

Definition mergeOperation (activeTokens tokenToUpdate : value)
  : M (option (list value)) :=
  allTokens ← readAll;
  s ← get_store;
  (if negb (_lastReadOk s) && is_empty allTokens
   then log_warn "账号配置文件读取失败，跳过写入以避免覆盖"
   else mret tt);;
  of_outcome (merge (_lastReadOk s) allTokens activeTokens tokenToUpdate).

(** The function [mergeActiveTokens] chains on the queue. *)
Definition mergeAndWrite (activeTokens tokenToUpdate : value) : M unit :=
  mergedTokens ← mergeOperation activeTokens tokenToUpdate;
  match mergedTokens with
  | None => mret tt
  | Some mergedTokens =>
      _ensureFileExists;;
      salt ← getSalt;
      try_catch
        (_atomicWrite (JSON_stringify P (fileData salt (VArr mergedTokens)));;
         modify_store (set_cache (Some mergedTokens));;
         now ← Date_now;
         modify_store (set_cacheTime now);;
         modify_store (set_lastReadOk true))
        (fun error =>
           (* not rethrown *)
           log_error "保存账号配置文件失败:" (message error))
  end.

Definition mergeActiveTokens (activeTokens tokenToUpdate : value) : M unit :=
  s ← get_store;
  queue ← settle
    (catch_
       (then_ (_writeQueue s) (fun _ => mergeAndWrite activeTokens tokenToUpdate))
       (fun error => log_error "合并写入队列操作失败:" (message error)));
  modify_store (set_writeQueue queue);;
  of_outcome queue.

End Model.

(** ** The model groups (src/utils/modelGroups.js) *)


(** [s.includes(needle)] *)
Fixpoint includes (s needle : string) : bool :=
  String.prefix needle s ||
  match s with
  | EmptyString => false
  | String _ s' => includes s' needle
  end.

Section Groups.
(** [String.prototype.toLowerCase] is the platform's. *)
Variable toLowerCase : string -> string.

(** The argument is [None] when it is [undefined].  A truthy value that is
    no string has no [toLowerCase] to call. *)
Definition getGroupKey (modelId : option value) : outcome string :=
  if negb (truthy_opt modelId) then Fulfilled "other"
  else
    match modelId with
    | Some (VStr s) =>
        let lower := toLowerCase s in
        if includes lower "claude" then Fulfilled "claude"
        else if includes lower "gemini-3-pro-image" then Fulfilled "banana"
        else if includes lower "gemini" || includes lower "publishers/google/"
        then Fulfilled "gemini"
        else Fulfilled "other"
    | _ => Rejected TypeError
    end.

End Groups.

(** ** The Vercel adapter, which follows the model groups in their file *)

Module EdgeConfig.

(** [process.env]: the variables that are set. *)
Definition environment : Type := string -> option string.

(** [process.env.NAME || fallback] *)
Definition env_or (env : environment) (name : string) (fallback : value) : value :=
  match env name with
  | Some s => if String.eqb s "" then fallback else VStr s
  | None => fallback
  end.

(** [Boolean(process.env.VERCEL)], taken when the module is loaded. *)
Definition isVercel (env : environment) : bool :=
  truthy (env_or env "VERCEL" VNull).

Definition getVercelEnvConfig (isVercel : bool) (env : environment) : value :=
  if negb isVercel then VNull
  else
    VObj [("API_KEY", env_or env "API_KEY" VNull);
          ("ADMIN_USERNAME", env_or env "ADMIN_USERNAME" VNull);
          ("ADMIN_PASSWORD", env_or env "ADMIN_PASSWORD" VNull);
          ("JWT_SECRET", env_or env "JWT_SECRET" VNull);
          ("PROXY", env_or env "PROXY" VNull);
          ("SYSTEM_INSTRUCTION", env_or env "SYSTEM_INSTRUCTION" (VStr ""));
          ("IMAGE_BASE_URL", env_or env "IMAGE_BASE_URL" VNull)].

(** What [new URL(text)] gives, as far as the adapter reads it;
    [url_token] is [searchParams.get('token')]. *)
Record URL := {
  url_protocol : string;
  url_host : string;
  url_pathname : string;
  url_token : option string
}.

(** A response of [fetch]; reading its body may throw. *)
Record Response := {
  response_ok : bool;
  response_status : Z;
  response_text : string + string;
  response_json : string + value
}.

(** The connection, as [parseEdgeConfigUrl] returns it. *)
Record Config := {
  configId : string;
  token : option string;
  baseUrl : string
}.

(** What the adapter does to the world: requests and console lines. *)
Inductive adapter_event :=
| Fetched (url : string)
| ConsoleInfo (text : string)
| ConsoleError (text detail : string).

(** [s.replace('/', '')]: without its first slash. *)
Fixpoint without_first_slash (s : string) : string :=
  match s with
  | EmptyString => EmptyString
  | String c s' => if Ascii.eqb c "/" then s' else String c (without_first_slash s')
  end.

(** [`${token}`] *)
Definition token_text (token : option string) : string := default "null" token.

Definition double_quote : string := String (ascii_of_nat 34) EmptyString.

Section Adapter.
(** [process.env.EDGE_CONFIG], taken when the module is loaded. *)
Variable EDGE_CONFIG : option string.
(** [new URL(text)], with the message of the error it throws. *)
Variable new_URL : string -> string + URL.
(** [fetch(url, { method: 'GET', ... })], likewise. *)
Variable fetch : string -> string + Response.

Definition parseEdgeConfigUrl : option Config * list adapter_event :=
  match EDGE_CONFIG with
  | None => (None, [])
  | Some text =>
      if String.eqb text "" then (None, [])
      else
        match new_URL text with
        | inr url =>
            (Some {| configId := without_first_slash (url_pathname url);
                     token := url_token url;
                     baseUrl := url_protocol url ++ "//" ++ url_host url |}, [])
        | inl reason =>
            (None, [ConsoleError "Edge Config URL 解析失败:" reason])
        end
  end.

(** The [catch] block of [getEdgeConfig]. *)
Definition read_error (key reason : string) : value * list adapter_event :=
  (VNull, [ConsoleError ("Edge Config 读取错误 [" ++ key ++ "]:") reason]).

Definition getEdgeConfig (key : string) : value * list adapter_event :=
  match parseEdgeConfigUrl with
  | (None, said) => (VNull, said)
  | (Some config, said) =>
      let url := baseUrl config ++ "/" ++ configId config ++ "/item/" ++ key
                 ++ "?token=" ++ token_text (token config) in
      let '(result, events) :=
        match fetch url with
        | inl reason => read_error key reason
        | inr response =>
            if negb (response_ok response) then
              if response_status response =? 404 then
                (VNull,
                 [ConsoleInfo ("Edge Config key " ++ double_quote ++ key
                               ++ double_quote ++ " 不存在")])
              else
                match response_text response with
                | inl reason => read_error key reason
                | inr text =>
                    read_error key
                      ("Edge Config 读取失败: " ++ pretty (response_status response)
                       ++ " - " ++ text)
                end
            else
              match response_json response with
              | inl reason => read_error key reason
              | inr data => (data, [])
              end
        end in
      (result, (said ++ Fetched url :: events)%list)
  end.

End Adapter.

End EdgeConfig.

(** ** The serverless entry (api/index.js, with the url rewrite) *)

Definition API_PREFIX : string := "/api/index".

(** [s.slice(start)] *)
Fixpoint slice (start : nat) (s : string) : string :=
  match start, s with
  | O, _ => s
  | S n, String _ s' => slice n s'
  | S _, EmptyString => EmptyString
  end.

(** [a || b] on strings *)
Definition or_else (a b : string) : string :=
  if String.eqb a "" then b else a.

Section Entry.
Context {details response result : Type}.

(** A request: its [url], [None] when it has none, and the rest of it. *)
Record request := { url : option string; details_of : details }.

Definition normalizeUrl (req : request) : string :=
  let url := or_else (default "" (url req)) "/" in
  if String.eqb url API_PREFIX || String.eqb url (API_PREFIX ++ "/") then "/"
  else if String.prefix (API_PREFIX ++ "/") url then
    or_else (slice (String.length API_PREFIX) url) "/"
  else url.

(** The Express application of src/server/index.js. *)
Variable app : request -> response -> result.

Definition handler (req : request) (res : response) : result :=
  app {| url := Some (normalizeUrl req); details_of := details_of req |} res.

End Entry.

(** ** A small JSON codec

    A compact writer and a reader for the values above, to run the store on
    examples.  The theorems hold for every codec; none depends on this one. *)

Module MiniJson.

Definition dquote : ascii := ascii_of_nat 34.
Definition backslash : ascii := ascii_of_nat 92.

Fixpoint escape (s : string) : string :=
  match s with
  | EmptyString => EmptyString
  | String c s' =>
      if Ascii.eqb c dquote || Ascii.eqb c backslash
      then String backslash (String c (escape s'))
      else String c (escape s')
  end.

Definition quote (s : string) : string :=
  String dquote (escape s ++ String dquote EmptyString).

Fixpoint stringify (v : value) : string :=
  match v with
  | VNull => "null"
  | VBool true => "true"
  | VBool false => "false"
  | VNum n => pretty n
  | VStr s => quote s
  | VArr l =>
      "[" ++
      (fix elements (l : list value) : string :=
         match l with
         | [] => ""
         | [x] => stringify x
         | x :: l' => stringify x ++ "," ++ elements l'
         end) l ++ "]"
  | VObj o =>
      "{" ++
      (fix members (o : object) : string :=
         match o with
         | [] => ""
         | [(k, x)] => quote k ++ ":" ++ stringify x
         | (k, x) :: o' => quote k ++ ":" ++ stringify x ++ "," ++ members o'
         end) o ++ "}"
  end.

Definition is_space (c : ascii) : bool :=
  let n := nat_of_ascii c in
  (n =? 32)%nat || (n =? 10)%nat || (n =? 13)%nat || (n =? 9)%nat.

Fixpoint skip_space (s : string) : string :=
  match s with
  | String c s' => if is_space c then skip_space s' else s
  | EmptyString => s
  end.

(** The rest of a string literal, after its opening quote. *)
Fixpoint read_string (s : string) : option (string * string) :=
  match s with
  | EmptyString => None
  | String c s' =>
      if Ascii.eqb c dquote then Some (EmptyString, s')
      else if Ascii.eqb c backslash then
        match s' with
        | String d s'' =>
            match read_string s'' with
            | Some (r, rest) => Some (String d r, rest)
            | None => None
            end
        | EmptyString => None
        end
      else
        match read_string s' with
        | Some (r, rest) => Some (String c r, rest)
        | None => None
        end
  end.

Definition digit_of (c : ascii) : option Z :=
  let n := nat_of_ascii c in
  if (48 <=? n)%nat && (n <=? 57)%nat then Some (Z.of_nat (n - 48)) else None.

Fixpoint read_digits (acc : Z) (s : string) : Z * string :=
  match s with
  | String c s' =>
      match digit_of c with
      | Some d => read_digits (10 * acc + d) s'
      | None => (acc, s)
      end
  | EmptyString => (acc, s)
  end.

Definition read_number (s : string) : option (Z * string) :=
  match s with
  | String c s' =>
      if Ascii.eqb c "-" then
        match s' with
        | String d _ =>
            match digit_of d with
            | Some _ => let '(n, rest) := read_digits 0 s' in Some (- n, rest)
            | None => None
            end
        | EmptyString => None
        end
      else
        match digit_of c with
        | Some _ => Some (read_digits 0 s)
        | None => None
        end
  | EmptyString => None
  end.

Definition expect (word : string) (v : value) (s : string)
  : option (value * string) :=
  if String.prefix word s
  then Some (v, String.substring (String.length word)
                  (String.length s - String.length word) s)
  else None.

Fixpoint read_value (fuel : nat) (s : string) : option (value * string) :=
  match fuel with
  | O => None
  | S fuel =>
      match skip_space s with
      | EmptyString => None
      | String c rest =>
          if Ascii.eqb c "n" then expect "ull" VNull rest
          else if Ascii.eqb c "t" then expect "rue" (VBool true) rest
          else if Ascii.eqb c "f" then expect "alse" (VBool false) rest
          else if Ascii.eqb c dquote then
            match read_string rest with
            | Some (r, rest') => Some (VStr r, rest')
            | None => None
            end
          else if Ascii.eqb c "[" then
            match skip_space rest with
            | String "]" rest' => Some (VArr [], rest')
            | _ =>
                match read_elements fuel rest with
                | Some (l, rest') => Some (VArr l, rest')
                | None => None
                end
            end
          else if Ascii.eqb c "{" then
            match skip_space rest with
            | String "}" rest' => Some (VObj [], rest')
            | _ =>
                match read_members fuel rest with
                | Some (o, rest') => Some (VObj o, rest')
                | None => None
                end
            end
          else
            match read_number (String c rest) with
            | Some (n, rest') => Some (VNum n, rest')
            | None => None
            end
      end
  end
with read_elements (fuel : nat) (s : string) : option (list value * string) :=
  match fuel with
  | O => None
  | S fuel =>
      match read_value fuel s with
      | Some (x, rest) =>
          match skip_space rest with
          | String "," rest' =>
              match read_elements fuel rest' with
              | Some (l, rest'') => Some (x :: l, rest'')
              | None => None
              end
          | String "]" rest' => Some ([x], rest')
          | _ => None
          end
      | None => None
      end
  end
with read_members (fuel : nat) (s : string) : option (object * string) :=
  match fuel with
  | O => None
  | S fuel =>
      match skip_space s with
      | String c rest =>
          if Ascii.eqb c dquote then
            match read_string rest with
            | Some (k, rest1) =>
                match skip_space rest1 with
                | String ":" rest2 =>
                    match read_value fuel rest2 with
                    | Some (x, rest3) =>
                        match skip_space rest3 with
                        | String "," rest4 =>
                            match read_members fuel rest4 with
                            | Some (o, rest5) => Some ((k, x) :: o, rest5)
                            | None => None
                            end
                        | String "}" rest4 => Some ([(k, x)], rest4)
                        | _ => None
                        end
                    | None => None
                    end
                | _ => None
                end
            | None => None
            end
          else None
      | EmptyString => None
      end
  end.

Definition parse (s : string) : option value :=
  match read_value (2 * String.length s + 2) s with
  | Some (v, rest) =>
      match skip_space rest with
      | EmptyString => Some v
      | _ => None
      end
  | None => None
  end.

End MiniJson.

(** ** Platforms and states to run the store on *)

Definition no_fault : list fs_event -> fs_op -> option errcode :=
  fun _ _ => None.

(** Every rename fails with [code]. *)
Definition rename_fails (code : errcode)
  : list fs_event -> fs_op -> option errcode :=
  fun _ op => match op with Rename => Some code | _ => None end.

Definition node (fault : list fs_event -> fs_op -> option errcode) : Platform :=
  {| JSON_stringify := MiniJson.stringify;
     JSON_parse := MiniJson.parse;
     generateSalt := fun n => "salt" ++ pretty n;
     FILE_CACHE_TTL := 5000;
     fs_fault := fault |}.

Definition env_with (f : option string) (t : Z) : Env :=
  {| file := f; temp := None; now := t; salts_drawn := 0;
     trace := []; log := [] |}.

(** ** The vocabulary of the properties *)

(** What a computation establishes from a state: [Q] holds of its outcome and
    of the state it leaves. *)
Definition wp {A} (m : M A) (s : Store) (e : Env)
    (Q : outcome A -> Store -> Env -> Prop) : Prop :=
  let '(r, s1, e1) := m s e in Q r s1 e1.

(** No file system call fails for a reason of the platform's. *)
Definition reliable (P : Platform) : Prop :=
  forall h op, fs_fault P h op = None.

(** [fs.access] fails only when the file is missing. *)
Definition access_never_fails (P : Platform) : Prop :=
  forall h, fs_fault P h Access = None.

(** The cache, its timestamp and the health flag of the last read. *)
Definition cache_state (s : Store) : option (list value) * Z * bool :=
  (_cache s, _cacheTime s, _lastReadOk s).

(** The cache is older than the freshness window. *)
Definition expired (P : Platform) (s : Store) (e : Env) : Prop :=
  FILE_CACHE_TTL P <= now e - _cacheTime s.

(** The file system calls made from [e] to [e1]. *)
Definition calls_between (e e1 : Env) (evs : list fs_event) : Prop :=
  trace e1 = (trace e ++ evs)%list.

Definition completed (op : fs_op) : fs_event := FsEvent op None.

Definition is_rename (ev : fs_event) : bool :=
  match ev_op ev with Rename => true | _ => false end.

Definition is_unlink (ev : fs_event) : bool :=
  match ev_op ev with Unlink => true | _ => false end.

Definition rename_done (ev : fs_event) : bool :=
  match ev with FsEvent Rename None => true | _ => false end.

Definition count (p : fs_event -> bool) (evs : list fs_event) : nat :=
  length (List.filter p evs).

(** The unlink left no target behind: it completed, or there was none. *)
Definition target_gone (res : option error) : bool :=
  match res with None => true | Some err => has_code err ENOENT end.

Definition outcome_of (res : option error) : outcome unit :=
  match res with None => Fulfilled tt | Some err => Rejected err end.

(** The document a missing file is created with. *)
Definition initial_document (P : Platform) (salt : string) : string :=
  JSON_stringify P (fileData (VStr salt) (VArr [])).

(** The two shapes [readAll] accepts: an array, or an object whose [tokens]
    is an array. *)
Definition well_shaped (v : value) : bool :=
  match v with
  | VArr _ => true
  | VObj o =>
      match lookup_prop "tokens" o with Some (VArr _) => true | _ => false end
  | _ => false
  end.

(** The file's text is no JSON, or JSON of neither shape. *)
Definition unreadable (P : Platform) (data : string) : Prop :=
  match JSON_parse P (text_of data) with
  | Some v => well_shaped v = false
  | None => True
  end.

(** The codec reads back the document it wrote. *)
Definition round_trips (P : Platform) (doc : value) : Prop :=
  JSON_parse P (text_of (JSON_stringify P doc)) = Some doc.

(** A line of [mergeActiveTokens] when it calls a merge off. *)
Definition skip_line : string := "账号配置文件读取失败，跳过写入以避免覆盖".

(** The store has written [tokens]: the file holds the document made of the
    store's salt and of them, and the cache holds them. *)
Definition persisted (P : Platform) (s : Store) (e : Env) (tokens : list value)
  : Prop :=
  file e = Some (JSON_stringify P (fileData (_salt s) (VArr tokens))) /\
  _cache s = Some tokens.

(** What a reader finds in the file: the sequence [readAll] would take. *)
Definition persisted_tokens (P : Platform) (e : Env) : option (list value) :=
  match file e with
  | Some data =>
      match JSON_parse P (text_of data) with
      | Some (VArr l) => Some l
      | Some (VObj o) =>
          match lookup_prop "tokens" o with
          | Some (VArr l) => Some l
          | _ => None
          end
      | _ => None
      end
  | None => None
  end.

(** *** Records and keys *)

(** The key of a record: its [refresh_token], [None] when it has none. *)
Definition key_of (t : value) : option value :=
  match get_prop t "refresh_token" with
  | Fulfilled k => k
  | Rejected _ => None
  end.

(** The record has the session field. *)
Definition carries_session (t : value) : bool :=
  has_prop "sessionId" (own_props t).

Definition not_null (t : value) : Prop := t <> VNull.

(** Where [applyUpdate] finds the record to update. *)
Definition first_match (allTokens : list value) (t : value) : option nat :=
  match findIndex (same_refresh_token t) allTokens with
  | Fulfilled r => r
  | Rejected _ => None
  end.

(** The record [applyUpdate] puts in the place of [d]:
    [{ ...d, ...plain }] with [plain] the fields of [t] but the session's. *)
Definition overlay (d t : value) : value :=
  VObj (spread (own_props d) (plain_of t)).

(** A property name that starts with a digit, as the index of an array. *)
Definition digit_head (k : string) : bool :=
  match k with
  | String c _ => (48 <=? nat_of_ascii c)%nat && (nat_of_ascii c <=? 57)%nat
  | EmptyString => false
  end.

(** [d'] stands where [d] stood: same key, same answers to a key search,
    and no session field unless [d] had one. *)
Definition akin (d d' : value) : Prop :=
  (d <> VNull -> d' <> VNull) /\
  key_of d' = key_of d /\
  (forall t, same_refresh_token t d' = same_refresh_token t d) /\
  (carries_session d = false -> carries_session d' = false).

(** No two records that [applyUpdate] would act on have the same key. *)
Fixpoint distinct_keys (l : list value) : Prop :=
  match l with
  | [] => True
  | t :: rest =>
      Forall (fun t' => truthy t = true -> truthy t' = true ->
                        strict_eq_opt (key_of t) (key_of t') = false) rest /\
      distinct_keys rest
  end.

(** The sequence a merge starts from: what it read, or the active records
    when it read nothing. *)
Definition merge_source (allTokens : list value) (activeTokens : value)
  : list value :=
  if is_empty allTokens then normalize activeTokens else allTokens.

(** *** The life of a store *)

Inductive call :=
| ReadAll
| GetSalt
| WriteAll (tokens : value)
| MergeActiveTokens (activeTokens tokenToUpdate : value).

Definition perform (P : Platform) (c : call) : M unit :=
  match c with
  | ReadAll => readAll P ≫= fun _ => mret tt
  | GetSalt => getSalt P ≫= fun _ => mret tt
  | WriteAll tokens => writeAll P tokens
  | MergeActiveTokens activeTokens tokenToUpdate =>
      mergeActiveTokens P activeTokens tokenToUpdate
  end.

(** The states of a store object: the constructor's, and those its methods
    leave, whatever the world does between two calls. *)
Inductive reachable (P : Platform) : Store -> Prop :=
| reach_new : reachable P new_store
| reach_call s e c r s1 e1 :
    reachable P s -> perform P c s e = (r, s1, e1) -> reachable P s1.

(** The two operations that go through the queue, with what each chains on
    it and the line its queue handler logs. *)
Inductive operation :=
| OpWriteAll (tokens : value)
| OpMerge (activeTokens tokenToUpdate : value).

Definition submit (P : Platform) (op : operation) : M unit :=
  match op with
  | OpWriteAll tokens => writeAll P tokens
  | OpMerge activeTokens tokenToUpdate =>
      mergeActiveTokens P activeTokens tokenToUpdate
  end.

Definition body (P : Platform) (op : operation) : M unit :=
  match op with
  | OpWriteAll tokens => writeOperation P (normalize tokens)
  | OpMerge activeTokens tokenToUpdate =>
      mergeAndWrite P activeTokens tokenToUpdate
  end.

Definition queue_line (op : operation) (err : error) : string :=
  match op with
  | OpWriteAll _ => "写入队列操作失败:"
  | OpMerge _ _ => "合并写入队列操作失败:"
  end ++ " " ++ message err.

(** *** Examples *)

Definition set_now (t : Z) (e : Env) : Env :=
  {| file := file e; temp := temp e; now := t; salts_drawn := salts_drawn e;
     trace := trace e; log := log e |}.

Definition token (key name : string) : value :=
  VObj [("refresh_token", VStr key); ("email", VStr name)].

Definition session_token (key : string) : value :=
  VObj [("refresh_token", VStr key); ("sessionId", VStr "s-1")].

(** A world whose file holds [tokens]. *)
Definition disk_with (tokens : list value) : Env :=
  env_with (Some (MiniJson.stringify (fileData (VStr "pepper") (VArr tokens)))) 0.

(** A store that has [c] in its cache since [t]. *)
Definition cached_store (c : list value) (t : Z) : Store :=
  set_cacheTime t (set_cache (Some c) new_store).

(** *** Bootstrap, the atomic writer and the salt *)

(** The line [_ensureFileExists] logs when it has created the file. *)
Definition created_line : string := "✓ 已创建账号配置文件（含安全盐值）".

Definition unlink_done (ev : fs_event) : bool :=
  match ev with FsEvent Unlink None => true | _ => false end.

Definition cleanup_done (ev : fs_event) : bool :=
  match ev with FsEvent UnlinkTemp None => true | _ => false end.

(** The write that creates the file failed with [err], as the last call
    from [e] to [e1]; the file is as it was. *)
Definition creation_failed (P : Platform) (e e1 : Env) (err : error) : Prop :=
  file e1 = file e /\
  last (trace e1) =
    Some (FsEvent (WriteFile (initial_document P (generateSalt P (salts_drawn e))))
            (Some err)).

(** [tokens || []] *)
Definition tokens_or_empty (tokens : option value) : value :=
  if truthy_opt tokens then default VNull tokens else VArr [].

(** The text parses to neither an array nor an object, or does not parse. *)
Definition no_document (P : Platform) (data : string) : Prop :=
  match JSON_parse P (text_of data) with
  | Some (VArr _) | Some (VObj _) => False
  | _ => True
  end.

(** The last file system call is a read of the file that failed. *)
Definition read_failed (e1 : Env) : Prop :=
  exists err, last (trace e1) = Some (FsEvent ReadFile (Some err)).

(** The line [getSalt] logs when it falls back to a salt of its own. *)
Definition salt_failure_line (err : error) : level * string :=
  (Error, "读取盐值失败:" ++ " " ++ message err).

(** A line [readAll] logs when it could take no sequence from the file. *)
Definition read_failure_line (l : level * string) : Prop :=
  l = (Warn, "账号配置文件格式异常，保留缓存并跳过本次读取") \/
  exists err, l = (Error, "读取账号配置文件失败:" ++ " " ++ message err).

(** The line [writeAll] and [mergeActiveTokens] log when the persistence
    step fails. *)
Definition save_failure_line (err : error) : level * string :=
  (Error, "保存账号配置文件失败:" ++ " " ++ message err).

(** *** Merging again *)

(** No two properties of the record have one name, as in every object. *)
Definition distinct_names (t : value) : Prop := NoDup (map fst (own_props t)).

(** The active records that [applyUpdate] applies at position [i], in their
    order. *)
Definition hits (allTokens : list value) (i : nat) (activeTokens : list value)
  : list value :=
  List.filter
    (fun t => truthy t && bool_decide (first_match allTokens t = Some i))
    activeTokens.

(** A property after the objects [bs] have been spread over it, one after
    the other. *)
Definition resolve (bs : list object) (kv : string * value) : string * value :=
  (kv.1, fold_left (fun v b => default v (lookup_prop kv.1 b)) bs kv.2).

(** Every name of [b] is a name of [x]. *)
Definition covered (x b : object) : Prop :=
  forall kv, In kv b -> has_prop kv.1 x = true.

(** *** The other modules *)

(** The variables [getVercelEnvConfig] reads. *)
Definition config_names : list string :=
  ["API_KEY"; "ADMIN_USERNAME"; "ADMIN_PASSWORD"; "JWT_SECRET"; "PROXY";
   "SYSTEM_INSTRUCTION"; "IMAGE_BASE_URL"].

Definition is_fetch (ev : EdgeConfig.adapter_event) : bool :=
  match ev with EdgeConfig.Fetched _ => true | _ => false end.

(** An [environment] given by the variables it sets. *)
Definition env_of (vars : list (string * string)) : EdgeConfig.environment :=
  fun name =>
    match List.find (fun kv => String.eqb kv.1 name) vars with
    | Some kv => Some kv.2
    | None => None
    end.

(** Lower case for the letters A to Z; every other character as it is. *)
Definition lower_ascii (c : ascii) : ascii :=
  let n := nat_of_ascii c in
  if (65 <=? n)%nat && (n <=? 90)%nat then ascii_of_nat (n + 32) else c.

Fixpoint lower (s : string) : string :=
  match s with
  | EmptyString => EmptyString
  | String c s' => String (lower_ascii c) (lower s')
  end.

(** *** More examples *)

(** A file in the old layout, with one record. *)
Definition legacy_disk : Env :=
  env_with (Some (MiniJson.stringify (VArr [token "k1" "a"]))) 7.

(** A file whose object has records and a note, and no salt. *)
Definition saltless_disk : Env :=
  env_with
    (Some (MiniJson.stringify
             (VObj [("tokens", VArr [token "k1" "a"]); ("note", VStr "kept")]))) 0.

(** A store that has loaded the salt [salt]. *)
Definition salted_store (salt : string) : Store := set_salt (VStr salt) new_store.

(** ** Rules for [wp] *)

Section Rules.
Context (P : Platform).

Lemma wp_eq {A} (m : M A) s e Q :
  wp m s e Q <-> forall r s1 e1, m s e = (r, s1, e1) -> Q r s1 e1.
Proof.
  unfold wp. destruct (m s e) as [[r s1] e1]. split.
  - intros H r' s' e' [= <- <- <-]. exact H.
  - intros H. now apply H.
Qed.

Lemma wp_mono {A} (m : M A) s e (Q Q' : outcome A -> Store -> Env -> Prop) :
  wp m s e Q -> (forall r s1 e1, Q r s1 e1 -> Q' r s1 e1) -> wp m s e Q'.
Proof. unfold wp. destruct (m s e) as [[r s1] e1]. auto. Qed.

Lemma wp_ret {A} (a : A) s e (Q : outcome A -> Store -> Env -> Prop) :
  Q (Fulfilled a) s e -> wp (mret a) s e Q.
Proof. intros H; exact H. Qed.

Lemma wp_throw {A} err s e (Q : outcome A -> Store -> Env -> Prop) :
  Q (Rejected err) s e -> wp (throw err) s e Q.
Proof. intros H; exact H. Qed.

Lemma wp_bind {A B} (m : M A) (k : A -> M B) s e Q :
  wp m s e (fun r s1 e1 =>
    match r with
    | Fulfilled a => wp (k a) s1 e1 Q
    | Rejected err => Q (Rejected err) s1 e1
    end) ->
  wp (m ≫= k) s e Q.
Proof.
  unfold wp, mbind, M_bind, bind.
  destruct (m s e) as [[[a|err] s1] e1]; auto.
Qed.

Lemma wp_try_catch {A} (m : M A) (h : error -> M A) s e Q :
  wp m s e (fun r s1 e1 =>
    match r with
    | Fulfilled a => Q (Fulfilled a) s1 e1
    | Rejected err => wp (h err) s1 e1 Q
    end) ->
  wp (try_catch m h) s e Q.
Proof.
  unfold wp, try_catch.
  destruct (m s e) as [[[a|err] s1] e1]; auto.
Qed.

Lemma wp_settle {A} (m : M A) s e Q :
  wp m s e (fun r s1 e1 => Q (Fulfilled r) s1 e1) -> wp (settle m) s e Q.
Proof. unfold wp, settle. destruct (m s e) as [[r s1] e1]; auto. Qed.

Lemma wp_of_outcome {A} (r : outcome A) s e
    (Q : outcome A -> Store -> Env -> Prop) :
  Q r s e -> wp (of_outcome r) s e Q.
Proof. intros H; exact H. Qed.

Lemma wp_get_store s e (Q : outcome Store -> Store -> Env -> Prop) :
  Q (Fulfilled s) s e -> wp get_store s e Q.
Proof. intros H; exact H. Qed.

Lemma wp_get_env s e (Q : outcome Env -> Store -> Env -> Prop) :
  Q (Fulfilled e) s e -> wp get_env s e Q.
Proof. intros H; exact H. Qed.

Lemma wp_modify_store f s e (Q : outcome unit -> Store -> Env -> Prop) :
  Q (Fulfilled tt) (f s) e -> wp (modify_store f) s e Q.
Proof. intros H; exact H. Qed.

Lemma wp_modify_env f s e (Q : outcome unit -> Store -> Env -> Prop) :
  Q (Fulfilled tt) s (f e) -> wp (modify_env f) s e Q.
Proof. intros H; exact H. Qed.

Lemma wp_Date_now s e (Q : outcome Z -> Store -> Env -> Prop) :
  Q (Fulfilled (now e)) s e -> wp Date_now s e Q.
Proof. intros H; exact H. Qed.

Lemma wp_generate_salt s e (Q : outcome string -> Store -> Env -> Prop) :
  Q (Fulfilled (generateSalt P (salts_drawn e))) s
    (set_salts_drawn (S (salts_drawn e)) e) ->
  wp (generate_salt P) s e Q.
Proof. intros H; exact H. Qed.

Lemma wp_log_info t s e (Q : outcome unit -> Store -> Env -> Prop) :
  Q (Fulfilled tt) s (add_log Info t e) -> wp (log_info t) s e Q.
Proof. intros H; exact H. Qed.

Lemma wp_log_warn t s e (Q : outcome unit -> Store -> Env -> Prop) :
  Q (Fulfilled tt) s (add_log Warn t e) -> wp (log_warn t) s e Q.
Proof. intros H; exact H. Qed.

Lemma wp_log_error t d s e (Q : outcome unit -> Store -> Env -> Prop) :
  Q (Fulfilled tt) s (add_log Error (t ++ " " ++ d) e) ->
  wp (log_error t d) s e Q.
Proof. intros H; exact H. Qed.

Lemma wp_parse_text data s e (Q : outcome value -> Store -> Env -> Prop) :
  match JSON_parse P (text_of data) with
  | Some v => Q (Fulfilled v) s e
  | None => Q (Rejected SyntaxError) s e
  end ->
  wp (parse_text P data) s e Q.
Proof.
  unfold wp, parse_text.
  destruct (JSON_parse P _); intros H; exact H.
Qed.

Lemma wp_fs_call {A} op (run : Env -> outcome A * Env) s e
    (Q : outcome A -> Store -> Env -> Prop) :
  (forall c, fs_fault P (trace e) op = Some c ->
     Q (Rejected (SystemError c)) s
       (add_event (FsEvent op (Some (SystemError c))) e)) ->
  (fs_fault P (trace e) op = None ->
     match run e with
     | (Fulfilled a, e1) => Q (Fulfilled a) s (add_event (completed op) e1)
     | (Rejected err, e1) =>
         Q (Rejected err) s (add_event (FsEvent op (Some err)) e1)
     end) ->
  wp (fs_call P op run) s e Q.
Proof.
  unfold wp, fs_call. intros Hf Hn.
  destruct (fs_fault P (trace e) op) as [c|].
  - now apply Hf.
  - specialize (Hn eq_refl). destruct (run e) as [[a|err] e1]; exact Hn.
Qed.

Lemma wp_fs_mkdir s e (Q : outcome unit -> Store -> Env -> Prop) :
  (forall c, fs_fault P (trace e) Mkdir = Some c ->
     Q (Rejected (SystemError c)) s
       (add_event (FsEvent Mkdir (Some (SystemError c))) e)) ->
  (fs_fault P (trace e) Mkdir = None ->
     Q (Fulfilled tt) s (add_event (completed Mkdir) e)) ->
  wp (fs_mkdir P) s e Q.
Proof. intros Hf Hn. apply wp_fs_call; [exact Hf | exact Hn]. Qed.

Lemma wp_fs_access s e (Q : outcome unit -> Store -> Env -> Prop) :
  (forall c, fs_fault P (trace e) Access = Some c ->
     Q (Rejected (SystemError c)) s
       (add_event (FsEvent Access (Some (SystemError c))) e)) ->
  (fs_fault P (trace e) Access = None -> file e = None ->
     Q (Rejected (SystemError ENOENT)) s
       (add_event (FsEvent Access (Some (SystemError ENOENT))) e)) ->
  (forall data, fs_fault P (trace e) Access = None -> file e = Some data ->
     Q (Fulfilled tt) s (add_event (completed Access) e)) ->
  wp (fs_access P) s e Q.
Proof.
  intros Hf Ha Hn. apply wp_fs_call; [exact Hf | intros E].
  destruct (file e) as [data|] eqn:Ef; eauto.
Qed.

Lemma wp_fs_writeFile content s e (Q : outcome unit -> Store -> Env -> Prop) :
  (forall c, fs_fault P (trace e) (WriteFile content) = Some c ->
     Q (Rejected (SystemError c)) s
       (add_event (FsEvent (WriteFile content) (Some (SystemError c))) e)) ->
  (fs_fault P (trace e) (WriteFile content) = None ->
     Q (Fulfilled tt) s
       (add_event (completed (WriteFile content)) (set_file (Some content) e))) ->
  wp (fs_writeFile P content) s e Q.
Proof. intros Hf Hn. apply wp_fs_call; [exact Hf | exact Hn]. Qed.

Lemma wp_fs_readFile s e (Q : outcome string -> Store -> Env -> Prop) :
  (forall c, fs_fault P (trace e) ReadFile = Some c ->
     Q (Rejected (SystemError c)) s
       (add_event (FsEvent ReadFile (Some (SystemError c))) e)) ->
  (fs_fault P (trace e) ReadFile = None -> file e = None ->
     Q (Rejected (SystemError ENOENT)) s
       (add_event (FsEvent ReadFile (Some (SystemError ENOENT))) e)) ->
  (forall data, fs_fault P (trace e) ReadFile = None -> file e = Some data ->
     Q (Fulfilled data) s (add_event (completed ReadFile) e)) ->
  wp (fs_readFile P) s e Q.
Proof.
  intros Hf Ha Hn. apply wp_fs_call; [exact Hf | intros E].
  destruct (file e) as [data|] eqn:Ef; eauto.
Qed.

End Rules.

(** One step of symbolic execution. *)
Ltac wp_step :=
  lazymatch goal with
  | |- wp (mbind _ _) _ _ _ => apply wp_bind
  | |- wp (try_catch _ _) _ _ _ => apply wp_try_catch
  | |- wp (catch_ _ _) _ _ _ => apply wp_try_catch
  | |- wp (settle _) _ _ _ => apply wp_settle
  | |- wp (mret _) _ _ _ => apply wp_ret
  | |- wp (throw _) _ _ _ => apply wp_throw
  | |- wp (of_outcome _) _ _ _ => apply wp_of_outcome
  | |- wp get_store _ _ _ => apply wp_get_store
  | |- wp get_env _ _ _ => apply wp_get_env
  | |- wp (modify_store _) _ _ _ => apply wp_modify_store
  | |- wp (modify_env _) _ _ _ => apply wp_modify_env
  | |- wp Date_now _ _ _ => apply wp_Date_now
  | |- wp (generate_salt _) _ _ _ => apply wp_generate_salt
  | |- wp (log_info _) _ _ _ => apply wp_log_info
  | |- wp (log_warn _) _ _ _ => apply wp_log_warn
  | |- wp (log_error _ _) _ _ _ => apply wp_log_error
  | |- wp (parse_text _ _) _ _ _ => apply wp_parse_text
  | |- wp (fs_mkdir _) _ _ _ => apply wp_fs_mkdir; [intros ? ? | intros ?]
  | |- wp (fs_access _) _ _ _ =>
      apply wp_fs_access; [intros ? ? | intros ? ? | intros ? ? ?]
  | |- wp (fs_writeFile _ _) _ _ _ =>
      apply wp_fs_writeFile; [intros ? ? | intros ?]
  | |- wp (fs_readFile _) _ _ _ =>
      apply wp_fs_readFile; [intros ? ? | intros ? ? | intros ? ? ?]
  | |- wp (if ?b then _ else _) _ _ _ => destruct b eqn:?
  | |- wp (match ?x with _ => _ end) _ _ _ => destruct x eqn:?
  | |- match ?x with _ => _ end => destruct x eqn:?
  end; cbn beta iota.

(** Case analysis on the next file system call of a fully unfolded run. *)
Ltac fs_case :=
  match goal with
  | |- context [fs_fault ?P ?t ?op] =>
      let E := fresh "E" in destruct (fs_fault P t op) eqn:E
  | |- context [errcode_eqb ?c _] => is_var c; destruct c
  | |- context [match file ?x with _ => _ end] =>
      let E := fresh "E" in destruct (file x) eqn:E
  | |- context [match temp ?x with _ => _ end] =>
      let E := fresh "E" in destruct (temp x) eqn:E
  end.

(** A failed call contradicts a reliable platform. *)
Ltac no_fault H :=
  repeat match goal with
  | E : fs_fault _ _ _ = Some _ |- _ => rewrite H in E; discriminate E
  end.

Ltac saturate :=
  repeat match goal with
  | a : unit |- _ => destruct a
  | H : Fulfilled ?a = Fulfilled ?b -> _ |- _ => specialize (H eq_refl)
  | H : forall v, Fulfilled ?a = Fulfilled v -> _ |- _ =>
      specialize (H a eq_refl)
  | H : ?A -> _, HA : ?A |- _ => specialize (H HA)
  | H : _ /\ _ |- _ => destruct H
  | H : exists _, _ |- _ => destruct H
  end.

Ltac finish :=
  intros; unfold cache_state in *; cbn in *; subst; saturate;
  try discriminate; try congruence;
  try (repeat split; eauto; congruence).

(** In the calls between two states, the occurrences of one call. *)
Ltac split_calls :=
  repeat match goal with
  | H : _ = (?pre ++ _ :: _)%list |- _ =>
      is_var pre; destruct pre as [|? pre]; simplify_eq/=
  end.

(** ** Bootstrap and the atomic writer *)

Section Files.
Context (P : Platform).

Lemma ensure_spec s e :
  wp (_ensureFileExists P) s e (fun r s1 e1 =>
    s1 = s /\ now e1 = now e /\
    (r = Fulfilled tt -> file e1 <> None) /\
    (reliable P -> r = Fulfilled tt) /\
    (access_never_fails P -> file e <> None ->
       r = Fulfilled tt /\ file e1 = file e /\
       salts_drawn e1 = salts_drawn e /\ log e1 = log e) /\
    (reliable P -> file e = None ->
       r = Fulfilled tt /\
       file e1 = Some (initial_document P (generateSalt P (salts_drawn e))) /\
       salts_drawn e1 = S (salts_drawn e))).
Proof.
  unfold _ensureFileExists.
  repeat wp_step.
  all: cbn in *.
  all: split; [reflexivity|]; split; [reflexivity|].
  all: split; [intros; congruence|].
  all: split; [intros Hr; no_fault Hr; reflexivity|].
  all: split;
    [intros Ha Hf; try (rewrite Ha in *; discriminate); try congruence;
     try (repeat split; congruence) | ].
  all: intros Hr Hf; try (rewrite Hr in *; discriminate); try congruence.
  all: repeat split; reflexivity.
Qed.

Lemma atomicWrite_spec content s e :
  wp (_atomicWrite P content) s e (fun r s1 e1 =>
    s1 = s /\ now e1 = now e /\ salts_drawn e1 = salts_drawn e /\
    log e1 = log e /\
    (r = Fulfilled tt -> file e1 = Some content) /\
    (reliable P -> r = Fulfilled tt)).
Proof.
  unfold wp, _atomicWrite, atomicWrite_cleanup, rename_onto_target,
    fs_open_temp, handle_writeFile, handle_sync, handle_close, fs_rename,
    fs_unlink, fs_unlink_temp,
    mbind, M_bind, mret, M_ret, bind, ret, settle, try_catch, throw, fs_call.
  cbn.
  repeat (fs_case; cbn).
  all: do 4 (split; [reflexivity|]).
  all: split; [intros [=]; reflexivity | intros Hr; no_fault Hr; try reflexivity].
Qed.

End Files.

Ltac wp_call0 :=
  lazymatch goal with
  | |- wp (_ensureFileExists _) _ _ _ =>
      eapply wp_mono;
      [apply ensure_spec | cbn beta; intros ? ? ? (-> & ? & ? & ? & ? & ?)]
  | |- wp (_atomicWrite _ _) _ _ _ =>
      eapply wp_mono;
      [apply atomicWrite_spec | cbn beta; intros ? ? ? (-> & ? & ? & ? & ? & ?)]
  | _ => wp_step
  end.

(** ** The salt and the read cache *)

Section Reads.
Context (P : Platform).

Lemma getSalt_spec s e :
  wp (getSalt P) s e (fun r s1 e1 =>
    cache_state s1 = cache_state s /\ _writeQueue s1 = _writeQueue s /\
    now e1 = now e /\
    (forall v, r = Fulfilled v -> _salt s1 = v) /\
    (reliable P -> exists v, r = Fulfilled v)).
Proof.
  unfold getSalt.
  repeat wp_call0.
  all: cbn in *.
  all: split; [reflexivity|]; split; [reflexivity|].
  all: split; [congruence|].
  all: split; [intros v' [=]; subst; try reflexivity|].
  all: finish.
Qed.

Lemma getSalt_cached s e :
  truthy (_salt s) = true -> getSalt P s e = (Fulfilled (_salt s), s, e).
Proof.
  intros H. unfold getSalt, mbind, M_bind, bind, get_store. now rewrite H.
Qed.

Lemma readAll_cached s e c :
  _cache s = Some c -> now e - _cacheTime s < FILE_CACHE_TTL P ->
  readAll P s e = (Fulfilled c, s, e).
Proof.
  intros Hc Ht.
  unfold readAll, _isCacheValid, return_cache, Date_now,
    mbind, M_bind, bind, get_store, get_env, mret, M_ret, ret.
  rewrite Hc. cbn.
  apply Z.ltb_lt in Ht. rewrite Ht. now rewrite Hc.
Qed.

Lemma readAll_spec s e :
  wp (readAll P) s e (fun r s1 e1 =>
    _salt s1 = _salt s /\ _writeQueue s1 = _writeQueue s /\ now e1 = now e /\
    (_lastReadOk s1 = false -> _cache s1 = _cache s) /\
    (access_never_fails P -> file e <> None ->
       (exists l, r = Fulfilled l) /\ file e1 = file e) /\
    (reliable P -> exists l, r = Fulfilled l)).
Proof.
  unfold readAll, _isCacheValid, return_cache, stale_or_empty.
  repeat wp_call0.
  all: cbn in *.
  all: split; [reflexivity|]; split; [reflexivity|].
  all: split; [cbn; congruence|].
  all: split; [cbn; try discriminate; try congruence|].
  all: split; finish.
Qed.

End Reads.

Ltac wp_call :=
  lazymatch goal with
  | |- wp (getSalt _) _ _ _ =>
      eapply wp_mono;
      [apply getSalt_spec | cbn beta; intros ? ? ? (? & ? & ? & ? & ?)]
  | |- wp (readAll _) _ _ _ =>
      eapply wp_mono;
      [apply readAll_spec | cbn beta; intros ? ? ? (? & ? & ? & ? & ? & ?)]
  | _ => wp_call0
  end.

(** ** Writes *)

Section Writes.
Context (P : Platform).

Lemma writeOperation_spec n s e :
  wp (writeOperation P n) s e (fun r s1 e1 =>
    _writeQueue s1 = _writeQueue s /\ now e1 = now e /\
    (forall err, r = Rejected err -> cache_state s1 = cache_state s) /\
    (r = Fulfilled tt ->
       cache_state s1 = (Some n, now e, true) /\
       file e1 = Some (JSON_stringify P (fileData (_salt s1) (VArr n)))) /\
    (reliable P -> r = Fulfilled tt)).
Proof.
  unfold writeOperation.
  repeat wp_call.
  all: cbn in *.
  all: split; [congruence|]; split; [congruence|].
  all: split; [intros err' [=]; congruence|].
  all: split; [intros [=]; finish | finish].
Qed.

End Writes.

(** ** The merge engine *)

Lemma lookup_prop_app k (x y : object) :
  lookup_prop k (x ++ y) =
  match lookup_prop k x with Some v => Some v | None => lookup_prop k y end.
Proof.
  induction x as [|[k' v] x IH]; cbn; [reflexivity|].
  destruct (String.eqb k k'); [reflexivity | exact IH].
Qed.

Lemma lookup_prop_overwritten k (a b : object) :
  lookup_prop k (map (fun kv => (kv.1, default kv.2 (lookup_prop kv.1 b))) a) =
  match lookup_prop k a with
  | Some v => Some (default v (lookup_prop k b))
  | None => None
  end.
Proof.
  induction a as [|[k' v] a IH]; cbn; [reflexivity|].
  destruct (String.eqb_spec k k') as [->|Hne]; [reflexivity | exact IH].
Qed.

Lemma lookup_prop_added k (a b : object) :
  lookup_prop k (List.filter (fun kv => negb (has_prop kv.1 a)) b) =
  if has_prop k a then None else lookup_prop k b.
Proof.
  induction b as [|[k' v] b IH]; cbn.
  - now destruct (has_prop k a).
  - destruct (has_prop k' a) eqn:Hk'; cbn.
    + destruct (String.eqb_spec k k') as [->|Hne]; [now rewrite IH, Hk' | exact IH].
    + destruct (String.eqb_spec k k') as [->|Hne]; [now rewrite Hk' | exact IH].
Qed.

(** A property of [{ ...a, ...b }] has the value [b] gives it, and the value
    of [a] when [b] has none. *)
Lemma lookup_spread k (a b : object) :
  lookup_prop k (spread a b) =
  match lookup_prop k b with Some v => Some v | None => lookup_prop k a end.
Proof.
  unfold spread. rewrite lookup_prop_app, lookup_prop_overwritten, lookup_prop_added.
  unfold has_prop.
  destruct (lookup_prop k a), (lookup_prop k b); reflexivity.
Qed.

Lemma lookup_omit k k' (o : object) :
  lookup_prop k (omit k' o) = if String.eqb k k' then None else lookup_prop k o.
Proof.
  unfold omit. induction o as [|[k0 v] o IH]; cbn.
  - now destruct (String.eqb k k').
  - destruct (String.eqb_spec k0 k') as [E|Hne]; cbn; rewrite ?IH;
      destruct (String.eqb_spec k k'), (String.eqb_spec k k0);
      subst; congruence.
Qed.

Lemma pretty_N_go_digit x s :
  (0 < x)%N \/ digit_head s = true -> digit_head (pretty_N_go x s) = true.
Proof.
  revert s. induction (N.lt_wf_0 x) as [x _ IH]; intros s Hs.
  destruct (N.eq_dec x 0%N) as [->|Hx].
  - rewrite pretty_N_go_0. destruct Hs as [Hs|Hs]; [lia | exact Hs].
  - rewrite pretty_N_go_step by lia. apply IH.
    + apply N.div_lt; lia.
    + right. unfold pretty_N_char. now repeat case_match.
Qed.

Lemma pretty_nat_digit (n : nat) : digit_head (pretty n) = true.
Proof.
  unfold pretty, pretty_nat, pretty, pretty_N.
  case_decide as Hn; [reflexivity|].
  apply pretty_N_go_digit. left. lia.
Qed.

Lemma lookup_index_props {A} k (f : A -> value) (g : nat -> string) l :
  digit_head k = false -> (forall i, digit_head (g i) = true) ->
  lookup_prop k (imap (fun i x => (g i, f x)) l) = None.
Proof.
  intros Hk. revert g. induction l as [|x l IH]; intros g Hg; cbn; [reflexivity|].
  destruct (String.eqb_spec k (g 0%nat)) as [->|Hne].
  - rewrite Hg in Hk. discriminate.
  - apply (IH (g ∘ S)). intros i. apply Hg.
Qed.

(** Reading a property whose name is no index: the own properties decide. *)
Lemma get_prop_own t k :
  t <> VNull -> digit_head k = false ->
  get_prop t k = Fulfilled (lookup_prop k (own_props t)).
Proof.
  intros Ht Hk. destruct t; cbn; try reflexivity; try congruence.
  - now rewrite (lookup_index_props k VStr pretty) by (exact Hk || apply pretty_nat_digit).
  - now rewrite (lookup_index_props k (fun x => x) pretty) by (exact Hk || apply pretty_nat_digit).
Qed.

Lemma strict_eq_eq x y : strict_eq x y = true -> x = y.
Proof.
  destruct x, y; cbn; try discriminate; intros H.
  - reflexivity.
  - now apply Bool.eqb_prop in H; subst.
  - now apply Z.eqb_eq in H; subst.
  - now apply String.eqb_eq in H; subst.
Qed.

Lemma strict_eq_opt_eq x y : strict_eq_opt x y = true -> x = y.
Proof.
  destruct x, y; cbn; try discriminate; intros H; [|reflexivity].
  now apply strict_eq_eq in H; subst.
Qed.

Lemma truthy_not_null t : truthy t = true -> t <> VNull.
Proof. intros H ->. discriminate. Qed.

Lemma matched_not_null t d :
  same_refresh_token t d = Fulfilled true -> d <> VNull.
Proof. intros H ->. discriminate. Qed.

Lemma key_of_own t :
  t <> VNull -> key_of t = lookup_prop "refresh_token" (own_props t).
Proof.
  intros Ht. unfold key_of. now rewrite get_prop_own.
Qed.

Lemma same_refresh_token_keys t d :
  t <> VNull -> d <> VNull ->
  same_refresh_token t d = Fulfilled (strict_eq_opt (key_of d) (key_of t)).
Proof.
  intros Ht Hd. unfold same_refresh_token, key_of.
  rewrite !get_prop_own by (assumption || reflexivity). reflexivity.
Qed.

Lemma key_of_overlay d t :
  t <> VNull -> d <> VNull ->
  same_refresh_token t d = Fulfilled true ->
  key_of (overlay d t) = key_of d.
Proof.
  intros Ht Hd Hm.
  rewrite same_refresh_token_keys in Hm by assumption.
  injection Hm as Hm. apply strict_eq_opt_eq in Hm.
  rewrite (key_of_own d) by assumption.
  rewrite (key_of_own d), (key_of_own t) in Hm by assumption.
  unfold key_of, overlay, plain_of; cbn.
  rewrite lookup_spread, lookup_omit; cbn.
  rewrite <- Hm. now destruct (lookup_prop _ (own_props d)).
Qed.

Lemma carries_session_overlay d t :
  carries_session (overlay d t) = carries_session d.
Proof.
  unfold carries_session, overlay, plain_of, has_prop; cbn.
  now rewrite lookup_spread, lookup_omit; cbn.
Qed.

Lemma findIndex_found p l i :
  findIndex p l = Fulfilled (Some i) ->
  exists t, l !! i = Some t /\ p t = Fulfilled true.
Proof.
  revert i. induction l as [|x l IH]; intros i; cbn; [discriminate|].
  destruct (p x) as [[|]|] eqn:Hp; try discriminate.
  - intros [= <-]. eauto.
  - destruct (findIndex p l) as [[j|]|]; try discriminate.
    intros [= <-]. apply (IH j eq_refl).
Qed.

Lemma findIndex_insert p l i d d' :
  l !! i = Some d -> p d' = p d ->
  findIndex p (<[i:=d']> l) = findIndex p l.
Proof.
  revert i. induction l as [|x l IH]; intros i Hi Hp; [reflexivity|].
  destruct i as [|i]; simpl in *.
  - injection Hi as ->. now rewrite Hp.
  - now rewrite (IH i Hi Hp).
Qed.

Lemma findIndex_total p l :
  Forall (fun t => exists b, p t = Fulfilled b) l ->
  exists r, findIndex p l = Fulfilled r.
Proof.
  induction 1 as [|x l [b Hb] _ [r IH]]; cbn; [eauto|].
  rewrite Hb, IH. destruct b; [eauto|]. destruct r; eauto.
Qed.

(** What one [applyUpdate] does. *)
Lemma applyUpdate_cases allTokens t :
  Forall (fun d => d <> VNull) allTokens ->
  (applyUpdate allTokens t = Fulfilled allTokens /\
   (truthy t = true -> first_match allTokens t = None)) \/
  (exists i d,
     truthy t = true /\ first_match allTokens t = Some i /\
     allTokens !! i = Some d /\ same_refresh_token t d = Fulfilled true /\
     applyUpdate allTokens t = Fulfilled (<[i := overlay d t]> allTokens)).
Proof.
  intros Hall. unfold applyUpdate, first_match.
  destruct (truthy t) eqn:Ht; cbn; [|left; split; [reflexivity | discriminate]].
  destruct (findIndex_total (same_refresh_token t) allTokens) as [r Hr].
  { eapply Forall_impl; [exact Hall|]. intros d Hd. cbn.
    rewrite same_refresh_token_keys by (auto using truthy_not_null). eauto. }
  rewrite Hr. destruct r as [i|]; [right | left; auto].
  destruct (findIndex_found _ _ _ Hr) as (d & Hd & Hm).
  exists i, d. rewrite Hd. cbn. auto.
Qed.

Lemma akin_refl d : akin d d.
Proof. repeat split; auto. Qed.

Lemma akin_trans d1 d2 d3 : akin d1 d2 -> akin d2 d3 -> akin d1 d3.
Proof.
  intros (N1 & K1 & M1 & S1) (N2 & K2 & M2 & S2). repeat split; auto.
  - congruence.
  - intros t. now rewrite M2, M1.
Qed.

Lemma akin_overlay d t :
  t <> VNull -> d <> VNull -> same_refresh_token t d = Fulfilled true ->
  akin d (overlay d t).
Proof.
  intros Ht Hd Hm. pose proof (key_of_overlay d t Ht Hd Hm) as Hk.
  repeat split.
  - discriminate.
  - exact Hk.
  - intros t'. unfold same_refresh_token.
    change (get_prop (overlay d t) "refresh_token")
      with (Fulfilled (A:=option value) (key_of (overlay d t))).
    rewrite Hk, (key_of_own d Hd), (get_prop_own d) by (assumption || reflexivity).
    reflexivity.
  - now rewrite carries_session_overlay.
Qed.

Lemma Forall2_akin_refl l : Forall2 akin l l.
Proof. induction l; constructor; auto using akin_refl. Qed.

Lemma Forall2_akin_insert l i d d' :
  l !! i = Some d -> akin d d' -> Forall2 akin l (<[i:=d']> l).
Proof.
  revert i. induction l as [|x l IH]; intros [|i] Hi Ha; cbn in *; try discriminate.
  - injection Hi as ->. constructor; [exact Ha | apply Forall2_akin_refl].
  - constructor; [apply akin_refl | now apply IH].
Qed.

Lemma Forall2_akin_trans l1 l2 l3 :
  Forall2 akin l1 l2 -> Forall2 akin l2 l3 -> Forall2 akin l1 l3.
Proof.
  intros H. revert l3. induction H as [|x y l l' Hxy _ IH]; intros l3 H3.
  - inversion H3; constructor.
  - inversion H3 as [|y' z l2' l3' Hyz Hrest]; subst.
    constructor; [eapply akin_trans; eauto | auto].
Qed.

Lemma akin_not_null l l' :
  Forall2 akin l l' -> Forall (fun d => d <> VNull) l ->
  Forall (fun d => d <> VNull) l'.
Proof.
  induction 1 as [|x y l l' (N & _) _ IH]; intros Hl; [constructor|].
  inversion Hl; subst. constructor; auto.
Qed.

Lemma akin_keys l l' : Forall2 akin l l' -> map key_of l' = map key_of l.
Proof.
  induction 1 as [|x y l l' (_ & K & _) _ IH]; cbn; [reflexivity|].
  now rewrite K, IH.
Qed.

Lemma akin_findIndex t l l' :
  Forall2 akin l l' ->
  findIndex (same_refresh_token t) l' = findIndex (same_refresh_token t) l.
Proof.
  induction 1 as [|x y l l' (_ & _ & Mt & _) _ IH]; cbn; [reflexivity|].
  now rewrite Mt, IH.
Qed.

Lemma akin_first_match t l l' :
  Forall2 akin l l' -> first_match l' t = first_match l t.
Proof. intros H. unfold first_match. now rewrite (akin_findIndex t l l' H). Qed.

Lemma akin_no_session l l' :
  Forall2 akin l l' -> Forall (fun d => carries_session d = false) l ->
  Forall (fun d => carries_session d = false) l'.
Proof.
  induction 1 as [|x y l l' (_ & _ & _ & S) _ IH]; intros Hl; [constructor|].
  inversion Hl; subst. constructor; auto.
Qed.

Lemma applyUpdate_akin allTokens t :
  Forall (fun d => d <> VNull) allTokens ->
  exists out, applyUpdate allTokens t = Fulfilled out /\ Forall2 akin allTokens out.
Proof.
  intros Hall.
  destruct (applyUpdate_cases allTokens t Hall)
    as [[-> _]|(i & d & Ht & _ & Hd & Hm & ->)].
  - eauto using Forall2_akin_refl.
  - eexists; split; [reflexivity|].
    apply (Forall2_akin_insert _ _ d); [exact Hd|].
    apply akin_overlay; eauto using truthy_not_null, matched_not_null.
Qed.

Lemma applyUpdates_akin activeTokens : forall allTokens,
  Forall (fun d => d <> VNull) allTokens ->
  exists out, applyUpdates allTokens activeTokens = Fulfilled out /\
              Forall2 akin allTokens out.
Proof.
  induction activeTokens as [|t rest IH]; intros allTokens Hall; cbn.
  - eauto using Forall2_akin_refl.
  - destruct (applyUpdate_akin allTokens t Hall) as (all1 & -> & H1).
    destruct (IH all1 (akin_not_null _ _ H1 Hall)) as (out & -> & H2).
    eauto using Forall2_akin_trans.
Qed.

Lemma both_match allTokens t t' i :
  Forall (fun d => d <> VNull) allTokens ->
  truthy t = true -> truthy t' = true ->
  first_match allTokens t = Some i -> first_match allTokens t' = Some i ->
  strict_eq_opt (key_of t) (key_of t') = true.
Proof.
  unfold first_match. intros Hall Ht Ht' Hi Hi'.
  destruct (findIndex (same_refresh_token t) allTokens) as [r|] eqn:E; [|discriminate].
  destruct (findIndex (same_refresh_token t') allTokens) as [r'|] eqn:E'; [|discriminate].
  subst r r'.
  destruct (findIndex_found _ _ _ E) as (d & Hd & Hm).
  destruct (findIndex_found _ _ _ E') as (d' & Hd' & Hm').
  assert (d' = d) as -> by congruence.
  pose proof (matched_not_null _ _ Hm) as Hn.
  rewrite same_refresh_token_keys in Hm, Hm' by auto using truthy_not_null.
  injection Hm as Hm. injection Hm' as Hm'.
  pose proof (strict_eq_opt_eq _ _ Hm) as <-.
  exact Hm'.
Qed.

(** With distinct keys, every position holds the disk record overlaid with
    the one active record that matches it first, or the disk record. *)
Lemma applyUpdates_lookup activeTokens : forall allTokens out,
  Forall (fun d => d <> VNull) allTokens ->
  distinct_keys activeTokens ->
  applyUpdates allTokens activeTokens = Fulfilled out ->
  forall i d, allTokens !! i = Some d ->
    (forall t, t ∈ activeTokens -> truthy t = true ->
       first_match allTokens t = Some i -> out !! i = Some (overlay d t)) /\
    ((forall t, t ∈ activeTokens -> truthy t = true ->
        first_match allTokens t <> Some i) -> out !! i = Some d).
Proof.
  induction activeTokens as [|t0 rest IH]; intros allTokens out Hall Hdist Hrun i d Hi.
  { cbn in Hrun. injection Hrun as <-. split; [|auto].
    intros t Ht. now apply elem_of_nil in Ht. }
  cbn in Hrun. destruct Hdist as [Hhead Hdist].
  destruct (applyUpdate_cases allTokens t0 Hall)
    as [[E Hnone]|(i0 & d0 & Ht0 & Hm0 & Hd0 & Hsame & E)];
    rewrite E in Hrun.
  - destruct (IH allTokens out Hall Hdist Hrun i d Hi) as [IH1 IH2]. split.
    + intros t [->|Hin]%elem_of_cons Ht Hf; [|now apply IH1].
      rewrite (Hnone Ht) in Hf. discriminate.
    + intros Hno. apply IH2. intros t Hin. apply Hno. now right.
  - set (all1 := <[i0:=overlay d0 t0]> allTokens) in *.
    assert (Forall2 akin allTokens all1) as Hakin.
    { apply (Forall2_akin_insert _ _ d0); [exact Hd0|].
      apply akin_overlay; eauto using truthy_not_null, matched_not_null. }
    pose proof (akin_not_null _ _ Hakin Hall) as Hall1.
    assert (forall t, t ∈ rest -> truthy t = true ->
              first_match allTokens t <> Some i0) as Hfree.
    { intros t Hin Ht Hf.
      pose proof (both_match allTokens t0 t i0 Hall Ht0 Ht Hm0 Hf) as Hb.
      rewrite Forall_forall in Hhead. rewrite (Hhead t Hin Ht0 Ht) in Hb.
      discriminate. }
    destruct (decide (i = i0)) as [->|Hne].
    + assert (d = d0) as -> by congruence.
      assert (all1 !! i0 = Some (overlay d0 t0)) as Hi1.
      { apply list_lookup_insert_eq. now apply lookup_lt_Some in Hd0. }
      destruct (IH all1 out Hall1 Hdist Hrun i0 _ Hi1) as [_ IH2].
      assert (out !! i0 = Some (overlay d0 t0)) as Hout.
      { apply IH2. intros t Hin Ht. rewrite (akin_first_match t _ _ Hakin).
        now apply Hfree. }
      split.
      * intros t [->|Hin]%elem_of_cons Ht Hf; [exact Hout|].
        now destruct (Hfree t Hin Ht).
      * intros Hno. destruct (Hno t0); auto. now left.
    + assert (all1 !! i = Some d) as Hi1.
      { unfold all1. now rewrite list_lookup_insert_ne. }
      destruct (IH all1 out Hall1 Hdist Hrun i d Hi1) as [IH1 IH2]. split.
      * intros t [->|Hin]%elem_of_cons Ht Hf; [congruence|].
        apply IH1; auto. now rewrite (akin_first_match t _ _ Hakin).
      * intros Hno. apply IH2. intros t Hin Ht.
        rewrite (akin_first_match t _ _ Hakin). apply Hno; auto. now right.
Qed.

Lemma map_strip_spec l :
  Forall not_null l ->
  map_strip l = Fulfilled (map (fun t => VObj (plain_of t)) l).
Proof.
  induction 1 as [|t l Ht _ IH]; cbn; [reflexivity|].
  rewrite IH. destruct t; cbn; try reflexivity. now destruct Ht.
Qed.

Lemma key_of_plain t : not_null t -> key_of (VObj (plain_of t)) = key_of t.
Proof.
  intros Ht. rewrite (key_of_own t Ht). unfold key_of, plain_of; cbn.
  now rewrite lookup_omit.
Qed.

Lemma carries_session_plain t : carries_session (VObj (plain_of t)) = false.
Proof.
  unfold carries_session, plain_of, has_prop; cbn. now rewrite lookup_omit.
Qed.

(** A merge that is not called off returns a sequence, which has the keys of
    its source and no session field that the sequence read did not have. *)
Lemma merge_total lastReadOk allTokens activeTokens tokenToUpdate :
  Forall not_null allTokens ->
  (allTokens = [] -> Forall not_null (normalize activeTokens)) ->
  lastReadOk = true \/ allTokens <> [] ->
  exists merged,
    merge lastReadOk allTokens activeTokens tokenToUpdate
      = Fulfilled (Some merged) /\
    map key_of merged = map key_of (merge_source allTokens activeTokens) /\
    (Forall (fun d => carries_session d = false) allTokens ->
     Forall (fun d => carries_session d = false) merged) /\
    (allTokens <> [] -> Forall2 akin allTokens merged).
Proof.
  intros Hall Hact Hgo. unfold merge, merge_source.
  assert (negb lastReadOk && is_empty allTokens = false) as ->.
  { destruct Hgo as [->|Hne]; [reflexivity|].
    destruct allTokens; [congruence | now rewrite Bool.andb_false_r]. }
  destruct allTokens as [|d0 rest]; cbn [is_empty andb].
  - destruct (is_empty (normalize activeTokens)) eqn:Hemp; cbn [negb].
    + assert (normalize activeTokens = []) as ->
        by (destruct (normalize activeTokens); [reflexivity | discriminate]).
      exists []. split; [|repeat split; auto; congruence].
      unfold applyUpdate. destruct (truthy tokenToUpdate); reflexivity.
    + rewrite (map_strip_spec _ (Hact eq_refl)).
      eexists. split; [reflexivity|]. repeat split.
      * rewrite map_map. apply map_ext_Forall.
        eapply Forall_impl; [apply (Hact eq_refl)|].
        intros t Ht. now apply key_of_plain.
      * intros _. apply Forall_map, Forall_forall. intros t _.
        apply carries_session_plain.
      * congruence.
  - assert (exists merged,
              (if truthy tokenToUpdate
               then match applyUpdate (d0 :: rest) tokenToUpdate with
                    | Fulfilled r => Fulfilled (Some r)
                    | Rejected err => Rejected err
                    end
               else if negb (is_empty (normalize activeTokens))
               then match applyUpdates (d0 :: rest) (normalize activeTokens) with
                    | Fulfilled r => Fulfilled (Some r)
                    | Rejected err => Rejected err
                    end
               else Fulfilled (Some (d0 :: rest))) = Fulfilled (Some merged) /\
              Forall2 akin (d0 :: rest) merged) as (merged & -> & Hakin).
    { destruct (truthy tokenToUpdate).
      - destruct (applyUpdate_akin (d0 :: rest) tokenToUpdate Hall) as (out & -> & H).
        eauto.
      - destruct (negb (is_empty (normalize activeTokens))).
        + destruct (applyUpdates_akin (normalize activeTokens) (d0 :: rest) Hall)
            as (out & -> & H).
          eauto.
        + eauto using Forall2_akin_refl. }
    exists merged. split; [reflexivity|]. repeat split.
    + now apply akin_keys.
    + now apply akin_no_session.
    + auto.
Qed.

(** ** The store *)

Section Store.
Context (P : Platform).

Lemma wp_known {A} (m : M A) s e r s1 e1 (Q : outcome A -> Store -> Env -> Prop) :
  m s e = (r, s1, e1) -> Q r s1 e1 -> wp m s e Q.
Proof. intros H HQ. unfold wp. now rewrite H. Qed.

Lemma wp_run {A} (m : M A) s e (Q : outcome A -> Store -> Env -> Prop) :
  wp m s e Q -> exists r s1 e1, m s e = (r, s1, e1) /\ Q r s1 e1.
Proof.
  unfold wp. destruct (m s e) as [[r s1] e1]. eauto.
Qed.

Lemma set_writeQueue_same s q : _writeQueue s = q -> set_writeQueue q s = s.
Proof. intros <-. now destruct s. Qed.

Lemma submit_runs_body op s e :
  _writeQueue s = Fulfilled tt ->
  submit P op s e =
  (let '(rb, sb, eb) := body P op s e in
   (Fulfilled tt, set_writeQueue (Fulfilled tt) sb,
    match rb with
    | Fulfilled _ => eb
    | Rejected err => add_log Error (queue_line op err) eb
    end)).
Proof.
  intros Hq. destruct op as [tokens|a u]; cbn [submit body].
  - unfold writeAll, catch_, then_, mbind, M_bind, bind, get_store, settle,
      try_catch, modify_store, of_outcome, log_error, modify_env.
    rewrite Hq. destruct (writeOperation P (normalize tokens) s e) as [[[[]|err] sb] eb];
      reflexivity.
  - unfold mergeActiveTokens, catch_, then_, mbind, M_bind, bind, get_store, settle,
      try_catch, modify_store, of_outcome, log_error, modify_env.
    rewrite Hq. destruct (mergeAndWrite P a u s e) as [[[[]|err] sb] eb];
      reflexivity.
Qed.

Lemma submit_fulfils op s e :
  wp (submit P op) s e (fun r s1 e1 =>
    r = Fulfilled tt /\ _writeQueue s1 = Fulfilled tt).
Proof.
  destruct op as [tokens|a u]; cbn [submit].
  - unfold wp, writeAll, catch_, then_, mbind, M_bind, bind, get_store, settle,
      try_catch, modify_store, of_outcome, log_error, modify_env, throw.
    destruct (_writeQueue s) as [[]|err0]; [|split; reflexivity].
    destruct (writeOperation P (normalize tokens) s e) as [[[[]|err] sb] eb];
      split; reflexivity.
  - unfold wp, mergeActiveTokens, catch_, then_, mbind, M_bind, bind, get_store, settle,
      try_catch, modify_store, of_outcome, log_error, modify_env, throw.
    destruct (_writeQueue s) as [[]|err0]; [|split; reflexivity].
    destruct (mergeAndWrite P a u s e) as [[[[]|err] sb] eb];
      split; reflexivity.
Qed.

Lemma reachable_queue s : reachable P s -> _writeQueue s = Fulfilled tt.
Proof.
  induction 1 as [|s e c r s1 e1 Hs IH Hc]; [reflexivity|].
  destruct c as [| |tokens|a u]; cbn [perform] in Hc.
  - pose proof (readAll_spec P s e) as H. unfold wp in H.
    unfold mbind, M_bind, bind in Hc.
    destruct (readAll P s e) as [[[l|err] s'] e']; injection Hc as <- <- <-;
      destruct H as (_ & -> & _); exact IH.
  - pose proof (getSalt_spec P s e) as H. unfold wp in H.
    unfold mbind, M_bind, bind in Hc.
    destruct (getSalt P s e) as [[[l|err] s'] e']; injection Hc as <- <- <-;
      destruct H as (_ & -> & _); exact IH.
  - pose proof (submit_fulfils (OpWriteAll tokens) s e) as H. unfold wp in H.
    cbn [submit] in H. rewrite Hc in H. apply H.
  - pose proof (submit_fulfils (OpMerge a u) s e) as H. unfold wp in H.
    cbn [submit] in H. rewrite Hc in H. apply H.
Qed.

(** Claim C1, as the code has it.  An operation submitted to a store, in any
    state the store can reach, runs its body from that state, whatever became
    of the operations before it.  The promise its caller gets is fulfilled
    whether the body returned or threw: the queue's handler logs a failure
    and does not report it to the caller.  The queue is left fulfilled, and
    the state is again one from which the next operation runs. *)
Theorem queue_swallows_failures op s e :
  reachable P s ->
  let '(rb, sb, eb) := body P op s e in
  submit P op s e =
  (Fulfilled tt, set_writeQueue (Fulfilled tt) sb,
   match rb with
   | Fulfilled _ => eb
   | Rejected err => add_log Error (queue_line op err) eb
   end)
  /\ reachable P (set_writeQueue (Fulfilled tt) sb).
Proof.
  intros Hs. pose proof (submit_runs_body op s e (reachable_queue s Hs)) as H.
  destruct (body P op s e) as [[rb sb] eb]. split; [exact H|].
  destruct op as [tokens|a u].
  - eapply (reach_call P s e (WriteAll tokens)); [exact Hs | exact H].
  - eapply (reach_call P s e (MergeActiveTokens a u)); [exact Hs | exact H].
Qed.

(** Claim C6.  When the read at the start of a merge returns an empty
    sequence and leaves the health flag false, the merge stops there for
    every active input: nothing follows the read but a warning in the log,
    so the file and the fields of the store are as the read left them.  The
    cache is the one the merge started with, and so is the file if it
    existed and [fs.access] could see it. *)
Theorem merge_aborts_after_failed_read activeTokens tokenToUpdate s e sa ea :
  _writeQueue s = Fulfilled tt ->
  readAll P s e = (Fulfilled [], sa, ea) ->
  _lastReadOk sa = false ->
  mergeActiveTokens P activeTokens tokenToUpdate s e =
    (Fulfilled tt, sa, add_log Warn skip_line ea)
  /\ _cache sa = _cache s
  /\ (access_never_fails P -> file e <> None -> file ea = file e).
Proof.
  intros Hq Hread Hflag.
  pose proof (readAll_spec P s e) as H. unfold wp in H. rewrite Hread in H.
  destruct H as (_ & Hq' & _ & Hc & Hf & _).
  split; [|split; [auto | intros Ha Hfile; now apply Hf]].
  change (mergeActiveTokens P activeTokens tokenToUpdate)
    with (submit P (OpMerge activeTokens tokenToUpdate)).
  rewrite (submit_runs_body (OpMerge activeTokens tokenToUpdate) s e Hq).
  cbn [body]. unfold mergeAndWrite, mergeOperation, mbind, M_bind, bind.
  rewrite Hread. unfold get_store, log_warn, modify_env, of_outcome, merge.
  rewrite Hflag. cbn.
  now rewrite set_writeQueue_same by congruence.
Qed.

(** Claim C7.  With a sequence in the cache that is older than the
    freshness window, a [readAll] of a file whose text is no JSON, or JSON of
    neither shape, returns the cached sequence without throwing, whether
    [fs.readFile] fails or not; a cache that holds records is not answered
    with an empty sequence.  The health flag becomes false and the cache
    gets a new timestamp. *)
Theorem readAll_serves_stale_cache s e c data :
  _cache s = Some c -> expired P s e ->
  access_never_fails P -> file e = Some data -> unreadable P data ->
  exists s1 e1,
    readAll P s e = (Fulfilled c, s1, e1) /\
    cache_state s1 = (Some c, now e, false) /\
    file e1 = Some data /\
    (c <> [] -> Fulfilled c <> Fulfilled (A:=list value) []).
Proof.
  intros Hc Hexp Ha Hf Hbad.
  cut (wp (readAll P) s e (fun r s1 e1 =>
         r = Fulfilled c /\ cache_state s1 = (Some c, now e, false) /\
         file e1 = Some data)).
  { intros H. apply wp_run in H. destruct H as (r & s1 & e1 & E & -> & H1 & H2).
    exists s1, e1. repeat split; auto. congruence. }
  unfold expired in Hexp. unfold unreadable in Hbad.
  assert (file e <> None) as Hsome by congruence.
  unfold readAll, _isCacheValid, stale_or_empty; unfold return_cache.
  repeat wp_call0.
  all: cbn in *.
  all: try (apply Z.ltb_lt in Heqb; lia).
  all: try congruence.
  all: saturate.
  all: try (rewrite Ha in *; discriminate).
  all: repeat match goal with
       | E : file ?x = Some ?d |- _ =>
           is_var d; assert (d = data) by congruence; subst d; clear E
       end.
  all: repeat match goal with
       | E : JSON_parse _ _ = _ |- _ => rewrite E in Hbad; clear E
       end.
  all: simplify_eq/=.
  all: repeat match goal with
       | E : lookup_prop _ _ = _ |- _ => rewrite E in Hbad; clear E
       end.
  all: try discriminate.
  all: rewrite ?Heqo; unfold cache_state; cbn; repeat split; congruence.
Qed.

Lemma spec_of {A} (m : M A) s e r s1 e1 (Q : outcome A -> Store -> Env -> Prop) :
  wp m s e Q -> m s e = (r, s1, e1) -> Q r s1 e1.
Proof. unfold wp. intros H E. now rewrite E in H. Qed.

Lemma mergeOperation_after a u s e ra sa ea :
  readAll P s e = (ra, sa, ea) ->
  mergeOperation P a u s e =
  match ra with
  | Rejected err => (Rejected err, sa, ea)
  | Fulfilled allTokens =>
      (merge (_lastReadOk sa) allTokens a u, sa,
       if negb (_lastReadOk sa) && is_empty allTokens
       then add_log Warn skip_line ea else ea)
  end.
Proof.
  intros Hread. unfold mergeOperation, mbind, M_bind, bind. rewrite Hread.
  destruct ra as [allTokens|err]; [|reflexivity].
  unfold get_store, log_warn, modify_env, of_outcome, mret, M_ret, ret.
  now destruct (negb (_lastReadOk sa) && is_empty allTokens).
Qed.

Lemma mergeOperation_store a u s e :
  wp (readAll P) s e (fun ra sa ea =>
    wp (mergeOperation P a u) s e (fun rm sm em =>
      sm = sa /\ file em = file ea /\ now em = now ea)).
Proof.
  unfold wp at 1. destruct (readAll P s e) as [[ra sa] ea] eqn:Hread.
  unfold wp. rewrite (mergeOperation_after a u s e ra sa ea Hread).
  destruct ra as [allTokens|err]; [|auto].
  destruct (merge (_lastReadOk sa) allTokens a u), (negb (_lastReadOk sa) && is_empty allTokens); auto.
Qed.

Lemma mergeAndWrite_after a u s e rm sm em :
  mergeOperation P a u s e = (rm, sm, em) ->
  wp (mergeAndWrite P a u) s e (fun r s1 e1 =>
    match rm with
    | Rejected err => r = Rejected err /\ s1 = sm /\ e1 = em
    | Fulfilled None => r = Fulfilled tt /\ s1 = sm /\ e1 = em
    | Fulfilled (Some merged) =>
        _writeQueue s1 = _writeQueue sm /\
        (cache_state s1 = cache_state sm \/
         cache_state s1 = (Some merged, now em, true) /\
         file e1 = Some (JSON_stringify P (fileData (_salt s1) (VArr merged)))) /\
        (reliable P ->
         r = Fulfilled tt /\
         cache_state s1 = (Some merged, now em, true) /\
         file e1 = Some (JSON_stringify P (fileData (_salt s1) (VArr merged))))
    end).
Proof.
  intros Hm. unfold mergeAndWrite. apply wp_bind.
  apply (wp_known _ _ _ _ _ _ _ Hm).
  destruct rm as [[merged|]|err]; [|repeat wp_call; auto|auto].
  repeat wp_call.
  all: cbn in *.
  all: split; [congruence|].
  all: split; [try (left; congruence); try (right; finish) | finish].
Qed.

(** Claim C10.  When the [_atomicWrite] of the persistence step is
    rejected, the cache, its timestamp and the health flag are what they
    were before the step: for [writeAll], those the operation started with;
    for [mergeActiveTokens], those left by the read that begins the merge.
    In every run, failing calls or not, the three are either unchanged or
    those of the new sequence, and then the file holds the document of that
    sequence: the cache never has what the file has not. *)
Theorem cache_follows_the_disk tokens activeTokens tokenToUpdate s e :
  _writeQueue s = Fulfilled tt ->
  (forall salt s0 e0 err sw ew,
     (_ensureFileExists P ≫= fun _ => getSalt P) s e = (Fulfilled salt, s0, e0) ->
     _atomicWrite P (JSON_stringify P (fileData salt (VArr (normalize tokens))))
       s0 e0 = (Rejected err, sw, ew) ->
     wp (writeAll P tokens) s e (fun r s1 e1 =>
       cache_state s1 = cache_state s)) /\
  (forall merged sm em salt s0 e0 err sw ew,
     mergeOperation P activeTokens tokenToUpdate s e
       = (Fulfilled (Some merged), sm, em) ->
     (_ensureFileExists P ≫= fun _ => getSalt P) sm em = (Fulfilled salt, s0, e0) ->
     _atomicWrite P (JSON_stringify P (fileData salt (VArr merged)))
       s0 e0 = (Rejected err, sw, ew) ->
     wp (mergeActiveTokens P activeTokens tokenToUpdate) s e (fun r s1 e1 =>
       cache_state s1 = cache_state sm)) /\
  wp (writeAll P tokens) s e (fun r s1 e1 =>
    cache_state s1 = cache_state s \/
    cache_state s1 = (Some (normalize tokens), now e, true) /\
    persisted P s1 e1 (normalize tokens)) /\
  wp (mergeOperation P activeTokens tokenToUpdate) s e (fun rm sm em =>
    wp (mergeActiveTokens P activeTokens tokenToUpdate) s e (fun r s1 e1 =>
      cache_state s1 = cache_state sm \/
      exists merged,
        rm = Fulfilled (Some merged) /\
        cache_state s1 = (Some merged, now em, true) /\
        persisted P s1 e1 merged)).
Proof.
  intros Hq. split; [|split; [|split]].
  - intros salt s0 e0 err sw ew Hpre Hw.
    change (writeAll P tokens) with (submit P (OpWriteAll tokens)).
    unfold wp. rewrite (submit_runs_body _ s e Hq). cbn [body].
    unfold writeOperation, mbind, M_bind, bind in *.
    destruct (_ensureFileExists P s e) as [[[[]|err1] s'] e'] eqn:E1;
      [|discriminate].
    pose proof (spec_of _ _ _ _ _ _ _ (ensure_spec P s e) E1) as (-> & _).
    rewrite Hpre.
    pose proof (spec_of _ _ _ _ _ _ _ (getSalt_spec P s e') Hpre) as (Hc & _).
    pose proof (spec_of _ _ _ _ _ _ _ (atomicWrite_spec P _ s0 e0) Hw) as (-> & _).
    unfold try_catch, bind. rewrite Hw. cbn. exact Hc.
  - intros merged sm em salt s0 e0 err sw ew Hm Hpre Hw.
    change (mergeActiveTokens P activeTokens tokenToUpdate)
      with (submit P (OpMerge activeTokens tokenToUpdate)).
    unfold wp. rewrite (submit_runs_body _ s e Hq). cbn [body].
    unfold mergeAndWrite, mbind, M_bind, bind in *.
    rewrite Hm.
    destruct (_ensureFileExists P sm em) as [[[[]|err1] s'] e'] eqn:E1;
      [|discriminate].
    pose proof (spec_of _ _ _ _ _ _ _ (ensure_spec P sm em) E1) as (-> & _).
    rewrite Hpre.
    pose proof (spec_of _ _ _ _ _ _ _ (getSalt_spec P sm e') Hpre) as (Hc & _).
    pose proof (spec_of _ _ _ _ _ _ _ (atomicWrite_spec P _ s0 e0) Hw) as (-> & _).
    unfold try_catch, bind. rewrite Hw. cbn. exact Hc.
  - change (writeAll P tokens) with (submit P (OpWriteAll tokens)).
    unfold wp. rewrite (submit_runs_body _ s e Hq). cbn [body].
    pose proof (writeOperation_spec P (normalize tokens) s e) as H.
    unfold wp in H.
    destruct (writeOperation P (normalize tokens) s e) as [[[[]|err] sb] eb];
      destruct H as (_ & _ & Hrej & Hok & _).
    + destruct (Hok eq_refl) as [Hc Hfile]. right. split; [exact Hc|].
      unfold cache_state in Hc. split; cbn; congruence.
    + left. exact (Hrej err eq_refl).
  - unfold wp at 1.
    destruct (mergeOperation P activeTokens tokenToUpdate s e)
      as [[rm sm] em] eqn:Hm.
    change (mergeActiveTokens P activeTokens tokenToUpdate)
      with (submit P (OpMerge activeTokens tokenToUpdate)).
    unfold wp. rewrite (submit_runs_body _ s e Hq). cbn [body].
    pose proof (mergeAndWrite_after _ _ _ _ _ _ _ Hm) as H. unfold wp in H.
    destruct (mergeAndWrite P activeTokens tokenToUpdate s e) as [[rb sb] eb].
    destruct rm as [[merged|]|err], rb as [[]|errb].
    all: try (destruct H as (_ & -> & _); now left).
    all: try (destruct H as ([=] & _); fail).
    all: destruct H as (_ & [Hc|[Hc Hfile]] & _); [left; exact Hc|].
    all: right; exists merged; split; [reflexivity|]; split; [exact Hc|].
    all: unfold cache_state in Hc; split; cbn; congruence.
Qed.

Lemma readAll_fresh s e data v R :
  reliable P -> _cache s = None \/ expired P s e ->
  file e = Some data -> JSON_parse P (text_of data) = Some v ->
  v = VArr R \/ (exists o, v = VObj o /\ lookup_prop "tokens" o = Some (VArr R)) ->
  wp (readAll P) s e (fun r s1 e1 =>
    r = Fulfilled R /\ cache_state s1 = (Some R, now e, true) /\
    file e1 = file e).
Proof.
  intros Hr Hold Hf Hparse Hshape.
  assert (access_never_fails P) as Ha by (intros h; apply Hr).
  assert (file e <> None) as Hsome by congruence.
  unfold readAll, _isCacheValid, stale_or_empty; unfold return_cache.
  repeat wp_call0.
  all: cbn in *.
  all: try (destruct Hold as [Hold|Hold]; [congruence|];
            unfold expired in Hold; apply Z.ltb_lt in Heqb; lia).
  all: no_fault Hr.
  all: saturate.
  all: try congruence.
  all: repeat match goal with
       | E : file ?x = Some ?d |- _ =>
           is_var d; assert (d = data) by congruence; subst d; clear E
       end.
  all: repeat match goal with
       | E : JSON_parse _ _ = _ |- _ => rewrite E in Hparse; clear E
       end.
  all: simplify_eq/=.
  all: try (destruct Hshape as [Hs|(o' & Hs & Hl)]; simplify_eq/=; fail).
  all: destruct Hshape as [Hs|(o' & Hs & Hl)]; simplify_eq/=.
  all: unfold cache_state; cbn; repeat split; congruence.
Qed.

(** Claim C4.  On a reliable file system [writeAll(R)] is fulfilled and
    leaves in the file the document made of the store's salt and of [R].
    When the codec reads that document back, a [readAll] in any later world
    with the same file and with the cache expired returns [R], element by
    element and in order. *)
Theorem writeAll_then_readAll R s e :
  reliable P -> _writeQueue s = Fulfilled tt ->
  wp (writeAll P (VArr R)) s e (fun r s1 e1 =>
    r = Fulfilled tt /\
    file e1 = Some (JSON_stringify P (fileData (_salt s1) (VArr R))) /\
    (round_trips P (fileData (_salt s1) (VArr R)) ->
     forall e2, file e2 = file e1 -> expired P s1 e2 ->
       wp (readAll P) s1 e2 (fun r2 s2 e3 =>
         r2 = Fulfilled R /\ _cache s2 = Some R))).
Proof.
  intros Hr Hq.
  change (writeAll P (VArr R)) with (submit P (OpWriteAll (VArr R))).
  unfold wp at 1. rewrite (submit_runs_body _ s e Hq). cbn [body normalize].
  pose proof (writeOperation_spec P R s e) as H. unfold wp in H.
  destruct (writeOperation P R s e) as [[rb sb] eb].
  destruct H as (_ & _ & _ & Hok & Hrel). specialize (Hrel Hr). subst rb.
  destruct (Hok eq_refl) as [Hc Hfile]. cbn.
  split; [reflexivity|]. split; [exact Hfile|].
  intros Hrt e2 Hf2 Hexp.
  eapply wp_mono.
  - eapply (readAll_fresh _ e2 _ _ R Hr).
    + right. exact Hexp.
    + rewrite Hf2. exact Hfile.
    + exact Hrt.
    + right. eexists. split; [reflexivity|]. reflexivity.
  - cbn. intros r2 s2 e3 (-> & Hc2 & _). split; [reflexivity|].
    unfold cache_state in Hc2. congruence.
Qed.

Lemma getSalt_from_file s e salt tokens :
  reliable P -> truthy (_salt s) = false ->
  file e = Some (JSON_stringify P (fileData (VStr salt) tokens)) ->
  round_trips P (fileData (VStr salt) tokens) -> salt <> "" ->
  wp (getSalt P) s e (fun r s1 e1 =>
    r = Fulfilled (VStr salt) /\ _salt s1 = VStr salt /\
    file e1 = file e /\ salts_drawn e1 = salts_drawn e).
Proof.
  intros Hr Hs Hf Hrt Hne.
  assert (access_never_fails P) as Ha by (intros h; apply Hr).
  assert (file e <> None) as Hsome by congruence.
  assert (truthy (VStr salt) = true) as Htrue.
  { cbn. apply String.eqb_neq in Hne. now rewrite Hne. }
  unfold round_trips in Hrt.
  unfold getSalt.
  repeat wp_call0.
  all: cbn in *.
  all: try congruence.
  all: no_fault Hr.
  all: saturate.
  all: try congruence.
  all: repeat match goal with
       | E : file ?x = Some ?d |- _ =>
           is_var d;
           assert (d = JSON_stringify P (fileData (VStr salt) tokens)) by congruence;
           subst d; clear E
       end.
  all: repeat match goal with
       | E : JSON_parse _ _ = _ |- _ => rewrite E in Hrt; clear E
       end.
  all: unfold fileData in *; simplify_eq/=.
  all: try congruence.
  all: try (rewrite Htrue in *; discriminate).
  all: repeat split; congruence.
Qed.

(** Claim C8.  On a reliable file system, with no file and no salt loaded,
    bootstrap creates the file with the generated salt (here assumed not
    empty) and an empty sequence.  A second bootstrap changes neither the
    file nor the number of salts generated; [getSalt] then returns the salt
    of the file without generating one, and from then on returns the same
    salt in every world. *)
Theorem bootstrap_keeps_its_salt s e :
  reliable P -> file e = None -> truthy (_salt s) = false ->
  generateSalt P (salts_drawn e) <> "" ->
  round_trips P (fileData (VStr (generateSalt P (salts_drawn e))) (VArr [])) ->
  wp (_ensureFileExists P) s e (fun r1 s1 e1 =>
    r1 = Fulfilled tt /\
    file e1 = Some (JSON_stringify P
                      (fileData (VStr (generateSalt P (salts_drawn e))) (VArr []))) /\
    wp (_ensureFileExists P) s1 e1 (fun r2 s2 e2 =>
      r2 = Fulfilled tt /\ file e2 = file e1 /\
      salts_drawn e2 = salts_drawn e1 /\
      wp (getSalt P) s2 e2 (fun r3 s3 e3 =>
        r3 = Fulfilled (VStr (generateSalt P (salts_drawn e))) /\
        file e3 = file e1 /\ salts_drawn e3 = salts_drawn e1 /\
        forall e4, getSalt P s3 e4 =
                   (Fulfilled (VStr (generateSalt P (salts_drawn e))), s3, e4)))).
Proof.
  intros Hr Hf Hs Hne Hrt.
  assert (access_never_fails P) as Ha by (intros h; apply Hr).
  eapply wp_mono; [apply ensure_spec|]. cbn beta.
  intros r1 s1 e1 (-> & _ & _ & _ & _ & Hnew).
  destruct (Hnew Hr Hf) as (-> & Hf1 & _).
  split; [reflexivity|]. split; [exact Hf1|].
  eapply wp_mono; [apply ensure_spec|]. cbn beta.
  intros r2 s2 e2 (-> & _ & _ & _ & Hkept & _).
  destruct (Hkept Ha) as (-> & Hf2 & Hd2 & _); [congruence|].
  split; [reflexivity|]. split; [exact Hf2|]. split; [exact Hd2|].
  eapply wp_mono.
  - apply (getSalt_from_file s e2 (generateSalt P (salts_drawn e)) (VArr []) Hr Hs);
      [|exact Hrt|exact Hne].
    rewrite Hf2. exact Hf1.
  - cbn beta. intros r3 s3 e3 (-> & Hsalt & Hf3 & Hd3).
    split; [reflexivity|]. split; [congruence|]. split; [congruence|].
    intros e4. rewrite <- Hsalt. apply getSalt_cached.
    rewrite Hsalt. cbn. apply String.eqb_neq in Hne. now rewrite Hne.
Qed.

Lemma writeAll_persists tokens s e :
  reliable P -> _writeQueue s = Fulfilled tt ->
  wp (writeAll P tokens) s e (fun r s1 e1 =>
    r = Fulfilled tt /\ persisted P s1 e1 (normalize tokens)).
Proof.
  intros Hr Hq.
  change (writeAll P tokens) with (submit P (OpWriteAll tokens)).
  unfold wp. rewrite (submit_runs_body _ s e Hq). cbn [body].
  pose proof (writeOperation_spec P (normalize tokens) s e) as H. unfold wp in H.
  destruct (writeOperation P (normalize tokens) s e) as [[rb sb] eb].
  destruct H as (_ & _ & _ & Hok & Hrel). specialize (Hrel Hr). subst rb.
  destruct (Hok eq_refl) as [Hc Hfile]. unfold cache_state in Hc.
  split; [reflexivity|]. split; cbn; congruence.
Qed.

Lemma merge_persists a u s e allTokens sa ea merged :
  reliable P -> _writeQueue s = Fulfilled tt ->
  readAll P s e = (Fulfilled allTokens, sa, ea) ->
  merge (_lastReadOk sa) allTokens a u = Fulfilled (Some merged) ->
  wp (mergeActiveTokens P a u) s e (fun r s1 e1 =>
    r = Fulfilled tt /\ persisted P s1 e1 merged).
Proof.
  intros Hr Hq Hread Hmerge.
  change (mergeActiveTokens P a u) with (submit P (OpMerge a u)).
  unfold wp. rewrite (submit_runs_body _ s e Hq). cbn [body].
  pose proof (mergeOperation_after a u s e _ _ _ Hread) as Hm.
  cbn beta iota in Hm. rewrite Hmerge in Hm.
  pose proof (mergeAndWrite_after a u s e _ _ _ Hm) as H. unfold wp in H.
  destruct (mergeAndWrite P a u s e) as [[rb sb] eb].
  destruct H as (_ & _ & Hrel). destruct (Hrel Hr) as (-> & Hc & Hfile).
  unfold cache_state in Hc.
  split; [reflexivity|]. split; cbn; congruence.
Qed.

(** Claim C2, as the code has it.  On a reliable file system [writeAll]
    persists its input as it is, and a merge that is not called off persists
    a sequence that has, position by position, the keys of its source: the
    sequence it read or, when that is empty, the active records.  So the
    persisted sequence is free of duplicate keys when its source is; a
    duplicate in the source stays. *)
Theorem persisted_keys_are_those_of_the_source
    tokens activeTokens tokenToUpdate s e :
  reliable P -> _writeQueue s = Fulfilled tt ->
  wp (writeAll P tokens) s e (fun r s1 e1 =>
    r = Fulfilled tt /\ persisted P s1 e1 (normalize tokens)) /\
  (forall allTokens sa ea,
     readAll P s e = (Fulfilled allTokens, sa, ea) ->
     Forall not_null allTokens ->
     (allTokens = [] -> Forall not_null (normalize activeTokens)) ->
     _lastReadOk sa = true \/ allTokens <> [] ->
     exists merged,
       wp (mergeActiveTokens P activeTokens tokenToUpdate) s e (fun r s1 e1 =>
         r = Fulfilled tt /\ persisted P s1 e1 merged) /\
       map key_of merged = map key_of (merge_source allTokens activeTokens) /\
       (NoDup (map key_of (merge_source allTokens activeTokens)) ->
        NoDup (map key_of merged))).
Proof.
  intros Hr Hq. split; [now apply writeAll_persists|].
  intros allTokens sa ea Hread Hall Hact Hgo.
  destruct (merge_total (_lastReadOk sa) allTokens activeTokens tokenToUpdate
              Hall Hact Hgo) as (merged & Hm & Hk & _).
  exists merged. split; [eapply merge_persists; eauto|].
  split; [exact Hk | now rewrite Hk].
Qed.

(** Claim C3, as the code has it.  On a reliable file system [writeAll]
    persists its input as it is, session fields included, and a merge adds
    no session field: when no record it read carries one, no record it
    persists does, whatever the active records carry. *)
Theorem merge_adds_no_session_field tokens activeTokens tokenToUpdate s e :
  reliable P -> _writeQueue s = Fulfilled tt ->
  wp (writeAll P tokens) s e (fun r s1 e1 =>
    r = Fulfilled tt /\ persisted P s1 e1 (normalize tokens)) /\
  (forall allTokens sa ea,
     readAll P s e = (Fulfilled allTokens, sa, ea) ->
     Forall not_null allTokens ->
     (allTokens = [] -> Forall not_null (normalize activeTokens)) ->
     _lastReadOk sa = true \/ allTokens <> [] ->
     Forall (fun d => carries_session d = false) allTokens ->
     exists merged,
       wp (mergeActiveTokens P activeTokens tokenToUpdate) s e (fun r s1 e1 =>
         r = Fulfilled tt /\ persisted P s1 e1 merged) /\
       Forall (fun d => carries_session d = false) merged).
Proof.
  intros Hr Hq. split; [now apply writeAll_persists|].
  intros allTokens sa ea Hread Hall Hact Hgo Hclean.
  destruct (merge_total (_lastReadOk sa) allTokens activeTokens tokenToUpdate
              Hall Hact Hgo) as (merged & Hm & _ & Hs & _).
  exists merged. split; [eapply merge_persists; eauto | auto].
Qed.

Lemma merge_nonempty lastReadOk allTokens a u :
  allTokens <> [] ->
  merge lastReadOk allTokens a u =
  if truthy u then
    match applyUpdate allTokens u with
    | Fulfilled r => Fulfilled (Some r)
    | Rejected err => Rejected err
    end
  else if negb (is_empty (normalize a)) then
    match applyUpdates allTokens (normalize a) with
    | Fulfilled r => Fulfilled (Some r)
    | Rejected err => Rejected err
    end
  else Fulfilled (Some allTokens).
Proof.
  intros Hne. unfold merge. destruct allTokens as [|d0 rest]; [congruence|].
  cbn [is_empty]. now rewrite Bool.andb_false_r.
Qed.

Lemma overlay_fields d t k :
  lookup_prop k (own_props (overlay d t)) =
  match (if String.eqb k "sessionId" then None else lookup_prop k (own_props t)) with
  | Some v => Some v
  | None => lookup_prop k (own_props d)
  end.
Proof.
  unfold overlay, plain_of. cbn [own_props]. now rewrite lookup_spread, lookup_omit.
Qed.

(** Claim C5, as the code has it.  A merge over a non-empty sequence read
    from the store persists a sequence of the same length with the same key
    at every position: nothing is inserted.  When a single record is
    supplied, it alone is applied: the first record with its key is
    overlaid with it and the active records are left out.  Otherwise the
    active records are applied in order, and when their keys are distinct
    the first record with the key of an active record is that record
    overlaid with the active record's fields, the other records being as
    they were.  An overlaid record has the fields of the active record, the
    session field excepted, and keeps its other fields. *)
Theorem merge_updates_by_key activeTokens tokenToUpdate s e allTokens sa ea :
  reliable P -> _writeQueue s = Fulfilled tt ->
  readAll P s e = (Fulfilled allTokens, sa, ea) ->
  allTokens <> [] -> Forall not_null allTokens ->
  exists merged,
    wp (mergeActiveTokens P activeTokens tokenToUpdate) s e (fun r s1 e1 =>
      r = Fulfilled tt /\ persisted P s1 e1 merged) /\
    length merged = length allTokens /\
    map key_of merged = map key_of allTokens /\
    (truthy tokenToUpdate = true ->
     forall i d, allTokens !! i = Some d ->
       merged !! i =
       Some (if decide (first_match allTokens tokenToUpdate = Some i)
             then overlay d tokenToUpdate else d)) /\
    (truthy tokenToUpdate = false -> distinct_keys (normalize activeTokens) ->
     forall i d, allTokens !! i = Some d ->
       (forall t, t ∈ normalize activeTokens -> truthy t = true ->
          first_match allTokens t = Some i -> merged !! i = Some (overlay d t)) /\
       ((forall t, t ∈ normalize activeTokens -> truthy t = true ->
           first_match allTokens t <> Some i) -> merged !! i = Some d)) /\
    (forall d t k,
       lookup_prop k (own_props (overlay d t)) =
       match (if String.eqb k "sessionId" then None
              else lookup_prop k (own_props t)) with
       | Some v => Some v
       | None => lookup_prop k (own_props d)
       end).
Proof.
  intros Hr Hq Hread Hne Hall.
  destruct (merge_total (_lastReadOk sa) allTokens activeTokens tokenToUpdate
              Hall (fun E => False_ind _ (Hne E)) (or_intror Hne))
    as (merged & Hm & Hk & _ & Hakin).
  specialize (Hakin Hne).
  exists merged. split; [eapply merge_persists; eauto|].
  split; [symmetry; eapply Forall2_length; eauto|].
  split; [unfold merge_source in Hk; destruct allTokens; [congruence | exact Hk]|].
  rewrite (merge_nonempty _ _ _ _ Hne) in Hm.
  split; [|split; [|apply overlay_fields]].
  - intros Ht i d Hi. rewrite Ht in Hm.
    destruct (applyUpdate_cases allTokens tokenToUpdate Hall)
      as [[E Hnone]|(i0 & d0 & _ & Hf & Hd0 & _ & E)];
      rewrite E in Hm; injection Hm as <-.
    + rewrite (Hnone Ht). rewrite decide_False by discriminate. exact Hi.
    + rewrite Hf. destruct (decide (Some i0 = Some i)) as [[= ->]|Hni].
      * assert (d = d0) as -> by congruence.
        apply list_lookup_insert_eq. now apply lookup_lt_Some in Hd0.
      * rewrite list_lookup_insert_ne by congruence. exact Hi.
  - intros Ht Hdist i d Hi. rewrite Ht in Hm.
    destruct (negb (is_empty (normalize activeTokens))) eqn:Hemp.
    + destruct (applyUpdates allTokens (normalize activeTokens)) as [out|err] eqn:E;
        [|discriminate].
      injection Hm as <-.
      now apply (applyUpdates_lookup _ _ _ Hall Hdist E).
    + injection Hm as <-. split; [|auto].
      destruct (normalize activeTokens); [|discriminate].
      intros t Hin. now apply elem_of_nil in Hin.
Qed.

(** Claim C9.  [_atomicWrite] never touches the fields of the store.  It
    is fulfilled only after a rename has completed, which is then its last
    call and leaves the content in the file.  When it is rejected no rename
    has completed and its last call is the unlink of the temporary file,
    whatever that returns.  It renames at most twice.  When the first rename
    fails with EEXIST or EPERM the next call is the unlink of the target;
    if that completes or finds no target, one more rename follows and
    decides the outcome; if it fails otherwise, no rename follows and its
    error is the outcome.  When the first rename fails with another error,
    neither an unlink of the target nor a rename follows. *)
Theorem atomicWrite_protocol content s e :
  wp (_atomicWrite P content) s e (fun r s1 e1 =>
    s1 = s /\
    exists evs, calls_between e e1 evs /\
      (r = Fulfilled tt ->
         last evs = Some (completed Rename) /\ file e1 = Some content) /\
      (forall err, r = Rejected err ->
         (exists res, last evs = Some (FsEvent UnlinkTemp res)) /\
         existsb rename_done evs = false) /\
      (count is_rename evs <= 2)%nat /\
      (forall pre err post,
         evs = (pre ++ FsEvent Rename (Some err) :: post)%list ->
         count is_rename pre = 0%nat ->
         if has_code err EEXIST || has_code err EPERM then
           exists res post', post = FsEvent Unlink res :: post' /\
             if target_gone res then
               exists res2 post'', post' = FsEvent Rename res2 :: post'' /\
                 count is_rename post'' = 0%nat /\ count is_unlink post'' = 0%nat /\
                 r = outcome_of res2
             else
               count is_rename post' = 0%nat /\ count is_unlink post' = 0%nat /\
               r = outcome_of res
         else
           count is_rename post = 0%nat /\ count is_unlink post = 0%nat /\
           r = Rejected err)).
Proof.
  unfold wp, _atomicWrite, atomicWrite_cleanup, rename_onto_target,
    fs_open_temp, handle_writeFile, handle_sync, handle_close, fs_rename, fs_unlink, fs_unlink_temp,
    mbind, M_bind, mret, M_ret, bind, ret, settle, try_catch, throw, fs_call.
  cbn.
  repeat (fs_case; cbn).
  all: split; [reflexivity|].
  all: eexists; split; [unfold calls_between; cbn; rewrite <- ?app_assoc; cbn; reflexivity|].
  all: split; [intros [=]; try (split; reflexivity) | ].
  all: split; [intros err' [=]; try (split; [eexists|]; reflexivity) | ].
  all: split; [cbn; lia|].
  all: intros pre err' post Hev Hpre; split_calls; try discriminate Hpre.
  all: cbn; repeat (do 2 eexists; split; [reflexivity|]; cbn);
    try (repeat split; reflexivity).
Qed.

End Store.

(** ** Bootstrap and the atomic writer, call by call *)

Section Bootstrap.
Context (P : Platform).

Lemma ensure_outcome s e :
  wp (_ensureFileExists P) s e (fun r s1 e1 =>
    s1 = s /\
    (forall err, r = Rejected err -> creation_failed P e e1 err) /\
    (access_never_fails P -> file e <> None ->
       r = Fulfilled tt /\ file e1 = file e)).
Proof.
  unfold wp, _ensureFileExists, fs_mkdir, fs_access, fs_writeFile, generate_salt,
    log_info, modify_env, get_env,
    mbind, M_bind, mret, M_ret, bind, ret, try_catch, fs_call.
  cbn.
  repeat (fs_case; cbn).
  all: split; [reflexivity|].
  all: split;
    [intros err' Herr;
     first [discriminate Herr
           | injection Herr as <-; split; cbn; [congruence | apply last_snoc]]|].
  all: intros Ha Hf; try (rewrite Ha in *; discriminate); try congruence; auto.
Qed.

Lemma ensure_existing s e :
  access_never_fails P -> file e <> None ->
  _ensureFileExists P s e =
  (Fulfilled tt, s,
   add_event (completed Access)
     (add_event (FsEvent Mkdir (SystemError <$> fs_fault P (trace e) Mkdir)) e)).
Proof.
  intros Ha Hf.
  unfold _ensureFileExists, fs_mkdir, fs_access, fs_writeFile, generate_salt,
    log_info, modify_env, get_env,
    mbind, M_bind, mret, M_ret, bind, ret, try_catch, fs_call.
  destruct (file e) eqn:Ef; [|congruence].
  destruct (fs_fault P (trace e) Mkdir); cbn; rewrite Ha, Ef; reflexivity.
Qed.

(** Property X1.  [_ensureFileExists] calls [fs.mkdir] and [fs.access] and
    ignores what [fs.mkdir] returns.  When [fs.access] completes nothing
    else happens: the file, the salts and the log are as they were.  When
    it fails, for whatever reason, the next call writes the initial
    document, with a salt generated for it and no record, over the path; the
    outcome is that of this write, which is logged when it completes and
    leaves the file as it was when it fails.  The fields of the store and
    the temporary file are never touched. *)
Theorem ensureFileExists_protocol s e :
  wp (_ensureFileExists P) s e (fun r s1 e1 =>
    s1 = s /\ temp e1 = temp e /\ now e1 = now e /\
    exists made,
      (calls_between e e1 [FsEvent Mkdir made; completed Access] /\
       r = Fulfilled tt /\ file e <> None /\ file e1 = file e /\
       salts_drawn e1 = salts_drawn e /\ log e1 = log e)
      \/
      (exists err res,
         let doc := initial_document P (generateSalt P (salts_drawn e)) in
         calls_between e e1
           [FsEvent Mkdir made; FsEvent Access (Some err);
            FsEvent (WriteFile doc) res] /\
         r = outcome_of res /\ salts_drawn e1 = S (salts_drawn e) /\
         match res with
         | None => file e1 = Some doc /\
                   log e1 = (log e ++ [(Info, created_line)])%list
         | Some _ => file e1 = file e /\ log e1 = log e
         end)).
Proof.
  unfold wp, _ensureFileExists, fs_mkdir, fs_access, fs_writeFile, generate_salt,
    log_info, modify_env, get_env,
    mbind, M_bind, mret, M_ret, bind, ret, try_catch, fs_call.
  cbn.
  repeat (fs_case; cbn).
  all: do 3 (split; [reflexivity|]).
  all: eexists.
  all: first
    [ left; split; [unfold calls_between; cbn; rewrite <- ?app_assoc; reflexivity|];
      repeat split; congruence
    | right; do 2 eexists; cbv zeta;
      split; [unfold calls_between; cbn; rewrite <- ?app_assoc; reflexivity|];
      cbn; repeat split; (reflexivity || congruence) ].
Qed.

(** Property X2.  When [_atomicWrite] is fulfilled the file holds the
    content and the temporary file is gone.  When it is rejected the file
    is what it was, unless the unlink of the target had completed, after
    which there is no file; and the temporary file is gone when its unlink
    completed. *)
Theorem atomicWrite_spares_the_target content s e :
  wp (_atomicWrite P content) s e (fun r s1 e1 =>
    exists evs, calls_between e e1 evs /\
      (r = Fulfilled tt -> file e1 = Some content /\ temp e1 = None) /\
      (forall err, r = Rejected err ->
         (if existsb unlink_done evs then file e1 = None else file e1 = file e) /\
         (existsb cleanup_done evs = true -> temp e1 = None))).
Proof.
  unfold wp, _atomicWrite, atomicWrite_cleanup, rename_onto_target,
    fs_open_temp, handle_writeFile, handle_sync, handle_close, fs_rename,
    fs_unlink, fs_unlink_temp,
    mbind, M_bind, mret, M_ret, bind, ret, settle, try_catch, throw, fs_call.
  cbn.
  repeat (fs_case; cbn).
  all: eexists; split;
    [unfold calls_between; cbn; rewrite <- ?app_assoc; cbn; reflexivity|].
  all: split; [intros [=]; try (split; reflexivity) | ].
  all: intros err' [=]; cbn; split; try reflexivity; try discriminate; try congruence.
Qed.

End Bootstrap.

(** A run over a file that exists and that [fs.access] can see. *)
Ltac wp_existing Ha Hsome :=
  lazymatch goal with
  | |- wp (_ensureFileExists _) ?s ?e _ =>
      eapply wp_known; [exact (ensure_existing _ s e Ha Hsome)|]
  | _ => wp_step
  end.

(** A run in which bootstrap may fail. *)
Ltac wp_more :=
  lazymatch goal with
  | |- wp (_ensureFileExists _) _ _ _ =>
      eapply wp_mono;
      [apply ensure_outcome | cbn beta; intros ? ? ? (-> & ? & ?)]
  | _ => wp_step
  end.

(** The text read is the text of the file. *)
Ltac same_file data :=
  repeat match goal with
  | E : file ?x = Some ?d |- _ =>
      is_var d; assert (d = data) by congruence; subst d; clear E
  end.

(** The value parsed is the value the hypothesis [H] speaks of. *)
Ltac same_parse H :=
  repeat match goal with
  | E : JSON_parse _ _ = _ |- _ => rewrite E in H; clear E
  end;
  simplify_eq/=;
  repeat match goal with
  | E : lookup_prop _ _ = _ |- _ => rewrite E in H; clear E
  end.

Ltac failure_named :=
  first [ now exists TypeError | now exists SyntaxError
        | match goal with c : errcode |- _ => now exists (SystemError c) end ].

(** ** The salt *)

Lemma lookup_assign_prop k k' v (o : object) :
  lookup_prop k (assign_prop k' v o) =
  if String.eqb k k' then Some v else lookup_prop k o.
Proof.
  induction o as [|[k0 v0] o IH]; cbn.
  - now destruct (String.eqb k k').
  - destruct (String.eqb_spec k' k0) as [->|Hne]; cbn.
    + now destruct (String.eqb k k0).
    + rewrite IH. destruct (String.eqb_spec k k0) as [->|Hne'].
      * destruct (String.eqb_spec k0 k'); congruence.
      * reflexivity.
Qed.

Section Salt.
Context (P : Platform).

(** Property X3.  [getSalt] keeps the salt it returns in [_salt].  It is
    rejected only when the write that creates a missing file fails: the
    fields of the store and the file are then as they were.  When the file
    exists and [fs.access] sees it, [getSalt] is fulfilled, whatever
    becomes of the read, of the parse and of the write that follows. *)
Theorem getSalt_rejects_only_when_creation_fails s e :
  wp (getSalt P) s e (fun r s1 e1 =>
    (forall v, r = Fulfilled v -> _salt s1 = v) /\
    (forall err, r = Rejected err -> s1 = s /\ creation_failed P e e1 err) /\
    (access_never_fails P -> file e <> None -> exists v, r = Fulfilled v)).
Proof.
  unfold getSalt.
  wp_step. wp_step. wp_step.
  { wp_step. split; [intros v [= <-]; reflexivity|]. split; [discriminate | eauto]. }
  apply wp_bind. eapply wp_mono; [apply ensure_outcome|]. cbn beta.
  intros r s1 e1 (-> & Hrej & Hok). destruct r as [[]|err].
  - eapply wp_mono with
      (Q := fun r s1 e1 => exists v, r = Fulfilled v /\ _salt s1 = v).
    + repeat wp_step; cbn; eauto.
    + cbn beta. intros r s2 e2 (v & -> & Hv).
      split; [intros v' [= <-]; exact Hv|]. split; [discriminate | eauto].
  - split; [discriminate|]. split.
    + intros err' [= <-]. split; [reflexivity | now apply Hrej].
    + intros Ha Hf. destruct (Hok Ha Hf) as [[=] _].
Qed.

(** Property X5.  A file in the old layout, an array of records, is
    rewritten by [getSalt] in the new one: a salt generated for it and the
    same records.  The salt is returned and kept; the cache is not
    touched; a reader of the file finds the records that were there. *)
Theorem getSalt_migrates_the_legacy_layout s e data R :
  reliable P -> truthy (_salt s) = false ->
  file e = Some data -> JSON_parse P (text_of data) = Some (VArr R) ->
  wp (getSalt P) s e (fun r s1 e1 =>
    let salt := generateSalt P (salts_drawn e) in
    r = Fulfilled (VStr salt) /\ _salt s1 = VStr salt /\
    cache_state s1 = cache_state s /\
    file e1 = Some (JSON_stringify P (fileData (VStr salt) (VArr R))) /\
    salts_drawn e1 = S (salts_drawn e) /\
    (round_trips P (fileData (VStr salt) (VArr R)) ->
     persisted_tokens P e1 = Some R)).
Proof.
  intros Hr Hs Hf Hparse.
  assert (access_never_fails P) as Ha by (intros h; apply Hr).
  assert (file e <> None) as Hsome by congruence.
  unfold getSalt.
  repeat wp_existing Ha Hsome.
  all: cbn in *.
  all: try congruence.
  all: no_fault Hr.
  all: same_file data.
  all: same_parse Hparse.
  repeat split.
  intros Hrt. unfold persisted_tokens, round_trips in *. cbn.
  now rewrite Hrt.
Qed.

(** Property X6.  Of a file that holds an object, [getSalt] takes the salt
    when the object has one that is truthy, and then writes nothing and
    generates nothing.  Otherwise it generates a salt and writes the object
    back with it: [tokens] is what it was, or an empty array when it was
    missing or falsy, and every other property is kept. *)
Theorem getSalt_completes_a_document s e data o :
  reliable P -> truthy (_salt s) = false ->
  file e = Some data -> JSON_parse P (text_of data) = Some (VObj o) ->
  wp (getSalt P) s e (fun r s1 e1 =>
    (forall v, r = Fulfilled v -> _salt s1 = v) /\
    (truthy_opt (lookup_prop "salt" o) = true ->
       r = Fulfilled (default VNull (lookup_prop "salt" o)) /\
       file e1 = file e /\ salts_drawn e1 = salts_drawn e) /\
    (truthy_opt (lookup_prop "salt" o) = false ->
       let salt := generateSalt P (salts_drawn e) in
       exists o',
         r = Fulfilled (VStr salt) /\
         file e1 = Some (JSON_stringify P (VObj o')) /\
         salts_drawn e1 = S (salts_drawn e) /\
         lookup_prop "salt" o' = Some (VStr salt) /\
         lookup_prop "tokens" o' =
           Some (tokens_or_empty (lookup_prop "tokens" o)) /\
         (forall k, k <> "salt" -> k <> "tokens" ->
            lookup_prop k o' = lookup_prop k o))).
Proof.
  intros Hr Hs Hf Hparse.
  assert (access_never_fails P) as Ha by (intros h; apply Hr).
  assert (file e <> None) as Hsome by congruence.
  unfold getSalt.
  repeat wp_existing Ha Hsome.
  all: cbn in *.
  all: try congruence.
  all: no_fault Hr.
  all: same_file data.
  all: same_parse Hparse.
  all: split; [intros v' [= <-]; reflexivity|].
  all: split; intros Hsalt.
  all: try (rewrite Hsalt in *; cbn in *; discriminate).
  all: try (repeat split; congruence).
  eexists. split; [|split; [reflexivity|]].
  - rewrite !lookup_assign_prop. reflexivity.
  - split; [reflexivity|]. split; [|split].
    + rewrite !lookup_assign_prop. reflexivity.
    + rewrite !lookup_assign_prop. reflexivity.
    + intros k Hk1 Hk2. rewrite !lookup_assign_prop.
      apply String.eqb_neq in Hk1, Hk2. now rewrite Hk1, Hk2.
Qed.

(** Property X7.  Over a file that exists, when the read fails or the text
    is no JSON document (it does not parse, or parses to [null], a number, a
    string or a boolean), [getSalt] is fulfilled with the salt it generated
    last, keeps it in [_salt], logs the failure and leaves the file and the
    cache as they were. *)
Theorem getSalt_falls_back_to_a_temporary_salt s e data :
  access_never_fails P -> truthy (_salt s) = false -> file e = Some data ->
  wp (getSalt P) s e (fun r s1 e1 =>
    no_document P data \/ read_failed e1 ->
    (exists n, (salts_drawn e <= n)%nat /\ salts_drawn e1 = S n /\
       r = Fulfilled (VStr (generateSalt P n)) /\
       _salt s1 = VStr (generateSalt P n)) /\
    cache_state s1 = cache_state s /\ file e1 = Some data /\
    exists err, last (log e1) = Some (salt_failure_line err)).
Proof.
  intros Ha Hs Hf.
  assert (file e <> None) as Hsome by congruence.
  unfold getSalt.
  repeat wp_existing Ha Hsome.
  all: cbn in *.
  all: try congruence.
  all: same_file data.
  all: unfold no_document, read_failed.
  all: repeat match goal with
       | E : JSON_parse _ _ = _ |- _ => rewrite E; clear E
       end.
  all: intros [Hbad|[err' Hlast]]; try contradiction.
  all: try (cbn in Hlast; rewrite last_snoc in Hlast; discriminate).
  all: simplify_eq/=.
  all: split; [eexists; repeat split; try reflexivity; cbn; lia|].
  all: split; [reflexivity|]; split; [congruence|].
  all: rewrite last_snoc.
  all: failure_named.
Qed.

Lemma wp_getSalt_cached s e (Q : outcome value -> Store -> Env -> Prop) :
  truthy (_salt s) = true -> Q (Fulfilled (_salt s)) s e -> wp (getSalt P) s e Q.
Proof.
  intros Hs HQ. eapply wp_known; [now apply getSalt_cached | exact HQ].
Qed.

Ltac wp_salt :=
  lazymatch goal with
  | |- wp (getSalt _) _ _ _ => apply wp_getSalt_cached; [congruence|]
  | _ => wp_call
  end.

Lemma writeOperation_salt n s e :
  truthy (_salt s) = true ->
  wp (writeOperation P n) s e (fun r s1 e1 => _salt s1 = _salt s).
Proof.
  intros Hs. unfold writeOperation.
  repeat wp_salt; cbn; congruence.
Qed.

Lemma mergeAndWrite_salt a u s e :
  truthy (_salt s) = true ->
  wp (mergeAndWrite P a u) s e (fun r s1 e1 => _salt s1 = _salt s).
Proof.
  intros Hs. unfold mergeAndWrite, mergeOperation.
  repeat wp_salt; cbn; congruence.
Qed.

Lemma submit_salt op s e :
  truthy (_salt s) = true ->
  wp (submit P op) s e (fun r s1 e1 => _salt s1 = _salt s).
Proof.
  intros Hs. destruct op as [tokens|a u]; cbn [submit].
  - pose proof (writeOperation_salt (normalize tokens) s e Hs) as H.
    unfold wp, writeAll, catch_, then_, mbind, M_bind, bind, get_store, settle,
      try_catch, modify_store, of_outcome, log_error, modify_env, throw in *.
    destruct (_writeQueue s) as [[]|err0]; [|reflexivity].
    destruct (writeOperation P (normalize tokens) s e) as [[[[]|err] sb] eb];
      exact H.
  - pose proof (mergeAndWrite_salt a u s e Hs) as H.
    unfold wp, mergeActiveTokens, catch_, then_, mbind, M_bind, bind, get_store,
      settle, try_catch, modify_store, of_outcome, log_error, modify_env, throw in *.
    destruct (_writeQueue s) as [[]|err0]; [|reflexivity].
    destruct (mergeAndWrite P a u s e) as [[[[]|err] sb] eb]; exact H.
Qed.

(** Property X8.  Once [_salt] is truthy no method changes it, in any
    world and whatever fails.  On a reliable file system the document
    [writeAll] leaves carries that salt, whatever salt the file had. *)
Theorem store_keeps_its_salt s e :
  truthy (_salt s) = true ->
  (forall c, wp (perform P c) s e (fun r s1 e1 => _salt s1 = _salt s)) /\
  (reliable P -> _writeQueue s = Fulfilled tt ->
   forall tokens,
     wp (writeAll P tokens) s e (fun r s1 e1 =>
       r = Fulfilled tt /\
       file e1 =
       Some (JSON_stringify P (fileData (_salt s) (VArr (normalize tokens)))))).
Proof.
  intros Hs. split.
  - intros [| |tokens|a u]; cbn [perform].
    + apply wp_bind. eapply wp_mono; [apply readAll_spec|]. cbn beta.
      intros r s1 e1 (H & _). destruct r; exact H.
    + apply wp_bind. apply wp_getSalt_cached; [exact Hs | reflexivity].
    + apply (submit_salt (OpWriteAll tokens) s e Hs).
    + apply (submit_salt (OpMerge a u) s e Hs).
  - intros Hr Hq tokens.
    pose proof (submit_salt (OpWriteAll tokens) s e Hs) as H1.
    pose proof (writeAll_persists P tokens s e Hr Hq) as H2.
    cbn [submit] in H1. unfold wp in *.
    destruct (writeAll P tokens s e) as [[r s1] e1].
    destruct H2 as (-> & Hfile & _). split; [reflexivity | now rewrite <- H1].
Qed.

End Salt.

(** ** Reading *)

Section Reading.
Context (P : Platform).

(** Property X4.  The sequence [readAll] returns is the cache it leaves, or
    empty when it leaves none.  [readAll] is rejected only when the write
    that creates a missing file fails: the fields of the store and the file
    are then as they were.  When the file exists and [fs.access] sees it,
    [readAll] is fulfilled and leaves the file as it is, whatever the file
    holds and whether the read fails or not. *)
Theorem readAll_rejects_only_when_creation_fails s e :
  wp (readAll P) s e (fun r s1 e1 =>
    (forall l, r = Fulfilled l -> l = default [] (_cache s1)) /\
    (forall err, r = Rejected err -> s1 = s /\ creation_failed P e e1 err) /\
    (access_never_fails P -> file e <> None ->
       (exists l, r = Fulfilled l) /\ file e1 = file e)).
Proof.
  unfold readAll, _isCacheValid, stale_or_empty; unfold return_cache.
  repeat wp_more.
  all: cbn in *.
  all: split;
    [intros l' Hl;
     first [discriminate Hl
           | injection Hl as <-;
             repeat match goal with H : _cache _ = _ |- _ => rewrite H end;
             reflexivity]|].
  all: split; [intros err' Herr; first [discriminate Herr | injection Herr as <-; auto]|].
  all: intros Ha Hf; saturate; try discriminate; eauto.
Qed.

Lemma readAll_from_disk s e data R :
  reliable P -> _cache s = None \/ expired P s e -> file e = Some data ->
  persisted_tokens P e = Some R ->
  wp (readAll P) s e (fun r s1 e1 =>
    r = Fulfilled R /\
    s1 = set_cacheTime (now e) (set_lastReadOk true (set_cache (Some R) s)) /\
    e1 = add_event (completed ReadFile)
           (add_event (completed Access) (add_event (completed Mkdir) e))).
Proof.
  intros Hr Hold Hf Hdisk.
  assert (access_never_fails P) as Ha by (intros h; apply Hr).
  assert (file e <> None) as Hsome by congruence.
  unfold persisted_tokens in Hdisk. rewrite Hf in Hdisk.
  unfold readAll, _isCacheValid, stale_or_empty; unfold return_cache.
  repeat wp_existing Ha Hsome.
  all: cbn in *.
  all: try (destruct Hold as [Hold|Hold]; [congruence|];
            unfold expired in Hold; apply Z.ltb_lt in Heqb; lia).
  all: no_fault Hr.
  all: try congruence.
  all: same_file data.
  all: same_parse Hdisk.
  all: simplify_eq/=.
  all: rewrite Hr; repeat split.
Qed.

(** Property X10.  With no cache, or a cache older than the window,
    [readAll] takes the records of a file in either layout: an array, or an
    object whose [tokens] is an array, whatever else the object holds.  It
    returns them, caches them with the time of the read and a true health
    flag, and makes three calls that change nothing: it does not rewrite an
    old file in the new layout, and the salt is not loaded. *)
Theorem readAll_takes_both_layouts s e data R :
  reliable P -> _cache s = None \/ expired P s e -> file e = Some data ->
  (JSON_parse P (text_of data) = Some (VArr R) \/
   exists o, JSON_parse P (text_of data) = Some (VObj o) /\
             lookup_prop "tokens" o = Some (VArr R)) ->
  wp (readAll P) s e (fun r s1 e1 =>
    r = Fulfilled R /\ cache_state s1 = (Some R, now e, true) /\
    _salt s1 = _salt s /\ file e1 = Some data /\
    calls_between e e1 [completed Mkdir; completed Access; completed ReadFile]).
Proof.
  intros Hr Hold Hf Hshape.
  eapply wp_mono.
  - apply (readAll_from_disk s e data R Hr Hold Hf).
    unfold persisted_tokens. rewrite Hf.
    destruct Hshape as [->|(o & -> & ->)]; reflexivity.
  - cbn beta. intros r s1 e1 (-> & -> & ->).
    repeat split; [exact Hf|].
    unfold calls_between. cbn. now rewrite <- !app_assoc.
Qed.

Lemma readAll_unreadable s e data :
  _cache s = None -> access_never_fails P -> file e = Some data ->
  unreadable P data ->
  wp (readAll P) s e (fun r s1 e1 =>
    r = Fulfilled [] /\ s1 = set_lastReadOk false s /\
    file e1 = Some data /\ salts_drawn e1 = salts_drawn e /\
    (exists made res,
       calls_between e e1
         [FsEvent Mkdir made; completed Access; FsEvent ReadFile res]) /\
    exists line, log e1 = (log e ++ [line])%list /\ read_failure_line line).
Proof.
  intros Hc Ha Hf Hbad.
  assert (file e <> None) as Hsome by congruence.
  unfold unreadable in Hbad.
  unfold readAll, _isCacheValid, stale_or_empty; unfold return_cache.
  repeat wp_existing Ha Hsome.
  all: cbn in *.
  all: try congruence.
  all: same_file data.
  all: same_parse Hbad.
  all: try discriminate.
  all: do 4 (split; [try reflexivity; congruence|]).
  all: split;
    [do 2 eexists; unfold calls_between; cbn; rewrite <- ?app_assoc; reflexivity|].
  all: eexists; split; [reflexivity|].
  all: first [now left | right; failure_named].
Qed.

Lemma readAll_stale s e c data :
  _cache s = Some c -> expired P s e -> access_never_fails P ->
  file e = Some data -> unreadable P data ->
  wp (readAll P) s e (fun r s1 e1 =>
    r = Fulfilled c /\ s1 = set_cacheTime (now e) (set_lastReadOk false s) /\
    file e1 = Some data).
Proof.
  intros Hc Hexp Ha Hf Hbad.
  assert (file e <> None) as Hsome by congruence.
  unfold unreadable in Hbad. unfold expired in Hexp.
  unfold readAll, _isCacheValid, stale_or_empty; unfold return_cache.
  repeat wp_existing Ha Hsome.
  all: cbn in *.
  all: try (apply Z.ltb_lt in Heqb; lia).
  all: try congruence.
  all: same_file data.
  all: same_parse Hbad.
  all: try discriminate.
  all: simplify_eq/=.
  all: repeat match goal with H : _cache _ = _ |- _ => rewrite H end.
  all: repeat split; congruence.
Qed.

(** Property X11.  With no cache, a [readAll] of a file whose text is no
    JSON, or JSON of neither layout, is fulfilled with an empty sequence,
    whether [fs.readFile] fails or not.  It sets the health flag to false and
    changes no other field: there is still no cache, and the timestamp is
    not renewed, so the next [readAll] reads the file again.  The file is
    left as it is and one line is logged. *)
Theorem readAll_of_an_unreadable_file_without_cache s e data :
  _cache s = None -> access_never_fails P -> file e = Some data ->
  unreadable P data ->
  wp (readAll P) s e (fun r s1 e1 =>
    r = Fulfilled [] /\ s1 = set_lastReadOk false s /\ file e1 = Some data /\
    (exists line, log e1 = (log e ++ [line])%list /\ read_failure_line line) /\
    forall e2, file e2 = Some data ->
      wp (readAll P) s1 e2 (fun r2 s2 e3 =>
        r2 = Fulfilled [] /\ s2 = s1 /\
        exists made res,
          calls_between e2 e3
            [FsEvent Mkdir made; completed Access; FsEvent ReadFile res])).
Proof.
  intros Hc Ha Hf Hbad.
  eapply wp_mono; [now apply (readAll_unreadable s e data)|]. cbn beta.
  intros r s1 e1 (-> & -> & Hf1 & _ & _ & Hlog).
  do 3 (split; [auto|]). split; [exact Hlog|].
  intros e2 Hf2.
  eapply wp_mono; [now apply (readAll_unreadable _ e2 data)|]. cbn beta.
  intros r2 s2 e3 (-> & -> & _ & _ & Hcalls & _).
  split; [reflexivity|]. split; [now destruct s | exact Hcalls].
Qed.


End Reading.

(** ** Spreading the same objects again *)

Lemma has_prop_spread k (a b : object) :
  has_prop k (spread a b) = has_prop k a || has_prop k b.
Proof.
  unfold has_prop. rewrite lookup_spread.
  destruct (lookup_prop k b), (lookup_prop k a); reflexivity.
Qed.

Lemma lookup_prop_In k v (o : object) :
  NoDup (map fst o) -> In (k, v) o -> lookup_prop k o = Some v.
Proof.
  induction o as [|[k0 v0] o IH]; cbn; [contradiction|].
  intros Hnd [[= -> ->]|Hin].
  - now rewrite String.eqb_refl.
  - apply NoDup_cons in Hnd as [Hk Hnd].
    destruct (String.eqb_spec k k0) as [->|Hne]; [|auto].
    destruct Hk. apply list_elem_of_In, in_map_iff. now exists (k0, v).
Qed.

Lemma has_prop_In k v (o : object) : In (k, v) o -> has_prop k o = true.
Proof.
  unfold has_prop. induction o as [|[k0 v0] o IH]; cbn; [contradiction|].
  intros [[= -> ->]|Hin]; [now rewrite String.eqb_refl|].
  destruct (String.eqb k k0); [reflexivity | auto].
Qed.

Lemma has_prop_map_keys k (f : string * value -> string * value) (o : object) :
  (forall kv, (f kv).1 = kv.1) -> has_prop k (map f o) = has_prop k o.
Proof.
  intros Hf. unfold has_prop. induction o as [|[k0 v0] o IH]; cbn; [reflexivity|].
  specialize (Hf (k0, v0)). destruct (f (k0, v0)) as [k1 v1]. cbn in *. subst k1.
  destruct (String.eqb k k0); [reflexivity | exact IH].
Qed.

Lemma spread_covered (x b : object) :
  covered x b -> spread x b = map (resolve [b]) x.
Proof.
  intros Hc. unfold spread.
  replace (List.filter (fun kv => negb (has_prop kv.1 x)) b) with (@nil (string * value)).
  - now rewrite app_nil_r.
  - symmetry. induction b as [|kv b IH]; cbn; [reflexivity|].
    rewrite (Hc kv) by now left. cbn. apply IH. intros kv' Hin. apply Hc. now right.
Qed.

Lemma spreads_covered bs : forall x,
  Forall (covered x) bs -> fold_left spread bs x = map (resolve bs) x.
Proof.
  induction bs as [|b bs IH]; intros x Hc; cbn.
  - clear Hc. induction x as [|[k v] x IHx]; [reflexivity|].
    cbn [map]. rewrite <- IHx. reflexivity.
  - apply Forall_cons in Hc as [Hb Hbs].
    rewrite (spread_covered x b Hb), IH.
    + rewrite map_map. apply map_ext. intros [k v]. reflexivity.
    + eapply Forall_impl; [exact Hbs|]. intros b' Hb' kv Hin.
      rewrite has_prop_map_keys by reflexivity. now apply Hb'.
Qed.

Lemma resolve_snoc bs b kv :
  resolve (bs ++ [b]) kv = resolve [b] (resolve bs kv).
Proof. unfold resolve. cbn. now rewrite fold_left_app. Qed.

(** After the objects [bs] have been spread over [x0], every name they have
    is there, with the value they give it. *)
Lemma spreads_settled bs : forall x0,
  Forall (fun b => NoDup (map fst b)) bs ->
  let x := fold_left spread bs x0 in
  Forall (covered x) bs /\ Forall (fun kv => resolve bs kv = kv) x.
Proof.
  induction bs as [|b bs IH] using rev_ind; intros x0 Hnd; cbn zeta.
  - split; [constructor|]. apply Forall_forall. now intros [k v] _.
  - apply Forall_app in Hnd as [Hbs Hb]. apply Forall_cons in Hb as [Hb _].
    destruct (IH x0 Hbs) as [Hc Hv]. rewrite fold_left_app. cbn.
    set (x := fold_left spread bs x0) in *. split.
    + apply Forall_app. split.
      * eapply Forall_impl; [exact Hc|]. intros b' Hb' kv Hin.
        rewrite has_prop_spread, (Hb' kv Hin). reflexivity.
      * constructor; [|constructor]. intros kv Hin.
        rewrite has_prop_spread. destruct kv as [k v]. cbn.
        rewrite (has_prop_In k v b Hin). apply Bool.orb_true_r.
    + unfold spread. apply Forall_app. split.
      * apply Forall_map. eapply Forall_impl; [exact Hv|].
        intros [k v] Hkv. rewrite resolve_snoc. unfold resolve in *. cbn in *.
        injection Hkv as Hkv.
        destruct (lookup_prop k b) as [w|] eqn:Hw; cbn; [reflexivity | congruence].
      * apply Forall_forall. intros [k v] Hin%list_elem_of_In.
        apply filter_In in Hin as [Hin _].
        rewrite resolve_snoc. unfold resolve. cbn.
        now rewrite (lookup_prop_In k v b Hb Hin).
Qed.

Lemma map_fixed {A} (f : A -> A) (l : list A) :
  Forall (fun a => f a = a) l -> map f l = l.
Proof. induction 1 as [|a l Ha _ IH]; cbn; [reflexivity | now rewrite Ha, IH]. Qed.

Lemma spreads_again bs x0 :
  Forall (fun b => NoDup (map fst b)) bs ->
  fold_left spread bs (fold_left spread bs x0) = fold_left spread bs x0.
Proof.
  intros Hnd. destruct (spreads_settled bs x0 Hnd) as [Hc Hv]. cbn zeta in *.
  rewrite (spreads_covered bs _ Hc). now apply map_fixed.
Qed.

(** ** Overlaying and applying the same records again *)

Lemma own_props_overlays ts : forall d,
  own_props (fold_left overlay ts d) =
  fold_left spread (map plain_of ts) (own_props d).
Proof. induction ts as [|t ts IH]; intros d; cbn; [reflexivity | now rewrite IH]. Qed.

Lemma overlays_object ts d :
  ts <> [] -> fold_left overlay ts d = VObj (own_props (fold_left overlay ts d)).
Proof.
  induction ts as [|t ts IH] using rev_ind; [congruence|]. intros _.
  rewrite fold_left_app. reflexivity.
Qed.

Lemma NoDup_omit k (o : object) :
  NoDup (map fst o) -> NoDup (map fst (omit k o)).
Proof.
  unfold omit. induction o as [|[k0 v0] o IH]; cbn; [auto|].
  intros [Hk Hnd]%NoDup_cons. destruct (negb (String.eqb k0 k)); cbn; [|auto].
  apply NoDup_cons. split; [|auto].
  intros Hin. apply Hk. apply list_elem_of_In, in_map_iff in Hin as ([k1 v1] & <- & Hin).
  apply filter_In in Hin as [Hin _].
  apply list_elem_of_In, in_map_iff. now exists (k1, v1).
Qed.

Lemma overlays_again ts d :
  Forall distinct_names ts ->
  fold_left overlay ts (fold_left overlay ts d) = fold_left overlay ts d.
Proof.
  intros Hnd. destruct ts as [|t ts]; [reflexivity|].
  rewrite (overlays_object (t :: ts) (fold_left overlay (t :: ts) d)) by discriminate.
  rewrite (overlays_object (t :: ts) d) at 2 by discriminate.
  f_equal. rewrite own_props_overlays, own_props_overlays.
  apply spreads_again. apply Forall_map.
  eapply Forall_impl; [exact Hnd|]. intros t' Ht'. now apply NoDup_omit.
Qed.

Lemma hits_akin l l' i acts :
  Forall2 akin l l' -> hits l' i acts = hits l i acts.
Proof.
  intros H. unfold hits. induction acts as [|t acts IH]; cbn; [reflexivity|].
  now rewrite (akin_first_match t l l' H), IH.
Qed.

Lemma hits_sublist l i acts (Q : value -> Prop) :
  Forall Q acts -> Forall Q (hits l i acts).
Proof.
  unfold hits. induction 1 as [|t acts Ht _ IH]; cbn; [constructor|].
  destruct (truthy t && _); [constructor|]; auto.
Qed.

(** Every position ends with its record overlaid with the active records
    that find it, in their order. *)
Lemma applyUpdates_hits activeTokens : forall allTokens out,
  Forall (fun d => d <> VNull) allTokens ->
  applyUpdates allTokens activeTokens = Fulfilled out ->
  length out = length allTokens /\
  forall i d, allTokens !! i = Some d ->
    out !! i = Some (fold_left overlay (hits allTokens i activeTokens) d).
Proof.
  induction activeTokens as [|t0 rest IH]; intros allTokens out Hall Hrun.
  { cbn in Hrun. injection Hrun as <-. auto. }
  cbn in Hrun.
  destruct (applyUpdate_cases allTokens t0 Hall)
    as [[E Hnone]|(i0 & d0 & Ht0 & Hm0 & Hd0 & Hsame & E)];
    rewrite E in Hrun.
  - destruct (IH allTokens out Hall Hrun) as [Hlen Hget]. split; [exact Hlen|].
    intros i d Hi. rewrite (Hget i d Hi). unfold hits at 2. cbn [List.filter].
    destruct (truthy t0) eqn:Ht; cbn [andb]; [|reflexivity].
    rewrite (Hnone eq_refl). rewrite bool_decide_eq_false_2 by discriminate.
    reflexivity.
  - set (all1 := <[i0:=overlay d0 t0]> allTokens) in *.
    assert (Forall2 akin allTokens all1) as Hakin.
    { apply (Forall2_akin_insert _ _ d0); [exact Hd0|].
      apply akin_overlay; eauto using truthy_not_null, matched_not_null. }
    pose proof (akin_not_null _ _ Hakin Hall) as Hall1.
    destruct (IH all1 out Hall1 Hrun) as [Hlen Hget]. split.
    { rewrite Hlen. apply length_insert. }
    intros i d Hi. unfold hits at 1. cbn [List.filter]. rewrite Ht0, Hm0. cbn [andb].
    fold (hits allTokens i rest). rewrite <- (hits_akin _ _ i rest Hakin).
    destruct (decide (i = i0)) as [->|Hne].
    + assert (d = d0) as -> by congruence.
      rewrite bool_decide_eq_true_2 by reflexivity. cbn [fold_left].
      apply Hget. apply list_lookup_insert_eq. now apply lookup_lt_Some in Hd0.
    + rewrite bool_decide_eq_false_2 by congruence.
      apply Hget. unfold all1. now rewrite list_lookup_insert_ne.
Qed.

Lemma applyUpdates_again activeTokens allTokens out :
  Forall (fun d => d <> VNull) allTokens ->
  Forall distinct_names activeTokens ->
  applyUpdates allTokens activeTokens = Fulfilled out ->
  applyUpdates out activeTokens = Fulfilled out.
Proof.
  intros Hall Hnd Hrun.
  destruct (applyUpdates_akin activeTokens allTokens Hall) as (out' & E & Hakin).
  assert (out' = out) as -> by congruence. clear E.
  pose proof (akin_not_null _ _ Hakin Hall) as Hall'.
  destruct (applyUpdates_akin activeTokens out Hall') as (out2 & E2 & _).
  rewrite E2. f_equal.
  destruct (applyUpdates_hits _ _ _ Hall Hrun) as [Hlen Hget].
  destruct (applyUpdates_hits _ _ _ Hall' E2) as [Hlen2 Hget2].
  apply list_eq. intros i.
  destruct (allTokens !! i) as [d|] eqn:Hi.
  - rewrite (Hget2 i _ (Hget i d Hi)), (Hget i d Hi).
    rewrite (hits_akin _ _ i activeTokens Hakin). f_equal.
    apply overlays_again. now apply hits_sublist.
  - apply lookup_ge_None in Hi.
    rewrite (lookup_ge_None_2 out i) by lia.
    apply lookup_ge_None_2. lia.
Qed.

Lemma applyUpdate_again allTokens t out :
  Forall (fun d => d <> VNull) allTokens -> distinct_names t ->
  applyUpdate allTokens t = Fulfilled out ->
  applyUpdate out t = Fulfilled out.
Proof.
  intros Hall Hnd Hrun.
  pose proof (applyUpdates_again [t] allTokens out Hall) as H. cbn in H.
  rewrite Hrun in H. specialize (H (Forall_cons_2 _ _ _ Hnd (Forall_nil_2 _)) eq_refl).
  destruct (applyUpdate out t); congruence.
Qed.

(** Over a sequence that is not empty, a merge that is made again with the
    same arguments returns what it was given. *)
Lemma merge_again ok ok' allTokens a u merged :
  allTokens <> [] -> Forall not_null allTokens ->
  Forall distinct_names (normalize a) -> distinct_names u ->
  merge ok allTokens a u = Fulfilled (Some merged) ->
  merge ok' merged a u = Fulfilled (Some merged).
Proof.
  intros Hne Hall Ha Hu Hm.
  destruct (merge_total ok allTokens a u Hall (fun E => False_ind _ (Hne E))
              (or_intror Hne)) as (merged' & Hm' & _ & _ & Hakin).
  assert (merged' = merged) as -> by congruence.
  specialize (Hakin Hne).
  assert (merged <> []) as Hne'.
  { intros ->. apply Forall2_length in Hakin. destruct allTokens; [congruence|discriminate]. }
  rewrite (merge_nonempty _ _ _ _ Hne) in Hm. rewrite (merge_nonempty _ _ _ _ Hne').
  destruct (truthy u).
  - destruct (applyUpdate allTokens u) as [out|] eqn:E; [|discriminate].
    injection Hm as ->. now rewrite (applyUpdate_again _ _ _ Hall Hu E).
  - destruct (negb (is_empty (normalize a))); [|congruence].
    destruct (applyUpdates allTokens (normalize a)) as [out|] eqn:E; [|discriminate].
    injection Hm as ->. now rewrite (applyUpdates_again _ _ _ Hall Ha E).
Qed.

(** ** Merging *)

Section Merging.
Context (P : Platform).


(** Property X13.  Over a file that holds no record, read without failure,
    a merge persists the active records, all of them and in their order,
    each without its session field and with every other property it has;
    the single record that may come with them plays no part. *)
Theorem merge_fills_an_empty_store acts tokenToUpdate s e data :
  reliable P -> _writeQueue s = Fulfilled tt ->
  _cache s = None \/ expired P s e -> file e = Some data ->
  persisted_tokens P e = Some [] ->
  acts <> [] -> Forall not_null acts ->
  wp (mergeActiveTokens P (VArr acts) tokenToUpdate) s e (fun r s1 e1 =>
    r = Fulfilled tt /\
    persisted P s1 e1 (map (fun t => VObj (plain_of t)) acts)) /\
  (forall t k,
     lookup_prop k (plain_of t) =
     if String.eqb k "sessionId" then None else lookup_prop k (own_props t)).
Proof.
  intros Hr Hq Hold Hf Hdisk Hne Hall.
  split; [|intros t k; apply lookup_omit].
  pose proof (readAll_from_disk P s e data [] Hr Hold Hf Hdisk) as Hread.
  apply wp_run in Hread. destruct Hread as (r & sa & ea & Hread & -> & Hsa & _).
  eapply (merge_persists P _ _ s e [] sa ea); eauto.
  subst sa. cbn.
  unfold merge. cbn.
  destruct acts as [|t acts]; [congruence|]. cbn [is_empty negb].
  now rewrite (map_strip_spec _ Hall).
Qed.

(** Property X14.  A merge over records read from the store, made again
    with the same arguments before the freshness window has passed, persists
    the sequence the first merge persisted: applying the same active records
    (or the same single record) to their own result changes nothing.  The
    records are objects, with no property name twice. *)
Theorem merging_again_changes_nothing
    activeTokens tokenToUpdate s e allTokens sa ea :
  reliable P -> _writeQueue s = Fulfilled tt ->
  readAll P s e = (Fulfilled allTokens, sa, ea) ->
  allTokens <> [] -> Forall not_null allTokens ->
  Forall distinct_names (normalize activeTokens) -> distinct_names tokenToUpdate ->
  exists merged,
    wp (mergeActiveTokens P activeTokens tokenToUpdate) s e (fun r s1 e1 =>
      r = Fulfilled tt /\ persisted P s1 e1 merged /\
      forall e2, now e2 - now e < FILE_CACHE_TTL P ->
        wp (mergeActiveTokens P activeTokens tokenToUpdate) s1 e2 (fun r2 s2 e3 =>
          r2 = Fulfilled tt /\ persisted P s2 e3 merged)).
Proof.
  intros Hr Hq Hread Hne Hall Ha Hu.
  destruct (merge_total (_lastReadOk sa) allTokens activeTokens tokenToUpdate
              Hall (fun E => False_ind _ (Hne E)) (or_intror Hne))
    as (merged & Hm & _).
  exists merged.
  pose proof (mergeOperation_after P activeTokens tokenToUpdate s e _ _ _ Hread) as Hop.
  cbn beta iota in Hop. rewrite Hm in Hop.
  pose proof (mergeAndWrite_after P activeTokens tokenToUpdate s e _ _ _ Hop) as H.
  pose proof (readAll_spec P s e) as Hnow. unfold wp in Hnow. rewrite Hread in Hnow.
  destruct Hnow as (_ & _ & Hnow & _).
  change (mergeActiveTokens P activeTokens tokenToUpdate)
    with (submit P (OpMerge activeTokens tokenToUpdate)).
  unfold wp at 1. rewrite (submit_runs_body _ _ s e Hq). cbn [body].
  unfold wp in H.
  destruct (mergeAndWrite P activeTokens tokenToUpdate s e) as [[rb sb] eb].
  destruct H as (_ & _ & Hrel). destruct (Hrel Hr) as (-> & Hc & Hfile).
  unfold cache_state in Hc. injection Hc as Hcache Htime Hflag.
  split; [reflexivity|]. split; [split; cbn; congruence|].
  intros e2 Hwin.
  assert (now (if negb (_lastReadOk sa) && is_empty allTokens
               then add_log Warn skip_line ea else ea) = now e) as Hnow'.
  { destruct (negb (_lastReadOk sa) && is_empty allTokens); cbn; exact Hnow. }
  eapply (merge_persists P _ _ _ e2 merged).
  - exact Hr.
  - reflexivity.
  - apply readAll_cached; cbn; [exact Hcache | now rewrite Htime, Hnow'].
  - cbn. eapply merge_again; eauto.
Qed.

(** Property X15.  The check that calls a merge off protects a file only
    while nothing is cached.  With records in a cache older than the window,
    a merge over a file that has become unreadable takes the cached records
    for the records of the store, applies the active records to them and
    writes the result over the file: the file is readable again, with the
    keys of the cached records, and the health flag is true. *)
Theorem merge_restores_the_file_from_the_cache
    activeTokens tokenToUpdate s e c data :
  reliable P -> _writeQueue s = Fulfilled tt ->
  _cache s = Some c -> c <> [] -> Forall not_null c -> expired P s e ->
  file e = Some data -> unreadable P data ->
  exists merged,
    wp (mergeActiveTokens P activeTokens tokenToUpdate) s e (fun r s1 e1 =>
      r = Fulfilled tt /\ persisted P s1 e1 merged /\ _lastReadOk s1 = true) /\
    map key_of merged = map key_of c.
Proof.
  intros Hr Hq Hc Hne Hall Hexp Hf Hbad.
  assert (access_never_fails P) as Ha by (intros h; apply Hr).
  pose proof (readAll_stale P s e c data Hc Hexp Ha Hf Hbad) as Hread.
  apply wp_run in Hread. destruct Hread as (r & sa & ea & Hread & -> & Hsa & _).
  destruct (merge_total (_lastReadOk sa) c activeTokens tokenToUpdate
              Hall (fun E => False_ind _ (Hne E)) (or_intror Hne))
    as (merged & Hm & Hk & _).
  exists merged. split.
  - pose proof (mergeOperation_after P activeTokens tokenToUpdate s e _ _ _ Hread) as Hop.
    cbn beta iota in Hop. rewrite Hm in Hop.
    pose proof (mergeAndWrite_after P activeTokens tokenToUpdate s e _ _ _ Hop) as H.
    change (mergeActiveTokens P activeTokens tokenToUpdate)
      with (submit P (OpMerge activeTokens tokenToUpdate)).
    unfold wp. rewrite (submit_runs_body _ _ s e Hq). cbn [body].
    unfold wp in H.
    destruct (mergeAndWrite P activeTokens tokenToUpdate s e) as [[rb sb] eb].
    destruct H as (_ & _ & Hrel). destruct (Hrel Hr) as (-> & Hcs & Hfile).
    unfold cache_state in Hcs. injection Hcs as Hcache Htime Hflag.
    split; [reflexivity|]. split; [split; cbn; congruence | exact Hflag].
  - unfold merge_source in Hk. destruct c; [congruence | exact Hk].
Qed.

End Merging.

(** ** A write that fails *)

Section Failing.
Context (P : Platform).

Lemma atomicWrite_outcome content s e :
  wp (_atomicWrite P content) s e (fun r s1 e1 =>
    s1 = s /\ now e1 = now e /\ log e1 = log e /\
    exists evs, calls_between e e1 evs /\
      match r with
      | Fulfilled _ => file e1 = Some content
      | Rejected _ => file e1 = if existsb unlink_done evs then None else file e
      end).
Proof.
  unfold wp, _atomicWrite, atomicWrite_cleanup, rename_onto_target,
    fs_open_temp, handle_writeFile, handle_sync, handle_close, fs_rename,
    fs_unlink, fs_unlink_temp,
    mbind, M_bind, mret, M_ret, bind, ret, settle, try_catch, throw, fs_call.
  cbn.
  repeat (fs_case; cbn).
  all: do 3 (split; [reflexivity|]).
  all: eexists; split;
    [unfold calls_between; cbn; rewrite <- ?app_assoc; cbn; reflexivity|].
  all: cbn; try reflexivity; congruence.
Qed.

(** Property X22. With the salt loaded and the file in place, [writeAll]
    fulfils whatever happens, and does all or nothing: either the file holds
    the new document and the cache the new records, with nothing logged, or
    the cache, its time and the flag are as before, the file is the old one
    (or gone, when the retry had removed it before the rename failed again),
    and the failure is logged twice, by the write step and by the queue. *)
Theorem writeAll_is_all_or_nothing tokens s e data :
  _writeQueue s = Fulfilled tt -> truthy (_salt s) = true ->
  access_never_fails P -> file e = Some data ->
  wp (writeAll P tokens) s e (fun r s1 e1 =>
    r = Fulfilled tt /\
    exists evs, calls_between e e1 evs /\
      ((persisted P s1 e1 (normalize tokens) /\
        cache_state s1 = (Some (normalize tokens), now e, true) /\
        log e1 = log e)
       \/
       (cache_state s1 = cache_state s /\
        file e1 = (if existsb unlink_done evs then None else Some data) /\
        exists err,
          log e1 = (log e ++ [save_failure_line err;
                              (Error, queue_line (OpWriteAll tokens) err)])%list))).
Proof.
  intros Hq Hs Ha Hf.
  assert (file e <> None) as Hsome by congruence.
  change (writeAll P tokens) with (submit P (OpWriteAll tokens)).
  unfold wp. rewrite (submit_runs_body _ _ s e Hq). cbn [body].
  unfold writeOperation, mbind, M_bind, bind.
  rewrite (ensure_existing P s e Ha Hsome).
  set (e0 := add_event (completed Access) _).
  rewrite (getSalt_cached P s e0 Hs).
  pose proof (atomicWrite_outcome
                (JSON_stringify P (fileData (_salt s) (VArr (normalize tokens))))
                s e0) as H.
  unfold wp in H. unfold try_catch.
  destruct (_atomicWrite P _ s e0) as [[[[]|err] s1] e1];
    destruct H as (-> & Hnow & Hlog & evs & Hcalls & Hfile).
  - cbn. split; [reflexivity|].
    exists ([FsEvent Mkdir (SystemError <$> fs_fault P (trace e) Mkdir);
             completed Access] ++ evs)%list.
    split.
    { unfold calls_between in *. rewrite Hcalls. unfold e0. cbn.
      now rewrite <- !app_assoc. }
    left. repeat split; cbn; try congruence.
    + unfold cache_state. cbn. now rewrite Hnow.
    + now rewrite Hlog.
  - cbn. split; [reflexivity|].
    exists ([FsEvent Mkdir (SystemError <$> fs_fault P (trace e) Mkdir);
             completed Access] ++ evs)%list.
    split.
    { unfold calls_between in *. cbn. rewrite Hcalls. unfold e0. cbn.
      now rewrite <- !app_assoc. }
    right. split; [reflexivity|]. split.
    + cbn. rewrite Hfile. unfold e0. cbn. now rewrite Hf.
    + exists err. unfold save_failure_line. rewrite Hlog. unfold e0. cbn.
      now rewrite <- app_assoc.
Qed.

End Failing.

(** ** The model groups *)

Lemma prefix_app p q s : String.prefix (p ++ q) s = true -> String.prefix p s = true.
Proof.
  revert s. induction p as [|c p IH]; intros s.
  - now destruct s.
  - change (String c p ++ q) with (String c (p ++ q)).
    destruct s as [|c' s]; cbn [String.prefix]; [discriminate|].
    destruct (Ascii.ascii_dec c c'); [apply IH | discriminate].
Qed.

Lemma includes_app s p q : includes s (p ++ q) = true -> includes s p = true.
Proof.
  induction s as [|c s IH]; cbn [includes].
  - rewrite !Bool.orb_false_r. apply prefix_app.
  - intros [H|H]%Bool.orb_true_iff; apply Bool.orb_true_iff.
    + left. now apply (prefix_app p q).
    + right. now apply IH.
Qed.

Section GroupFacts.
Variable toLowerCase : string -> string.


(** Property X17.  Every identifier of the group [banana] would pass the
    test of the group [gemini]: its lower case includes [gemini].  It is
    only the order of the two tests that keeps the image models out of
    [gemini].  None of them includes [claude]. *)
Theorem getGroupKey_banana_is_gemini s :
  getGroupKey toLowerCase (Some (VStr s)) = Fulfilled "banana" ->
  includes (toLowerCase s) "gemini" = true /\
  includes (toLowerCase s) "claude" = false.
Proof.
  unfold getGroupKey. cbn [truthy_opt].
  destruct (truthy (VStr s)); cbn [negb]; [|discriminate].
  cbv zeta. destruct (includes (toLowerCase s) "claude"); [discriminate|].
  destruct (includes (toLowerCase s) "gemini-3-pro-image") eqn:E.
  - intros _. split; [|reflexivity].
    apply (includes_app _ "gemini" "-3-pro-image"). exact E.
  - destruct (_ || _); discriminate.
Qed.

End GroupFacts.

(** ** The Vercel adapter *)

Lemma env_or_cases env name fallback :
  EdgeConfig.env_or env name fallback = fallback \/
  exists s, s <> "" /\ env name = Some s /\
            EdgeConfig.env_or env name fallback = VStr s.
Proof.
  unfold EdgeConfig.env_or. destruct (env name) as [s|]; [|now left].
  destruct (String.eqb_spec s ""); [now left | right; eauto].
Qed.

(** Property X18.  Outside Vercel [getVercelEnvConfig] returns [null].  On
    Vercel it returns an object with the seven names, in their order.  A
    variable that is set to a text that is not empty is reported with it; a
    variable that is not set, or is set to the empty text, is reported as
    [null], except [SYSTEM_INSTRUCTION], which is then the empty text: no
    other property is ever an empty text. *)
Theorem getVercelEnvConfig_fields (vercel : bool) (env : EdgeConfig.environment) :
  if vercel then
    exists o,
      EdgeConfig.getVercelEnvConfig vercel env = VObj o /\
      map fst o = config_names /\
      (forall name s, In name config_names -> env name = Some s -> s <> "" ->
         lookup_prop name o = Some (VStr s)) /\
      (forall name, In name config_names ->
         env name = None \/ env name = Some "" ->
         lookup_prop name o =
         Some (if String.eqb name "SYSTEM_INSTRUCTION" then VStr "" else VNull)) /\
      (forall name, lookup_prop name o = Some (VStr "") ->
         name = "SYSTEM_INSTRUCTION")
  else EdgeConfig.getVercelEnvConfig vercel env = VNull.
Proof.
  destruct vercel; [|reflexivity].
  eexists. split; [reflexivity|]. split; [reflexivity|]. split; [|split].
  - intros name s Hin Hs Hne. apply String.eqb_neq in Hne.
    cbn in Hin. unfold EdgeConfig.env_or.
    repeat destruct Hin as [<-|Hin]; try contradiction; cbn; now rewrite Hs, Hne.
  - intros name Hin Hs. cbn in Hin. unfold EdgeConfig.env_or.
    repeat destruct Hin as [<-|Hin]; try contradiction; cbn;
      destruct Hs as [-> | ->]; reflexivity.
  - intros name. cbn.
    repeat match goal with
    | |- context [String.eqb name ?k] =>
        destruct (String.eqb_spec name k) as [->|_]
    end; try discriminate; try reflexivity.
    all: intros [= H];
      match type of H with
      | EdgeConfig.env_or ?e ?n ?f = _ =>
          destruct (env_or_cases e n f) as [E|(s & Hs & _ & E)];
          rewrite E in H; congruence
      end.
Qed.

Section AdapterFacts.
Variable EDGE_CONFIG : option string.
Variable new_URL : string -> string + EdgeConfig.URL.
Variable fetch : string -> string + EdgeConfig.Response.

(** Property X19.  [getEdgeConfig] answers every failure with [null]: it
    returns another value only when the one request it made came back with
    [ok] and a body that parsed, and the value is then that body.  It makes
    at most one request, to the item of the key under the connection's
    address, and none when there is no connection text or the text is no
    URL. *)
Theorem getEdgeConfig_gives_null_on_failure key :
  let '(config, _) := EdgeConfig.parseEdgeConfigUrl EDGE_CONFIG new_URL in
  let '(result, events) := EdgeConfig.getEdgeConfig EDGE_CONFIG new_URL fetch key in
  (length (List.filter is_fetch events) <= 1)%nat /\
  (config = None -> result = VNull /\ List.filter is_fetch events = []) /\
  (result <> VNull ->
     exists c response,
       config = Some c /\
       let url := EdgeConfig.baseUrl c ++ "/" ++ EdgeConfig.configId c ++ "/item/"
                  ++ key ++ "?token=" ++ EdgeConfig.token_text (EdgeConfig.token c) in
       events = [EdgeConfig.Fetched url] /\
       fetch url = inr response /\
       EdgeConfig.response_ok response = true /\
       EdgeConfig.response_json response = inr result).
Proof.
  unfold EdgeConfig.getEdgeConfig, EdgeConfig.parseEdgeConfigUrl, EdgeConfig.read_error.
  destruct EDGE_CONFIG as [text|]; [|cbn; repeat split; (lia || congruence)].
  destruct (String.eqb text ""); [cbn; repeat split; (lia || congruence)|].
  destruct (new_URL text) as [reason|parsed];
    [cbn; repeat split; (lia || congruence)|].
  cbv zeta. cbn [EdgeConfig.baseUrl EdgeConfig.configId EdgeConfig.token].
  match goal with |- context [fetch ?u] => set (target := u) end.
  destruct (fetch target) as [reason|response] eqn:Hfetch;
    [cbn; repeat split; (lia || congruence)|].
  destruct (EdgeConfig.response_ok response) eqn:Hok; cbn [negb].
  - destruct (EdgeConfig.response_json response) as [reason|data] eqn:Hjson;
      [cbn; repeat split; (lia || congruence)|].
    cbn. split; [lia|]. split; [congruence|].
    intros _. eexists _, response. cbn.
    repeat split; eauto.
  - destruct (EdgeConfig.response_status response =? 404);
      [cbn; repeat split; (lia || congruence)|].
    destruct (EdgeConfig.response_text response);
      cbn; repeat split; (lia || congruence).
Qed.

End AdapterFacts.

(** ** The serverless entry *)

Lemma slice_app p s : slice (String.length p) (p ++ s) = s.
Proof.
  induction p as [|c p IH]; [now destruct s|].
  change (String c p ++ s) with (String c (p ++ s)). exact IH.
Qed.

Lemma prefix_app_self p s : String.prefix p (p ++ s) = true.
Proof.
  induction p as [|c p IH]; [now destruct s|].
  change (String c p ++ s) with (String c (p ++ s)). cbn [String.prefix].
  destruct (Ascii.ascii_dec c c); [exact IH | congruence].
Qed.

Lemma append_cancel p a b : p ++ a = p ++ b -> a = b.
Proof.
  induction p as [|c p IH]; [auto|].
  change (String c p ++ a) with (String c (p ++ a)).
  change (String c p ++ b) with (String c (p ++ b)).
  intros [= H]. auto.
Qed.

Lemma append_append p q s : (p ++ q) ++ s = p ++ (q ++ s).
Proof.
  induction p as [|c p IH]; [reflexivity|].
  change (String c p ++ q) with (String c (p ++ q)).
  change (String c (p ++ q) ++ s) with (String c ((p ++ q) ++ s)).
  change (String c p ++ (q ++ s)) with (String c (p ++ (q ++ s))).
  now rewrite IH.
Qed.

Lemma or_else_left a b : a <> "" -> or_else a b = a.
Proof. intros H. unfold or_else. apply String.eqb_neq in H. now rewrite H. Qed.

Lemma slice_prefix p s :
  String.prefix p s = true -> p ++ slice (String.length p) s = s.
Proof.
  revert s. induction p as [|c p IH]; intros s; [now destruct s|].
  destruct s as [|c' s]; cbn [String.prefix]; [discriminate|].
  destruct (Ascii.ascii_dec c c') as [<-|]; [|discriminate].
  intros H. change (String c p ++ slice (String.length (String c p)) (String c s))
    with (String c (p ++ slice (String.length p) s)).
  now rewrite IH.
Qed.

Section EntryFacts.
Context {details : Type}.

Lemma normalizeUrl_after_the_prefix path (rest : details) :
  String.prefix "/" path = true ->
  normalizeUrl {| url := Some (API_PREFIX ++ path); details_of := rest |} = path.
Proof.
  intros Hp. destruct path as [|c tail]; [discriminate|].
  cbn [String.prefix] in Hp.
  destruct (Ascii.ascii_dec "/" c) as [<-|]; [|discriminate]. clear Hp.
  unfold normalizeUrl. cbn [url from_option id].
  rewrite or_else_left by discriminate.
  destruct (String.eqb_spec (API_PREFIX ++ String "/" tail) API_PREFIX) as [E|_].
  { apply (append_cancel API_PREFIX _ "") in E. discriminate. }
  destruct (String.eqb_spec (API_PREFIX ++ String "/" tail) (API_PREFIX ++ "/"))
    as [E|_]; cbn [orb].
  { apply append_cancel in E. now rewrite E. }
  assert (String.prefix (API_PREFIX ++ "/") (API_PREFIX ++ String "/" tail) = true)
    as ->.
  { replace (API_PREFIX ++ String "/" tail) with ((API_PREFIX ++ "/") ++ tail)
      by apply append_append.
    apply prefix_app_self. }
  rewrite slice_app. apply or_else_left. discriminate.
Qed.

(** Property X20.  The entry undoes the rewrite: for a request whose url
    is the prefix followed by a path that starts with a slash, whatever the
    path, the application is called with that path for url and with the
    rest of the request as it came. *)
Theorem handler_restores_the_path {response result : Type}
    (app : @request details -> response -> result) path rest res :
  String.prefix "/" path = true ->
  handler app {| url := Some (API_PREFIX ++ path); details_of := rest |} res
  = app {| url := Some path; details_of := rest |} res.
Proof.
  intros Hp. unfold handler. cbn [details_of].
  now rewrite normalizeUrl_after_the_prefix.
Qed.

(** Property X21.  [normalizeUrl] never returns an empty url: a request
    with no url, or an empty one, is given the root.  A url that starts with
    a slash is given one that does.  A url that does not start with the
    prefix is returned as it is. *)
Theorem normalizeUrl_gives_a_path (req : @request details) :
  let given := or_else (default "" (url req)) "/" in
  normalizeUrl req <> "" /\
  (String.prefix "/" given = true -> String.prefix "/" (normalizeUrl req) = true) /\
  (String.prefix API_PREFIX given = false -> normalizeUrl req = given).
Proof.
  unfold normalizeUrl. cbv zeta.
  set (u := or_else (default "" (url req)) "/").
  assert (u <> "") as Hu.
  { unfold u, or_else.
    destruct (String.eqb_spec (default "" (url req)) ""); [discriminate | assumption]. }
  destruct (String.eqb_spec u API_PREFIX) as [E|N1]; cbn [orb].
  { split; [discriminate|]. split; [intros _; exact (prefix_app_self "/" "")|].
    intros Hn. exfalso. rewrite E in Hn.
    assert (String.prefix API_PREFIX API_PREFIX = true) as Ht
      by exact (prefix_app_self API_PREFIX "").
    congruence. }
  destruct (String.eqb_spec u (API_PREFIX ++ "/")) as [E|N2].
  { split; [discriminate|]. split; [intros _; exact (prefix_app_self "/" "")|].
    intros Hn. exfalso. rewrite E in Hn.
    now rewrite (prefix_app_self API_PREFIX "/") in Hn. }
  destruct (String.prefix (API_PREFIX ++ "/") u) eqn:Hpre.
  - pose proof (slice_prefix _ _ Hpre) as Hs.
    pose proof (slice_prefix _ _ (prefix_app API_PREFIX "/" u Hpre)) as Hs'.
    assert (exists tail, slice (String.length API_PREFIX) u = String "/" tail)
      as [tail Htail].
    { rewrite <- Hs in Hs' at 2. rewrite append_append in Hs'.
      apply append_cancel in Hs'. rewrite Hs'. eauto. }
    rewrite Htail, or_else_left by discriminate.
    split; [discriminate|]. split; [intros _; exact (prefix_app_self "/" tail)|].
    intros Hn. exfalso. apply prefix_app in Hpre. congruence.
  - split; [exact Hu|]. split; [auto|]. reflexivity.
Qed.

End EntryFacts.

(** ** The theorems at work *)

Lemma node_reliable : reliable (node no_fault).
Proof. intros h op. reflexivity. Qed.

(** A write whose rename fails, submitted to a new store. *)
Lemma queue_swallows_failures_witness :
  let P := node (rename_fails EIO) in
  let op := OpWriteAll (VArr [token "k1" "a"]) in
  let '(rb, sb, eb) := body P op new_store (env_with None 0) in
  submit P op new_store (env_with None 0) =
  (Fulfilled tt, set_writeQueue (Fulfilled tt) sb,
   match rb with
   | Fulfilled _ => eb
   | Rejected err => add_log Error (queue_line op err) eb
   end)
  /\ reachable P (set_writeQueue (Fulfilled tt) sb).
Proof.
  exact (queue_swallows_failures (node (rename_fails EIO))
           (OpWriteAll (VArr [token "k1" "a"])) new_store (env_with None 0)
           (reach_new _)).
Defined.

(** Against claim C1: the body of this [writeAll] throws, and the promise
    the caller holds is fulfilled. *)
Lemma writeAll_failure_not_reported :
  let P := node (rename_fails EIO) in
  (writeOperation P [token "k1" "a"] new_store (env_with None 0)).1.1
    = Rejected (SystemError EIO) /\
  (writeAll P (VArr [token "k1" "a"]) new_store (env_with None 0)).1.1
    = Fulfilled tt.
Proof. vm_compute. split; reflexivity. Qed.

Lemma persisted_keys_witness :
  wp (writeAll (node no_fault) (VArr [token "k1" "a"; token "k1" "b"]))
     new_store (disk_with [token "k1" "old"; token "k2" "old"])
     (fun r s1 e1 =>
        r = Fulfilled tt /\
        persisted (node no_fault) s1 e1 [token "k1" "a"; token "k1" "b"]) /\
  exists merged,
    wp (mergeActiveTokens (node no_fault) (VArr [token "k2" "new"]) VNull)
       new_store (disk_with [token "k1" "old"; token "k2" "old"])
       (fun r s1 e1 => r = Fulfilled tt /\ persisted (node no_fault) s1 e1 merged) /\
    map key_of merged =
      map key_of (merge_source [token "k1" "old"; token "k2" "old"]
                    (VArr [token "k2" "new"])) /\
    (NoDup (map key_of (merge_source [token "k1" "old"; token "k2" "old"]
                          (VArr [token "k2" "new"]))) ->
     NoDup (map key_of merged)).
Proof.
  destruct (persisted_keys_are_those_of_the_source (node no_fault)
              (VArr [token "k1" "a"; token "k1" "b"])
              (VArr [token "k2" "new"]) VNull
              new_store (disk_with [token "k1" "old"; token "k2" "old"])
              node_reliable eq_refl) as [H1 H2].
  split; [exact H1|].
  eapply H2.
  - vm_compute. reflexivity.
  - repeat constructor; discriminate.
  - discriminate.
  - right. discriminate.
Defined.

(** Against claim C2: two records with one key, written and found in the
    file. *)
Lemma writeAll_persists_duplicate_keys :
  let '(r, s1, e1) :=
    writeAll (node no_fault) (VArr [token "k1" "a"; token "k1" "b"])
      new_store (env_with None 0) in
  r = Fulfilled tt /\
  persisted_tokens (node no_fault) e1 = Some [token "k1" "a"; token "k1" "b"] /\
  ~ NoDup (map key_of [token "k1" "a"; token "k1" "b"]).
Proof.
  vm_compute. split; [reflexivity|]. split; [reflexivity|].
  intros H. apply NoDup_cons in H. destruct H as [H _]. apply H. left.
Qed.

Lemma merge_adds_no_session_field_witness :
  wp (writeAll (node no_fault) (VArr [session_token "k1"]))
     new_store (disk_with [token "k1" "old"; token "k2" "old"])
     (fun r s1 e1 =>
        r = Fulfilled tt /\
        persisted (node no_fault) s1 e1 [session_token "k1"]) /\
  exists merged,
    wp (mergeActiveTokens (node no_fault) (VArr [session_token "k2"]) VNull)
       new_store (disk_with [token "k1" "old"; token "k2" "old"])
       (fun r s1 e1 => r = Fulfilled tt /\ persisted (node no_fault) s1 e1 merged) /\
    Forall (fun d => carries_session d = false) merged.
Proof.
  destruct (merge_adds_no_session_field (node no_fault)
              (VArr [session_token "k1"]) (VArr [session_token "k2"]) VNull
              new_store (disk_with [token "k1" "old"; token "k2" "old"])
              node_reliable eq_refl) as [H1 H2].
  split; [exact H1|].
  eapply H2.
  - vm_compute. reflexivity.
  - repeat constructor; discriminate.
  - discriminate.
  - right. discriminate.
  - repeat constructor.
Defined.

(** Against claim C3: a record with a session field, written and found in
    the file with it. *)
Lemma writeAll_persists_session_field :
  let '(r, s1, e1) :=
    writeAll (node no_fault) (VArr [session_token "k1"])
      new_store (env_with None 0) in
  r = Fulfilled tt /\
  persisted_tokens (node no_fault) e1 = Some [session_token "k1"] /\
  carries_session (session_token "k1") = true.
Proof. vm_compute. repeat split; reflexivity. Qed.

Lemma writeAll_then_readAll_witness :
  wp (writeAll (node no_fault) (VArr [token "k1" "a"; token "k2" "b"]))
     new_store (env_with None 100)
     (fun r s1 e1 =>
        r = Fulfilled tt /\
        wp (readAll (node no_fault)) s1 (set_now 9000 e1)
          (fun r2 s2 e3 =>
             r2 = Fulfilled [token "k1" "a"; token "k2" "b"] /\
             _cache s2 = Some [token "k1" "a"; token "k2" "b"])).
Proof.
  eassert (writeAll (node no_fault) (VArr [token "k1" "a"; token "k2" "b"])
             new_store (env_with None 100) = _) as E
    by (vm_compute; reflexivity).
  pose proof (spec_of _ _ _ _ _ _ _
                (writeAll_then_readAll (node no_fault)
                   [token "k1" "a"; token "k2" "b"]
                   new_store (env_with None 100) node_reliable eq_refl) E)
    as (_ & _ & Hread).
  eapply wp_known; [exact E|].
  split; [reflexivity|].
  apply Hread.
  - vm_compute. reflexivity.
  - reflexivity.
  - vm_compute. discriminate.
Defined.

Lemma merge_updates_by_key_witness :
  exists merged,
    wp (mergeActiveTokens (node no_fault)
          (VArr [token "k2" "new"; token "k7" "new"]) VNull)
       new_store (disk_with [token "k1" "old"; token "k2" "old"])
       (fun r s1 e1 => r = Fulfilled tt /\ persisted (node no_fault) s1 e1 merged) /\
    length merged = 2%nat /\
    merged !! 1%nat = Some (overlay (token "k2" "old") (token "k2" "new")) /\
    merged !! 0%nat = Some (token "k1" "old").
Proof.
  destruct (merge_updates_by_key (node no_fault)
              (VArr [token "k2" "new"; token "k7" "new"]) VNull
              new_store (disk_with [token "k1" "old"; token "k2" "old"])
              [token "k1" "old"; token "k2" "old"]
              (cached_store [token "k1" "old"; token "k2" "old"] 0)
              (add_event (completed ReadFile)
                 (add_event (completed Access)
                    (add_event (completed Mkdir)
                       (disk_with [token "k1" "old"; token "k2" "old"]))))
              node_reliable eq_refl)
    as (merged & Hrun & Hlen & _ & _ & Hall & _).
  - vm_compute. reflexivity.
  - discriminate.
  - repeat constructor; discriminate.
  - exists merged. split; [exact Hrun|]. split; [exact Hlen|].
    assert (distinct_keys (normalize (VArr [token "k2" "new"; token "k7" "new"])))
      as Hd by (cbn; repeat constructor).
    split.
    + apply (Hall eq_refl Hd 1%nat (token "k2" "old") eq_refl).
      * left.
      * reflexivity.
      * reflexivity.
    + apply (Hall eq_refl Hd 0%nat (token "k1" "old") eq_refl).
      intros t [->|[->|Hin%elem_of_nil]%elem_of_cons]%elem_of_cons _;
        [discriminate | discriminate | contradiction].
Defined.

(** Against claim C5.  With a single record supplied, the active record
    that matches the record of the file is not applied; and of two active
    records with one key, the first is not what the file ends with. *)
Lemma merge_leaves_active_records_out :
  (let '(r, s1, e1) :=
     mergeActiveTokens (node no_fault)
       (VArr [token "k1" "new"]) (token "k9" "other")
       new_store (disk_with [token "k1" "old"]) in
   r = Fulfilled tt /\
   first_match [token "k1" "old"] (token "k1" "new") = Some 0%nat /\
   persisted_tokens (node no_fault) e1 = Some [token "k1" "old"] /\
   token "k1" "old" <> overlay (token "k1" "old") (token "k1" "new")) /\
  (let '(r, s1, e1) :=
     mergeActiveTokens (node no_fault)
       (VArr [token "k1" "first"; token "k1" "second"]) VNull
       new_store (disk_with [token "k1" "old"]) in
   r = Fulfilled tt /\
   first_match [token "k1" "old"] (token "k1" "first") = Some 0%nat /\
   persisted_tokens (node no_fault) e1 = Some [token "k1" "second"] /\
   token "k1" "second" <> overlay (token "k1" "old") (token "k1" "first")).
Proof. vm_compute. repeat split; (reflexivity || discriminate). Qed.

Lemma merge_aborts_after_failed_read_witness :
  exists sa ea,
    mergeActiveTokens (node no_fault) (VArr [token "k1" "a"]) VNull
      new_store (env_with (Some "{oops") 0)
      = (Fulfilled tt, sa, add_log Warn skip_line ea) /\
    _cache sa = _cache new_store /\
    (access_never_fails (node no_fault) ->
     file (env_with (Some "{oops") 0) <> None ->
     file ea = file (env_with (Some "{oops") 0)).
Proof.
  eexists _, _.
  eapply (merge_aborts_after_failed_read (node no_fault)
            (VArr [token "k1" "a"]) VNull new_store (env_with (Some "{oops") 0)).
  - reflexivity.
  - vm_compute. reflexivity.
  - reflexivity.
Defined.

Lemma readAll_serves_stale_cache_witness :
  exists s1 e1,
    readAll (node no_fault) (cached_store [token "k1" "a"] 0)
      (env_with (Some "{oops") 9000) = (Fulfilled [token "k1" "a"], s1, e1) /\
    cache_state s1 = (Some [token "k1" "a"], 9000, false) /\
    file e1 = Some "{oops" /\
    ([token "k1" "a"] <> [] ->
     Fulfilled [token "k1" "a"] <> Fulfilled (A:=list value) []).
Proof.
  apply (readAll_serves_stale_cache (node no_fault)
           (cached_store [token "k1" "a"] 0) (env_with (Some "{oops") 9000)).
  - reflexivity.
  - vm_compute. discriminate.
  - intros h. reflexivity.
  - reflexivity.
  - vm_compute. exact I.
Defined.

Lemma bootstrap_keeps_its_salt_witness :
  wp (_ensureFileExists (node no_fault)) new_store (env_with None 0)
    (fun r1 s1 e1 =>
       r1 = Fulfilled tt /\
       file e1 = Some (MiniJson.stringify (fileData (VStr "salt0") (VArr []))) /\
       wp (_ensureFileExists (node no_fault)) s1 e1 (fun r2 s2 e2 =>
         r2 = Fulfilled tt /\ file e2 = file e1 /\
         salts_drawn e2 = salts_drawn e1 /\
         wp (getSalt (node no_fault)) s2 e2 (fun r3 s3 e3 =>
           r3 = Fulfilled (VStr "salt0") /\
           file e3 = file e1 /\ salts_drawn e3 = salts_drawn e1 /\
           forall e4, getSalt (node no_fault) s3 e4 =
                      (Fulfilled (VStr "salt0"), s3, e4)))).
Proof.
  apply (bootstrap_keeps_its_salt (node no_fault) new_store (env_with None 0)).
  - exact node_reliable.
  - reflexivity.
  - reflexivity.
  - discriminate.
  - vm_compute. reflexivity.
Defined.

(** Every rename fails: neither operation moves the cache. *)
Lemma cache_follows_the_disk_witness :
  let P := node (rename_fails EIO) in
  let e := disk_with [token "k1" "old"] in
  wp (writeAll P (VArr [token "k1" "a"])) new_store e
    (fun r s1 e1 => cache_state s1 = cache_state new_store) /\
  wp (mergeActiveTokens P (VArr [token "k1" "new"]) VNull) new_store e
    (fun r s1 e1 => cache_state s1 = (Some [token "k1" "old"], 0, true)).
Proof.
  destruct (cache_follows_the_disk (node (rename_fails EIO))
              (VArr [token "k1" "a"]) (VArr [token "k1" "new"]) VNull
              new_store (disk_with [token "k1" "old"]) eq_refl)
    as (H1 & H2 & _).
  split.
  - eapply H1; [vm_compute; reflexivity | vm_compute; reflexivity].
  - eapply (H2 [overlay (token "k1" "old") (token "k1" "new")]
              (set_lastReadOk true
                 (cached_store [token "k1" "old"] 0)));
      [vm_compute; reflexivity | vm_compute; reflexivity | vm_compute; reflexivity].
Defined.

(** ** The further properties at work *)

Lemma getSalt_migrates_the_legacy_layout_witness :
  wp (getSalt (node no_fault)) new_store legacy_disk
     (fun r s1 e1 =>
        r = Fulfilled (VStr "salt0") /\
        persisted_tokens (node no_fault) e1 = Some [token "k1" "a"]).
Proof.
  eapply wp_mono.
  - apply (getSalt_migrates_the_legacy_layout (node no_fault) new_store
             legacy_disk (MiniJson.stringify (VArr [token "k1" "a"]))
             [token "k1" "a"]).
    + exact node_reliable.
    + reflexivity.
    + reflexivity.
    + vm_compute. reflexivity.
  - cbn beta zeta. intros r s1 e1 (H1 & _ & _ & _ & _ & H6).
    split; [exact H1|]. apply H6. vm_compute. reflexivity.
Defined.

Lemma getSalt_completes_a_document_witness :
  wp (getSalt (node no_fault)) new_store saltless_disk
     (fun r s1 e1 =>
        exists o',
          r = Fulfilled (VStr "salt0") /\
          file e1 = Some (MiniJson.stringify (VObj o')) /\
          lookup_prop "salt" o' = Some (VStr "salt0") /\
          lookup_prop "tokens" o' = Some (VArr [token "k1" "a"]) /\
          lookup_prop "note" o' = Some (VStr "kept")).
Proof.
  eapply wp_mono.
  - apply (getSalt_completes_a_document (node no_fault) new_store saltless_disk
             (MiniJson.stringify
                (VObj [("tokens", VArr [token "k1" "a"]); ("note", VStr "kept")]))
             [("tokens", VArr [token "k1" "a"]); ("note", VStr "kept")]).
    + exact node_reliable.
    + reflexivity.
    + reflexivity.
    + vm_compute. reflexivity.
  - cbn beta zeta. intros r s1 e1 (_ & _ & H3).
    destruct (H3 eq_refl) as (o' & Hr & Hf & _ & Hs & Ht & Hk).
    exists o'. split; [exact Hr|]. split; [exact Hf|]. split; [exact Hs|].
    split; [exact Ht|]. rewrite Hk; [reflexivity | discriminate | discriminate].
Defined.

Lemma getSalt_falls_back_to_a_temporary_salt_witness :
  wp (getSalt (node no_fault)) new_store (env_with (Some "{oops") 0)
     (fun r s1 e1 =>
        (exists n, (0 <= n)%nat /\ salts_drawn e1 = S n /\
           r = Fulfilled (VStr (generateSalt (node no_fault) n)) /\
           _salt s1 = VStr (generateSalt (node no_fault) n)) /\
        cache_state s1 = cache_state new_store /\ file e1 = Some "{oops" /\
        exists err, last (log e1) = Some (salt_failure_line err)).
Proof.
  eapply wp_mono.
  - apply (getSalt_falls_back_to_a_temporary_salt (node no_fault) new_store
             (env_with (Some "{oops") 0) "{oops").
    + intros h. reflexivity.
    + reflexivity.
    + reflexivity.
  - cbn beta. intros r s1 e1 H. apply H. left. vm_compute. exact I.
Defined.

Lemma store_keeps_its_salt_witness :
  let e := env_with
             (Some (MiniJson.stringify
                      (fileData (VStr "other") (VArr [token "k1" "old"])))) 0 in
  (forall c,
     wp (perform (node no_fault) c) (salted_store "pepper") e
        (fun r s1 e1 => _salt s1 = VStr "pepper")) /\
  wp (writeAll (node no_fault) (VArr [token "k2" "new"])) (salted_store "pepper") e
     (fun r s1 e1 =>
        r = Fulfilled tt /\
        file e1 = Some (MiniJson.stringify
                          (fileData (VStr "pepper") (VArr [token "k2" "new"])))).
Proof.
  cbv zeta.
  destruct (store_keeps_its_salt (node no_fault) (salted_store "pepper")
              (env_with
                 (Some (MiniJson.stringify
                          (fileData (VStr "other") (VArr [token "k1" "old"])))) 0)
              eq_refl) as [H1 H2].
  split; [exact H1|]. exact (H2 node_reliable eq_refl (VArr [token "k2" "new"])).
Defined.


Lemma readAll_takes_both_layouts_witness :
  wp (readAll (node no_fault)) new_store legacy_disk
     (fun r s1 e1 =>
        r = Fulfilled [token "k1" "a"] /\
        cache_state s1 = (Some [token "k1" "a"], 7, true) /\
        _salt s1 = VNull /\
        file e1 = Some (MiniJson.stringify (VArr [token "k1" "a"])) /\
        calls_between legacy_disk e1
          [completed Mkdir; completed Access; completed ReadFile]).
Proof.
  apply (readAll_takes_both_layouts (node no_fault) new_store legacy_disk
           (MiniJson.stringify (VArr [token "k1" "a"])) [token "k1" "a"]).
  - exact node_reliable.
  - left. reflexivity.
  - reflexivity.
  - left. vm_compute. reflexivity.
Defined.

Lemma readAll_of_an_unreadable_file_without_cache_witness :
  wp (readAll (node no_fault)) new_store (env_with (Some "{oops") 0)
     (fun r s1 e1 =>
        r = Fulfilled [] /\ s1 = set_lastReadOk false new_store /\
        file e1 = Some "{oops" /\
        (exists line,
           log e1 = (log (env_with (Some "{oops") 0) ++ [line])%list /\
           read_failure_line line) /\
        forall e2, file e2 = Some "{oops" ->
          wp (readAll (node no_fault)) s1 e2 (fun r2 s2 e3 =>
            r2 = Fulfilled [] /\ s2 = s1 /\
            exists made res,
              calls_between e2 e3
                [FsEvent Mkdir made; completed Access; FsEvent ReadFile res])).
Proof.
  apply (readAll_of_an_unreadable_file_without_cache (node no_fault) new_store
           (env_with (Some "{oops") 0) "{oops").
  - reflexivity.
  - intros h. reflexivity.
  - reflexivity.
  - vm_compute. exact I.
Defined.


Lemma merge_fills_an_empty_store_witness :
  wp (mergeActiveTokens (node no_fault)
        (VArr [session_token "k1"; token "k2" "b"]) (token "k9" "other"))
     new_store (disk_with [])
     (fun r s1 e1 =>
        r = Fulfilled tt /\
        persisted (node no_fault) s1 e1
          [VObj [("refresh_token", VStr "k1")]; token "k2" "b"]).
Proof.
  destruct (merge_fills_an_empty_store (node no_fault)
              [session_token "k1"; token "k2" "b"] (token "k9" "other")
              new_store (disk_with [])
              (MiniJson.stringify (fileData (VStr "pepper") (VArr []))))
    as [H _].
  - exact node_reliable.
  - reflexivity.
  - left. reflexivity.
  - reflexivity.
  - vm_compute. reflexivity.
  - discriminate.
  - repeat constructor; discriminate.
  - exact H.
Defined.

Lemma merging_again_changes_nothing_witness :
  exists merged,
    wp (mergeActiveTokens (node no_fault) (VArr [token "k2" "new"]) VNull)
       new_store (disk_with [token "k1" "old"; token "k2" "old"])
       (fun r s1 e1 =>
          r = Fulfilled tt /\ persisted (node no_fault) s1 e1 merged /\
          wp (mergeActiveTokens (node no_fault) (VArr [token "k2" "new"]) VNull)
             s1 (set_now 3000 e1)
             (fun r2 s2 e3 =>
                r2 = Fulfilled tt /\ persisted (node no_fault) s2 e3 merged)).
Proof.
  destruct (merging_again_changes_nothing (node no_fault)
              (VArr [token "k2" "new"]) VNull
              new_store (disk_with [token "k1" "old"; token "k2" "old"])
              [token "k1" "old"; token "k2" "old"]
              (cached_store [token "k1" "old"; token "k2" "old"] 0)
              (add_event (completed ReadFile)
                 (add_event (completed Access)
                    (add_event (completed Mkdir)
                       (disk_with [token "k1" "old"; token "k2" "old"]))))
              node_reliable eq_refl)
    as (merged & H).
  - vm_compute. reflexivity.
  - discriminate.
  - repeat constructor; discriminate.
  - cbn. repeat constructor; rewrite ?not_elem_of_cons; repeat split; (discriminate || apply not_elem_of_nil).
  - constructor.
  - exists merged. eapply wp_mono; [exact H|]. cbn beta.
    intros r s1 e1 (H1 & H2 & H3).
    split; [exact H1|]. split; [exact H2|].
    apply H3. vm_compute. reflexivity.
Defined.

Lemma merge_restores_the_file_from_the_cache_witness :
  exists merged,
    wp (mergeActiveTokens (node no_fault) (VArr [token "k1" "new"]) VNull)
       (cached_store [token "k1" "old"] 0) (env_with (Some "{oops") 9000)
       (fun r s1 e1 =>
          r = Fulfilled tt /\ persisted (node no_fault) s1 e1 merged /\
          _lastReadOk s1 = true) /\
    map key_of merged = map key_of [token "k1" "old"].
Proof.
  apply (merge_restores_the_file_from_the_cache (node no_fault)
           (VArr [token "k1" "new"]) VNull
           (cached_store [token "k1" "old"] 0) (env_with (Some "{oops") 9000)
           [token "k1" "old"] "{oops").
  - exact node_reliable.
  - reflexivity.
  - reflexivity.
  - discriminate.
  - repeat constructor; discriminate.
  - vm_compute. discriminate.
  - reflexivity.
  - vm_compute. exact I.
Defined.

Lemma writeAll_is_all_or_nothing_witness :
  let P := node (rename_fails EIO) in
  let e := disk_with [token "k1" "old"] in
  wp (writeAll P (VArr [token "k1" "a"])) (salted_store "pepper") e
    (fun r s1 e1 =>
       r = Fulfilled tt /\
       cache_state s1 = cache_state (salted_store "pepper") /\
       file e1 = file e).
Proof.
  cbv zeta.
  eassert (writeAll (node (rename_fails EIO)) (VArr [token "k1" "a"])
             (salted_store "pepper") (disk_with [token "k1" "old"]) = _) as E
    by (vm_compute; reflexivity).
  pose proof (writeAll_is_all_or_nothing (node (rename_fails EIO))
                (VArr [token "k1" "a"]) (salted_store "pepper")
                (disk_with [token "k1" "old"])
                (MiniJson.stringify (fileData (VStr "pepper")
                                       (VArr [token "k1" "old"])))
                eq_refl eq_refl (fun h => eq_refl) eq_refl) as H.
  eapply spec_of in H; [|exact E].
  destruct H as (Hr & evs & Hcalls & [(Hp & _)|(Hc & Hfile & _)]).
  - exfalso. destruct Hp as [_ Hp].
    eassert (_cache _ = _) as Ec by (vm_compute; reflexivity).
    rewrite Ec in Hp. discriminate.
  - eapply wp_known; [exact E|]. split; [reflexivity|]. split; [exact Hc|].
    vm_compute. reflexivity.
Defined.

Lemma getGroupKey_banana_is_gemini_witness :
  includes (lower "Gemini-3-Pro-Image-Preview") "gemini" = true /\
  includes (lower "Gemini-3-Pro-Image-Preview") "claude" = false.
Proof.
  apply (getGroupKey_banana_is_gemini lower "Gemini-3-Pro-Image-Preview").
  vm_compute. reflexivity.
Defined.

Lemma handler_restores_the_path_witness :
  handler (fun (req : @request unit) (res : unit) => url req)
    {| url := Some "/api/index/v1/models"; details_of := tt |} tt
  = Some "/v1/models".
Proof.
  apply (handler_restores_the_path
           (fun (req : @request unit) (res : unit) => url req) "/v1/models" tt tt).
  reflexivity.
Defined.
